(** * The 3D product viewer: hover/selection feedback and camera auto-rotation

    A shallow embedding of [threejs/js/interaction.js] (class
    [InteractionManager]) and [threejs/js/cameraAnimation.js] (class
    [CameraAnimator]), followed by the builder of the chair (class
    [ProductCreator]), the registration of listeners by the two managers,
    and the render loop of the application (class [App], with the
    [SceneManager] of [threejs/js/initScene.js]).

    JavaScript numbers are idealised as real numbers: every statement about
    scales, angles and positions is exact over [R].  The one exception is
    the builder, whose mesh positions are the doubles of the source: the
    number of rounds of one of its loops depends on their rounding.  Objects
    that the source compares with [===] (meshes, materials) are modelled by
    references: a mesh by its position in [productParts], a material by its
    address in a heap of material records. *)

From Stdlib Require Import Reals Lra ZArith String.
From Stdlib Require Floats.
From stdpp Require Import base option list gmap strings pretty.

(** ** [THREE.Vector3] *)

Record Vector3 := mkVector3 { vx : R; vy : R; vz : R }.

Definition multiplyScalar (v : Vector3) (k : R) : Vector3 :=
  mkVector3 (vx v * k) (vy v * k) (vz v * k).

Definition lerpVectors (v1 v2 : Vector3) (alpha : R) : Vector3 :=
  mkVector3 (vx v1 + (vx v2 - vx v1) * alpha)
            (vy v1 + (vy v2 - vy v1) * alpha)
            (vz v1 + (vz v2 - vz v1) * alpha).

Definition distanceTo (a b : Vector3) : R :=
  sqrt ((vx a - vx b) * (vx a - vx b) + (vy a - vy b) * (vy a - vy b)
        + (vz a - vz b) * (vz a - vz b)).

Definition unitVector : Vector3 := mkVector3 1 1 1.

(** * interaction.js *)

Module Interaction.

(** ** Materials and the material heap *)

(** The parameters of a [MeshStandardMaterial] that the viewer sets. *)
Record Material := mkMaterial {
  color : Z;
  roughness : R;
  metalness : R;
  emissive : Z;
  emissiveIntensity : R
}.

(** [material.clone()]: a new object with the same parameters; its address
    is the first free one.  Cloning [undefined] is a [TypeError]. *)
Definition clone (h : list Material) (r : nat) : option (list Material * nat) :=
  m ← h !! r; Some (h ++ [m], length h).

(** [m.emissive = new THREE.Color(c); m.emissiveIntensity = x] on the
    material at address [r]. *)
Definition tint (c : Z) (x : R) (m : Material) : Material :=
  mkMaterial (color m) (roughness m) (metalness m) c x.

Definition setEmissive (r : nat) (c : Z) (x : R) (h : list Material) : list Material :=
  alter (tint c x) r h.

(** ** Meshes *)

(** [userData]: the builder writes [name]; the other fields are absent
    (falsy) until the interaction code writes them.  [hoverTime] and
    [pulseTime] are written to [0] by the code that raises the flag under
    which they are read. *)
Record UserData := mkUserData {
  name : string;
  originalScale : option Vector3;
  hovering : bool;
  hoverTime : R;
  pulsing : bool;
  pulseTime : R
}.

Record Mesh := mkMesh {
  material : nat;
  scale : Vector3;
  userData : UserData
}.

Definition set_material (r : nat) (m : Mesh) : Mesh :=
  mkMesh r (scale m) (userData m).
Definition set_scale (v : Vector3) (m : Mesh) : Mesh :=
  mkMesh (material m) v (userData m).
Definition set_userData (u : UserData) (m : Mesh) : Mesh :=
  mkMesh (material m) (scale m) u.

Definition set_originalScale (v : option Vector3) (u : UserData) : UserData :=
  mkUserData (name u) v (hovering u) (hoverTime u) (pulsing u) (pulseTime u).
Definition set_hovering (b : bool) (u : UserData) : UserData :=
  mkUserData (name u) (originalScale u) b (hoverTime u) (pulsing u) (pulseTime u).
Definition set_hoverTime (t : R) (u : UserData) : UserData :=
  mkUserData (name u) (originalScale u) (hovering u) t (pulsing u) (pulseTime u).
Definition set_pulsing (b : bool) (u : UserData) : UserData :=
  mkUserData (name u) (originalScale u) (hovering u) (hoverTime u) b (pulseTime u).
Definition set_pulseTime (t : R) (u : UserData) : UserData :=
  mkUserData (name u) (originalScale u) (hovering u) (hoverTime u) (pulsing u) t.

(** ** The manager *)

Inductive Cursor := CursorUnset | CursorPointer | CursorDefault.

(** The fields of [InteractionManager] together with the objects they
    point to: the material heap, the meshes of [productParts] (a mesh
    reference is an index into it; its [uuid] is that identity), the
    [originalMaterials] map from uuid to material address, the canvas
    cursor and the info panel. *)
Record Manager := mkManager {
  heap : list Material;
  productParts : list Mesh;
  hoveredObject : option nat;
  selectedObject : option nat;
  originalMaterials : gmap nat nat;
  cursor : Cursor;
  panelHidden : bool;
  partNameText : string
}.

Definition set_heap (h : list Material) (s : Manager) : Manager :=
  mkManager h (productParts s) (hoveredObject s) (selectedObject s)
    (originalMaterials s) (cursor s) (panelHidden s) (partNameText s).
Definition set_productParts (ps : list Mesh) (s : Manager) : Manager :=
  mkManager (heap s) ps (hoveredObject s) (selectedObject s)
    (originalMaterials s) (cursor s) (panelHidden s) (partNameText s).
Definition set_hoveredObject (o : option nat) (s : Manager) : Manager :=
  mkManager (heap s) (productParts s) o (selectedObject s)
    (originalMaterials s) (cursor s) (panelHidden s) (partNameText s).
Definition set_selectedObject (o : option nat) (s : Manager) : Manager :=
  mkManager (heap s) (productParts s) (hoveredObject s) o
    (originalMaterials s) (cursor s) (panelHidden s) (partNameText s).
Definition set_originalMaterials (om : gmap nat nat) (s : Manager) : Manager :=
  mkManager (heap s) (productParts s) (hoveredObject s) (selectedObject s)
    om (cursor s) (panelHidden s) (partNameText s).
Definition set_cursor (c : Cursor) (s : Manager) : Manager :=
  mkManager (heap s) (productParts s) (hoveredObject s) (selectedObject s)
    (originalMaterials s) c (panelHidden s) (partNameText s).
Definition set_panelHidden (b : bool) (s : Manager) : Manager :=
  mkManager (heap s) (productParts s) (hoveredObject s) (selectedObject s)
    (originalMaterials s) (cursor s) b (partNameText s).
Definition set_partNameText (t : string) (s : Manager) : Manager :=
  mkManager (heap s) (productParts s) (hoveredObject s) (selectedObject s)
    (originalMaterials s) (cursor s) (panelHidden s) t.

(** [storeMaterials]: [productParts.forEach(part =>
    originalMaterials.set(part.uuid, part.material.clone()))], the loop
    from index [i] on. *)
Fixpoint storeMaterials_from (i : nat) (ps : list Mesh)
    (h : list Material) (om : gmap nat nat) : option (list Material * gmap nat nat) :=
  match ps with
  | [] => Some (h, om)
  | p :: ps' =>
      '(h', r) ← clone h (material p);
      storeMaterials_from (S i) ps' h' (<[i := r]> om)
  end.

Definition storeMaterials (s : Manager) : option Manager :=
  '(h, om) ← storeMaterials_from 0 (productParts s) (heap s) (originalMaterials s);
  Some (set_originalMaterials om (set_heap h s)).

(** The constructor: fields initialised, then [storeMaterials].  The
    cursor and the panel are those of the page. *)
Definition construct (materials : list Material) (parts : list Mesh)
    (hidden : bool) (text : string) : option Manager :=
  storeMaterials (mkManager materials parts None None ∅ CursorUnset hidden text).

Definition hidePartInfo (s : Manager) : Manager := set_panelHidden true s.

(** [partName = object.userData.name || 'Unknown Part'] *)
Definition showPartInfo (object : nat) (s : Manager) : option Manager :=
  mesh ← productParts s !! object;
  let partName := if decide (name (userData mesh) = EmptyString)
                  then "Unknown Part"%string else name (userData mesh) in
  Some (set_panelHidden false (set_partNameText partName s)).

(** [if (u.originalScale) scale.copy(u.originalScale)] *)
Definition restoreScale (mesh : Mesh) : Mesh :=
  match originalScale (userData mesh) with
  | Some v => set_scale v mesh
  | None => mesh
  end.

(** [if (!u.originalScale) u.originalScale = scale.clone()] *)
Definition rememberScale (mesh : Mesh) : Mesh :=
  match originalScale (userData mesh) with
  | Some _ => mesh
  | None => set_userData (set_originalScale (Some (scale mesh)) (userData mesh)) mesh
  end.

Definition applyHoverEffect (object : nat) (s : Manager) : option Manager :=
  if decide (selectedObject s = Some object) then Some s
  else
    orig ← originalMaterials s !! object;
    '(h, hoverMaterial) ← clone (heap s) orig;
    let h := setEmissive hoverMaterial 0x4444FF 0.4 h in
    mesh ← productParts s !! object;
    let mesh := set_material hoverMaterial mesh in
    let mesh := rememberScale mesh in
    let mesh := set_scale (multiplyScalar (scale mesh) 1.05) mesh in
    let mesh := set_userData (set_hoverTime 0 (set_hovering true (userData mesh))) mesh in
    Some (set_productParts (<[object := mesh]> (productParts s)) (set_heap h s)).

Definition applySelectionEffect (object : nat) (s : Manager) : option Manager :=
  orig ← originalMaterials s !! object;
  '(h, selectionMaterial) ← clone (heap s) orig;
  let h := setEmissive selectionMaterial 0x4444FF 0.5 h in
  mesh ← productParts s !! object;
  let mesh := set_material selectionMaterial mesh in
  let mesh := if hovering (userData mesh)
              then set_userData (set_hovering false (userData mesh)) mesh
              else mesh in
  Some (set_productParts (<[object := mesh]> (productParts s)) (set_heap h s)).

Definition clearHover (s : Manager) : option Manager :=
  s ← match hoveredObject s with
      | Some h =>
          if decide (selectedObject s = Some h) then Some s
          else
            mesh ← productParts s !! h;
            orig ← originalMaterials s !! h;
            let mesh := set_material orig mesh in
            let mesh := restoreScale mesh in
            let mesh := set_userData (set_hovering false (userData mesh)) mesh in
            Some (set_hoveredObject None
                    (set_productParts (<[h := mesh]> (productParts s)) s))
      | None => Some s
      end;
  Some (set_cursor CursorDefault s).

Definition clearSelectionEffect (object : nat) (s : Manager) : option Manager :=
  mesh ← productParts s !! object;
  orig ← originalMaterials s !! object;
  let mesh := set_material orig mesh in
  let mesh := restoreScale mesh in
  let mesh := set_userData (set_hovering false (userData mesh)) mesh in
  Some (set_productParts (<[object := mesh]> (productParts s)) s).

Definition addPulseAnimation_mesh (mesh : Mesh) : Mesh :=
  let mesh := rememberScale mesh in
  set_userData (set_pulseTime 0 (set_pulsing true (userData mesh))) mesh.

Definition addPulseAnimation (object : nat) (s : Manager) : option Manager :=
  mesh ← productParts s !! object;
  Some (set_productParts (<[object := addPulseAnimation_mesh mesh]> (productParts s)) s).

Definition removePulseAnimation_mesh (mesh : Mesh) : Mesh :=
  if pulsing (userData mesh)
  then restoreScale (set_userData (set_pulsing false (userData mesh)) mesh)
  else mesh.

Definition removePulseAnimation (object : nat) (s : Manager) : option Manager :=
  mesh ← productParts s !! object;
  Some (set_productParts (<[object := removePulseAnimation_mesh mesh]> (productParts s)) s).

Definition deselectObject (s : Manager) : option Manager :=
  s ← match selectedObject s with
      | Some p =>
          s ← clearSelectionEffect p s;
          s ← removePulseAnimation p s;
          Some (set_selectedObject None s)
      | None => Some s
      end;
  Some (hidePartInfo s).

(** What [selectObject] does after it has cleared the previous selection. *)
Definition markSelected (object : nat) (s : Manager) : option Manager :=
  s ← applySelectionEffect object (set_selectedObject (Some object) s);
  s ← showPartInfo object s;
  addPulseAnimation object s.

Definition selectObject (object : nat) (s : Manager) : option Manager :=
  s ← deselectObject s;
  markSelected object s.

(** [intersects] is what [raycaster.intersectObjects(productParts)]
    returns for the pointer position: the meshes hit, nearest first. *)
Definition handleHover (intersects : list nat) (s : Manager) : option Manager :=
  match intersects with
  | hovered :: _ =>
      if decide (hoveredObject s = Some hovered) then Some s
      else
        s ← clearHover s;
        s ← applyHoverEffect hovered (set_hoveredObject (Some hovered) s);
        Some (set_cursor CursorPointer s)
  | [] => clearHover s
  end.

Definition handleClick (intersects : list nat) (s : Manager) : option Manager :=
  match intersects with
  | clicked :: _ => selectObject clicked s
  | [] => deselectObject s
  end.

(** The body of the [forEach] in [updatePulseAnimations]. *)
Definition pulseScale (t : R) : R := (1 + sin (t * 0.01) * 0.05)%R.
Definition breathScale (t : R) : R := (1.05 + sin (t * 0.005) * 0.01)%R.

Definition baseScale (mesh : Mesh) : Vector3 :=
  default unitVector (originalScale (userData mesh)).

Definition pulseStep (deltaTime : R) (part : Mesh) : Mesh :=
  if pulsing (userData part) then
    let t := (pulseTime (userData part) + deltaTime)%R in
    let part := set_userData (set_pulseTime t (userData part)) part in
    let part := set_scale (multiplyScalar (baseScale part) (pulseScale t)) part in
    if Rgt_dec t 6280 then removePulseAnimation_mesh part else part
  else part.

Definition breathStep (deltaTime : R) (part : Mesh) : Mesh :=
  if hovering (userData part) && negb (pulsing (userData part)) then
    let t := (hoverTime (userData part) + deltaTime)%R in
    let part := set_userData (set_hoverTime t (userData part)) part in
    set_scale (multiplyScalar (baseScale part) (breathScale t)) part
  else part.

Definition updatePart (deltaTime : R) (part : Mesh) : Mesh :=
  breathStep deltaTime (pulseStep deltaTime part).

Definition updatePulseAnimations (deltaTime : R) (s : Manager) : Manager :=
  set_productParts (updatePart deltaTime <$> productParts s) s.

(** ** Events *)

Inductive Event :=
| MouseMove (intersects : list nat)
| Click (intersects : list nat)
| MouseLeave
| CloseInfo
| Frame (deltaTime : R).

Definition handle (e : Event) (s : Manager) : option Manager :=
  match e with
  | MouseMove intersects => handleHover intersects s
  | Click intersects => handleClick intersects s
  | MouseLeave => clearHover s
  | CloseInfo => Some (hidePartInfo s)
  | Frame deltaTime => Some (updatePulseAnimations deltaTime s)
  end.

Fixpoint run (es : list Event) (s : Manager) : option Manager :=
  match es with
  | [] => Some s
  | e :: es' => s' ← handle e s; run es' s'
  end.

(** ** Scenes and reachable states *)

(** What the builder hands over: the shared base materials and the meshes,
    each pointing at a base material and carrying no interaction state. *)
Record Scene := mkScene {
  sc_materials : list Material;
  sc_parts : list Mesh;
  sc_hidden : bool;
  sc_text : string
}.

Definition pristine (materials : list Material) (p : Mesh) : bool :=
  match originalScale (userData p) with
  | None => negb (hovering (userData p)) && negb (pulsing (userData p))
            && bool_decide (material p < length materials)
  | Some _ => false
  end.

Definition wf_scene (sc : Scene) : bool :=
  forallb (pristine (sc_materials sc)) (sc_parts sc).

Definition start (sc : Scene) : option Manager :=
  construct (sc_materials sc) (sc_parts sc) (sc_hidden sc) (sc_text sc).

(** [s] is a state of the manager built over [sc], after some events. *)
Definition Reachable (sc : Scene) (s : Manager) : Prop :=
  wf_scene sc = true ∧ ∃ s0 es, start sc = Some s0 ∧ run es s0 = Some s.

(** ** The invariant of reachable states *)

(** What holds of part [i], whose mesh at build time was [mesh0], when the
    hovered and selected objects are [hov] and [sel] and the heap has
    [hlen] materials. *)
Record PartInv (hov sel : option nat) (hlen : nat) (i : nat)
    (mesh0 mesh : Mesh) : Prop := {
  pi_name : name (userData mesh) = name (userData mesh0);
  pi_material : material mesh < hlen;
  pi_original : ∀ v, originalScale (userData mesh) = Some v → v = scale mesh0;
  pi_rest : hovering (userData mesh) = false → pulsing (userData mesh) = false →
            scale mesh = scale mesh0;
  pi_pulsing : pulsing (userData mesh) = true →
               sel = Some i ∧ hovering (userData mesh) = false
               ∧ is_Some (originalScale (userData mesh))
               ∧ (pulseTime (userData mesh) <= 6280)%R;
  pi_hovering : hovering (userData mesh) = true →
                hov = Some i ∧ sel ≠ Some i
                ∧ is_Some (originalScale (userData mesh))
}.

Record Inv (sc : Scene) (s0 s : Manager) : Prop := {
  inv_wf : wf_scene sc = true;
  inv_start : start sc = Some s0;
  inv_length : length (productParts s) = length (sc_parts sc);
  inv_map : originalMaterials s = originalMaterials s0;
  inv_heap : heap s0 `prefix_of` heap s;
  inv_hovered : ∀ h, hoveredObject s = Some h → h < length (sc_parts sc);
  inv_selected : ∀ p, selectedObject s = Some p → p < length (sc_parts sc);
  inv_parts : ∀ i mesh0 mesh,
    sc_parts sc !! i = Some mesh0 → productParts s !! i = Some mesh →
    PartInv (hoveredObject s) (selectedObject s) (length (heap s)) i mesh0 mesh
}.

Definition noneHovering (s : Manager) : Prop :=
  ∀ i mesh, productParts s !! i = Some mesh → hovering (userData mesh) = false.

(** The previously selected object of [s] is back to its stored original
    material and its original scale in [s'], with no pulse. *)
Definition selectionCleared (sc : Scene) (s s' : Manager) : Prop :=
  ∀ p mesh0, selectedObject s = Some p → sc_parts sc !! p = Some mesh0 →
    ∃ r mesh1, originalMaterials s !! p = Some r
      ∧ productParts s' !! p = Some mesh1
      ∧ material mesh1 = r ∧ scale mesh1 = scale mesh0
      ∧ pulsing (userData mesh1) = false.

(** Pointer events that only move the hover: [mousemove] and [mouseleave]. *)
Definition is_hover_event (e : Event) : bool :=
  match e with
  | MouseMove _ | MouseLeave => true
  | _ => false
  end.

(** ** Meshes after an effect *)

(** The mesh that [applyHoverEffect] leaves in place of a hovered one. *)
Definition hovered (fresh : nat) (mesh : Mesh) : Mesh :=
  let mesh := set_material fresh mesh in
  let mesh := rememberScale mesh in
  let mesh := set_scale (multiplyScalar (scale mesh) 1.05) mesh in
  set_userData (set_hoverTime 0 (set_hovering true (userData mesh))) mesh.


(** The mesh that [deselectObject] leaves in place of the selected one. *)
Definition deselected (orig : nat) (mesh : Mesh) : Mesh :=
  removePulseAnimation_mesh
    (set_userData (set_hovering false (userData (restoreScale (set_material orig mesh))))
       (restoreScale (set_material orig mesh))).

(** The mesh that [selectObject] leaves in place of the clicked one, once
    the previous selection is cleared. *)
Definition selected (fresh : nat) (mesh : Mesh) : Mesh :=
  let mesh := set_material fresh mesh in
  let mesh := if hovering (userData mesh)
              then set_userData (set_hovering false (userData mesh)) mesh
              else mesh in
  addPulseAnimation_mesh mesh.

(** ** A scene to evaluate on: the builder's materials, seat and backrest *)

Definition wood : Material := mkMaterial 0x8B4513 0.8 0.1 0 1.
Definition cushion : Material := mkMaterial 0x4169E1 0.6 0 0 1.
Definition metal : Material := mkMaterial 0x888888 0.3 0.7 0 1.

(** [new THREE.Mesh(geometry, material)] with [userData = { name }]. *)
Definition newMesh (name : string) (material : nat) : Mesh :=
  mkMesh material unitVector (mkUserData name None false 0 false 0).

Definition chairScene : Scene :=
  mkScene [wood; cushion; metal]
          [newMesh "Chair Seat" 1; newMesh "Chair Backrest" 0]
          true EmptyString.

(** The manager right after construction over [chairScene]: the two
    stored originals are the clones at addresses 3 and 4. *)
Definition chairStart : Manager :=
  mkManager [wood; cushion; metal; cushion; wood]
            (sc_parts chairScene) None None
            (<[1 := 4]> (<[0 := 3]> ∅)) CursorUnset true EmptyString.

(** The same after a click on the seat. *)
Definition seatSelected : Manager :=
  mkManager [wood; cushion; metal; cushion; wood; tint 0x4444FF 0.5 cushion]
            [selected 5 (newMesh "Chair Seat" 1); newMesh "Chair Backrest" 0]
            None (Some 0)
            (<[1 := 4]> (<[0 := 3]> ∅)) CursorUnset false "Chair Seat".


(** ** What a part shows *)

(** The parameters of the material the mesh [i] was built with. *)
Definition baseMaterial (sc : Scene) (i : nat) : option Material :=
  mesh0 ← sc_parts sc !! i; sc_materials sc !! material mesh0.

(** The material parameters that go with the state of a part: the
    selection tint on the selected object, the hover tint on a hovering
    part, the untinted base otherwise. *)
Definition lookOf (sel : option nat) (i : nat) (mesh : Mesh) (base : Material) : Material :=
  if bool_decide (sel = Some i) then tint 0x4444FF 0.5 base
  else if hovering (userData mesh) then tint 0x4444FF 0.4 base
  else base.

(** The scale that goes with the animation state of a part whose scale at
    build time is [v]. *)
Definition scaleLaw (v : Vector3) (mesh : Mesh) : Prop :=
  (hovering (userData mesh) = true →
     scale mesh = multiplyScalar v (breathScale (hoverTime (userData mesh))))
  ∧ (pulsing (userData mesh) = true →
       scale mesh = multiplyScalar v (pulseScale (pulseTime (userData mesh)))
       ∨ (pulseTime (userData mesh) = 0%R
          ∧ scale mesh = multiplyScalar v (breathScale (hoverTime (userData mesh))))).

Definition Shown (sc : Scene) (s : Manager) : Prop :=
  ∀ i mesh0 mesh base,
    sc_parts sc !! i = Some mesh0 → productParts s !! i = Some mesh →
    baseMaterial sc i = Some base →
    heap s !! material mesh = Some (lookOf (selectedObject s) i mesh base)
    ∧ scaleLaw (scale mesh0) mesh.

(** The mesh that [clearHover] leaves in place of the hovered one. *)
Definition unhovered (orig : nat) (mesh : Mesh) : Mesh :=
  set_userData (set_hovering false (userData (restoreScale (set_material orig mesh))))
    (restoreScale (set_material orig mesh)).

(** The pointer cursor is only shown over a hovered mesh. *)
Definition cursorTracksHover (s : Manager) : Prop :=
  cursor s = CursorPointer → is_Some (hoveredObject s).

(** ** The info panel *)

(** [object.userData.name || 'Unknown Part'] *)
Definition displayName (mesh : Mesh) : string :=
  if decide (name (userData mesh) = EmptyString)
  then "Unknown Part"%string else name (userData mesh).

(** While the panel is visible a part is selected and the panel names it. *)
Definition panelNamesSelection (sc : Scene) (s : Manager) : Prop :=
  panelHidden s = false →
  ∃ m mesh0, selectedObject s = Some m ∧ sc_parts sc !! m = Some mesh0
    ∧ partNameText s = displayName mesh0.

(** ** Frames in a row *)

Definition frames (deltas : list R) : list Event := Frame <$> deltas.

Definition sumDeltas (deltas : list R) : R := foldr Rplus 0%R deltas.

(** ** Events the raycaster can produce *)

(** The nearest hit of a pointer event, when there is one, is a mesh of
    [productParts] ([n] of them). *)
Definition hitsProductParts (n : nat) (e : Event) : bool :=
  match e with
  | MouseMove (m :: _) | Click (m :: _) => bool_decide (m < n)
  | _ => true
  end.

(** ** Pointer coordinates *)

(** [canvas.getBoundingClientRect()] *)
Record Rect := mkRect {
  rectLeft : R;
  rectTop : R;
  rectWidth : R;
  rectHeight : R
}.

(** [updateMousePosition]: the values written to [mouse.x] and [mouse.y]
    for a pointer event at [(clientX, clientY)]. *)
Definition updateMousePosition (rect : Rect) (clientX clientY : R) : R * R :=
  (((clientX - rectLeft rect) / rectWidth rect) * 2 - 1,
   - ((clientY - rectTop rect) / rectHeight rect) * 2 + 1)%R.
End Interaction.

(** * cameraAnimation.js *)

Module Camera.

Local Open Scope R_scope.

(** [Math.atan2(y, x)] over the reals.  There are no signed zeros: for
    [y] = -0 and [x] < 0, [Math.atan2] returns -PI where this returns PI,
    the same direction. *)
Definition atan2 (y x : R) : R :=
  if Rlt_dec 0 x then atan (y / x)
  else if Rlt_dec x 0 then
         if Rle_dec 0 y then atan (y / x) + PI else atan (y / x) - PI
  else if Rlt_dec 0 y then PI / 2
  else if Rlt_dec y 0 then - PI / 2
  else 0.

(** The camera: its position and its orientation.  Every orientation in
    the viewer is the result of a [lookAt], so it is recorded as the pair of
    the eye position at that call and the point looked at. *)
Record Camera := mkCamera {
  position : Vector3;
  orientation : Vector3 * Vector3
}.

Definition lookAt (point : Vector3) (c : Camera) : Camera :=
  mkCamera (position c) (position c, point).

Definition set_position (p : Vector3) (c : Camera) : Camera :=
  mkCamera p (orientation c).

(** The camera is aimed at [point] from where it stands. *)
Definition faces (c : Camera) (point : Vector3) : Prop :=
  orientation c = (position c, point).

Inductive ButtonText := InitialText | PauseRotation | ResumeRotation.

(** A pending [setTimeout]: the callbacks are the two closures of
    [onMouseUp] and [onUserInteractionEnd]. *)
Inductive Callback := ResumeAfterMouseUp | ResumeAfterInteractionEnd.

Record Timer := mkTimer {
  timerId : nat;
  timerDelay : R;
  timerCallback : Callback
}.

(** The closure [animate] of [animateToPosition], waiting for its next
    animation frame.  The only caller is [resetCamera], whose [onComplete]
    is [ResetComplete]. *)
Inductive Completion := ResetComplete.

Record Animation := mkAnimation {
  startPosition : Vector3;
  targetPosition : Vector3;
  startTime : R;
  onComplete : option Completion
}.

Section WithOrbitControls.

(** [OrbitControls] is the library's.  [Orbit] is its private state and
    [orbit_update o t c] is [controls.update()] on private state [o],
    [controls.target = t] and camera [c]: the new private state, target and
    camera, and whether a [change] event is dispatched to the listeners. *)
Context {Orbit : Type}.
Variable orbit_update : Orbit → Vector3 → Camera → Orbit * Vector3 * Camera * bool.

Record Controls := mkControls {
  enabled : bool;
  controlsTarget : Vector3;
  orbit : Orbit
}.

Definition set_enabled (b : bool) (c : Controls) : Controls :=
  mkControls b (controlsTarget c) (orbit c).
Definition set_controlsTarget (t : Vector3) (c : Controls) : Controls :=
  mkControls (enabled c) t (orbit c).

(** The fields of [CameraAnimator], the label and the [user-interacting]
    class of the toggle button, and what the browser holds for it: the
    pending timers, the next timer id (ids are positive, hence truthy) and
    the animation callbacks queued by [requestAnimationFrame]. *)
Record Animator := mkAnimator {
  camera : Camera;
  controls : Controls;
  target : Vector3;
  isAutoRotating : bool;
  rotationSpeed : R;
  radius : R;
  height : R;
  initialAngle : R;
  currentAngle : R;
  userInteracting : bool;
  interactionTimeout : option nat;
  resumeDelay : R;
  wasAutoRotatingBeforeInteraction : bool;
  isMouseDown : bool;
  isDragging : bool;
  lastTime : R;
  initialPosition : Vector3;
  initialRadius : R;
  initialHeight : R;
  toggleText : ButtonText;
  toggleUserInteracting : bool;
  timers : list Timer;
  nextTimer : nat;
  frames : list Animation
}.

Definition set_camera (x : Camera) (s : Animator) : Animator :=
  mkAnimator x (controls s) (target s) (isAutoRotating s) (rotationSpeed s)
    (radius s) (height s) (initialAngle s) (currentAngle s)
    (userInteracting s) (interactionTimeout s) (resumeDelay s)
    (wasAutoRotatingBeforeInteraction s) (isMouseDown s) (isDragging s)
    (lastTime s) (initialPosition s) (initialRadius s) (initialHeight s)
    (toggleText s) (toggleUserInteracting s) (timers s) (nextTimer s)
    (frames s).
Definition set_controls (x : Controls) (s : Animator) : Animator :=
  mkAnimator (camera s) x (target s) (isAutoRotating s) (rotationSpeed s)
    (radius s) (height s) (initialAngle s) (currentAngle s)
    (userInteracting s) (interactionTimeout s) (resumeDelay s)
    (wasAutoRotatingBeforeInteraction s) (isMouseDown s) (isDragging s)
    (lastTime s) (initialPosition s) (initialRadius s) (initialHeight s)
    (toggleText s) (toggleUserInteracting s) (timers s) (nextTimer s)
    (frames s).
Definition set_isAutoRotating (x : bool) (s : Animator) : Animator :=
  mkAnimator (camera s) (controls s) (target s) x (rotationSpeed s) (radius s)
    (height s) (initialAngle s) (currentAngle s) (userInteracting s)
    (interactionTimeout s) (resumeDelay s)
    (wasAutoRotatingBeforeInteraction s) (isMouseDown s) (isDragging s)
    (lastTime s) (initialPosition s) (initialRadius s) (initialHeight s)
    (toggleText s) (toggleUserInteracting s) (timers s) (nextTimer s)
    (frames s).
Definition set_rotationSpeed (x : R) (s : Animator) : Animator :=
  mkAnimator (camera s) (controls s) (target s) (isAutoRotating s) x
    (radius s) (height s) (initialAngle s) (currentAngle s)
    (userInteracting s) (interactionTimeout s) (resumeDelay s)
    (wasAutoRotatingBeforeInteraction s) (isMouseDown s) (isDragging s)
    (lastTime s) (initialPosition s) (initialRadius s) (initialHeight s)
    (toggleText s) (toggleUserInteracting s) (timers s) (nextTimer s)
    (frames s).
Definition set_radius (x : R) (s : Animator) : Animator :=
  mkAnimator (camera s) (controls s) (target s) (isAutoRotating s)
    (rotationSpeed s) x (height s) (initialAngle s) (currentAngle s)
    (userInteracting s) (interactionTimeout s) (resumeDelay s)
    (wasAutoRotatingBeforeInteraction s) (isMouseDown s) (isDragging s)
    (lastTime s) (initialPosition s) (initialRadius s) (initialHeight s)
    (toggleText s) (toggleUserInteracting s) (timers s) (nextTimer s)
    (frames s).
Definition set_height (x : R) (s : Animator) : Animator :=
  mkAnimator (camera s) (controls s) (target s) (isAutoRotating s)
    (rotationSpeed s) (radius s) x (initialAngle s) (currentAngle s)
    (userInteracting s) (interactionTimeout s) (resumeDelay s)
    (wasAutoRotatingBeforeInteraction s) (isMouseDown s) (isDragging s)
    (lastTime s) (initialPosition s) (initialRadius s) (initialHeight s)
    (toggleText s) (toggleUserInteracting s) (timers s) (nextTimer s)
    (frames s).
Definition set_currentAngle (x : R) (s : Animator) : Animator :=
  mkAnimator (camera s) (controls s) (target s) (isAutoRotating s)
    (rotationSpeed s) (radius s) (height s) (initialAngle s) x
    (userInteracting s) (interactionTimeout s) (resumeDelay s)
    (wasAutoRotatingBeforeInteraction s) (isMouseDown s) (isDragging s)
    (lastTime s) (initialPosition s) (initialRadius s) (initialHeight s)
    (toggleText s) (toggleUserInteracting s) (timers s) (nextTimer s)
    (frames s).
Definition set_userInteracting (x : bool) (s : Animator) : Animator :=
  mkAnimator (camera s) (controls s) (target s) (isAutoRotating s)
    (rotationSpeed s) (radius s) (height s) (initialAngle s) (currentAngle s)
    x (interactionTimeout s) (resumeDelay s)
    (wasAutoRotatingBeforeInteraction s) (isMouseDown s) (isDragging s)
    (lastTime s) (initialPosition s) (initialRadius s) (initialHeight s)
    (toggleText s) (toggleUserInteracting s) (timers s) (nextTimer s)
    (frames s).
Definition set_interactionTimeout (x : option nat) (s : Animator) : Animator :=
  mkAnimator (camera s) (controls s) (target s) (isAutoRotating s)
    (rotationSpeed s) (radius s) (height s) (initialAngle s) (currentAngle s)
    (userInteracting s) x (resumeDelay s) (wasAutoRotatingBeforeInteraction s)
    (isMouseDown s) (isDragging s) (lastTime s) (initialPosition s)
    (initialRadius s) (initialHeight s) (toggleText s)
    (toggleUserInteracting s) (timers s) (nextTimer s) (frames s).
Definition set_wasAutoRotatingBeforeInteraction (x : bool) (s : Animator) : Animator :=
  mkAnimator (camera s) (controls s) (target s) (isAutoRotating s)
    (rotationSpeed s) (radius s) (height s) (initialAngle s) (currentAngle s)
    (userInteracting s) (interactionTimeout s) (resumeDelay s) x
    (isMouseDown s) (isDragging s) (lastTime s) (initialPosition s)
    (initialRadius s) (initialHeight s) (toggleText s)
    (toggleUserInteracting s) (timers s) (nextTimer s) (frames s).
Definition set_isMouseDown (x : bool) (s : Animator) : Animator :=
  mkAnimator (camera s) (controls s) (target s) (isAutoRotating s)
    (rotationSpeed s) (radius s) (height s) (initialAngle s) (currentAngle s)
    (userInteracting s) (interactionTimeout s) (resumeDelay s)
    (wasAutoRotatingBeforeInteraction s) x (isDragging s) (lastTime s)
    (initialPosition s) (initialRadius s) (initialHeight s) (toggleText s)
    (toggleUserInteracting s) (timers s) (nextTimer s) (frames s).
Definition set_isDragging (x : bool) (s : Animator) : Animator :=
  mkAnimator (camera s) (controls s) (target s) (isAutoRotating s)
    (rotationSpeed s) (radius s) (height s) (initialAngle s) (currentAngle s)
    (userInteracting s) (interactionTimeout s) (resumeDelay s)
    (wasAutoRotatingBeforeInteraction s) (isMouseDown s) x (lastTime s)
    (initialPosition s) (initialRadius s) (initialHeight s) (toggleText s)
    (toggleUserInteracting s) (timers s) (nextTimer s) (frames s).
Definition set_lastTime (x : R) (s : Animator) : Animator :=
  mkAnimator (camera s) (controls s) (target s) (isAutoRotating s)
    (rotationSpeed s) (radius s) (height s) (initialAngle s) (currentAngle s)
    (userInteracting s) (interactionTimeout s) (resumeDelay s)
    (wasAutoRotatingBeforeInteraction s) (isMouseDown s) (isDragging s) x
    (initialPosition s) (initialRadius s) (initialHeight s) (toggleText s)
    (toggleUserInteracting s) (timers s) (nextTimer s) (frames s).
Definition set_toggleText (x : ButtonText) (s : Animator) : Animator :=
  mkAnimator (camera s) (controls s) (target s) (isAutoRotating s)
    (rotationSpeed s) (radius s) (height s) (initialAngle s) (currentAngle s)
    (userInteracting s) (interactionTimeout s) (resumeDelay s)
    (wasAutoRotatingBeforeInteraction s) (isMouseDown s) (isDragging s)
    (lastTime s) (initialPosition s) (initialRadius s) (initialHeight s) x
    (toggleUserInteracting s) (timers s) (nextTimer s) (frames s).
Definition set_toggleUserInteracting (x : bool) (s : Animator) : Animator :=
  mkAnimator (camera s) (controls s) (target s) (isAutoRotating s)
    (rotationSpeed s) (radius s) (height s) (initialAngle s) (currentAngle s)
    (userInteracting s) (interactionTimeout s) (resumeDelay s)
    (wasAutoRotatingBeforeInteraction s) (isMouseDown s) (isDragging s)
    (lastTime s) (initialPosition s) (initialRadius s) (initialHeight s)
    (toggleText s) x (timers s) (nextTimer s) (frames s).
Definition set_timers (x : list Timer) (s : Animator) : Animator :=
  mkAnimator (camera s) (controls s) (target s) (isAutoRotating s)
    (rotationSpeed s) (radius s) (height s) (initialAngle s) (currentAngle s)
    (userInteracting s) (interactionTimeout s) (resumeDelay s)
    (wasAutoRotatingBeforeInteraction s) (isMouseDown s) (isDragging s)
    (lastTime s) (initialPosition s) (initialRadius s) (initialHeight s)
    (toggleText s) (toggleUserInteracting s) x (nextTimer s) (frames s).
Definition set_nextTimer (x : nat) (s : Animator) : Animator :=
  mkAnimator (camera s) (controls s) (target s) (isAutoRotating s)
    (rotationSpeed s) (radius s) (height s) (initialAngle s) (currentAngle s)
    (userInteracting s) (interactionTimeout s) (resumeDelay s)
    (wasAutoRotatingBeforeInteraction s) (isMouseDown s) (isDragging s)
    (lastTime s) (initialPosition s) (initialRadius s) (initialHeight s)
    (toggleText s) (toggleUserInteracting s) (timers s) x (frames s).
Definition set_frames (x : list Animation) (s : Animator) : Animator :=
  mkAnimator (camera s) (controls s) (target s) (isAutoRotating s)
    (rotationSpeed s) (radius s) (height s) (initialAngle s) (currentAngle s)
    (userInteracting s) (interactionTimeout s) (resumeDelay s)
    (wasAutoRotatingBeforeInteraction s) (isMouseDown s) (isDragging s)
    (lastTime s) (initialPosition s) (initialRadius s) (initialHeight s)
    (toggleText s) (toggleUserInteracting s) (timers s) (nextTimer s) x.

(** ** Timers *)

Definition setTimeout (cb : Callback) (delay : R) (s : Animator) : Animator * nat :=
  (set_nextTimer (S (nextTimer s))
     (set_timers (timers s ++ [mkTimer (nextTimer s) delay cb]) s),
   nextTimer s).

Definition clearTimeout (id : nat) (s : Animator) : Animator :=
  set_timers (filter (λ t, timerId t ≠ id) (timers s)) s.

(** [if (this.interactionTimeout) { clearTimeout(this.interactionTimeout);
    this.interactionTimeout = null; }] *)
Definition clearInteractionTimeout (s : Animator) : Animator :=
  match interactionTimeout s with
  | Some id => set_interactionTimeout None (clearTimeout id s)
  | None => s
  end.

(** ** Construction *)

Definition calculateInitialAngle (cam : Camera) (target : Vector3) : R :=
  let dx := vx (position cam) - vx target in
  let dz := vz (position cam) - vz target in
  atan2 dz dx.

Definition storeInitialState (s : Animator) : Animator :=
  let initialRadius := distanceTo (position (camera s)) (target s) in
  let initialHeight := vy (position (camera s)) in
  set_height initialHeight
    (set_radius initialRadius
       (mkAnimator (camera s) (controls s) (target s) (isAutoRotating s)
          (rotationSpeed s) (radius s) (height s) (initialAngle s)
          (currentAngle s) (userInteracting s) (interactionTimeout s)
          (resumeDelay s) (wasAutoRotatingBeforeInteraction s) (isMouseDown s)
          (isDragging s) (lastTime s) (position (camera s)) initialRadius
          initialHeight (toggleText s) (toggleUserInteracting s) (timers s)
          (nextTimer s) (frames s))).

(** [new CameraAnimator(camera, controls, target)].  The fields that
    [storeInitialState] writes are not set before it runs. *)
Definition construct (cam : Camera) (ctl : Controls) (target : Vector3) : Animator :=
  let initialAngle := calculateInitialAngle cam target in
  storeInitialState
    (mkAnimator cam ctl target true 30 7 3 initialAngle initialAngle
       false None 3000 false false false 0
       (position cam) 0 0 InitialText false [] 1 []).

(** ** Handlers *)

Definition updateCurrentAngle (s : Animator) : Animator :=
  let dx := vx (position (camera s)) - vx (target s) in
  let dz := vz (position (camera s)) - vz (target s) in
  set_height (vy (position (camera s)))
    (set_radius (sqrt (dx * dx + dz * dz))
       (set_currentAngle (atan2 dz dx) s)).

Definition onMouseDown (button : nat) (s : Animator) : Animator :=
  if decide (button ≠ 0%nat) then s
  else
    let s := set_isDragging false (set_isMouseDown true s) in
    if isAutoRotating s then
      let s := set_wasAutoRotatingBeforeInteraction true s in
      let s := set_isAutoRotating false s in
      let s := set_userInteracting true s in
      let s := clearInteractionTimeout s in
      let s := set_controls (set_enabled true (controls s)) s in
      set_toggleUserInteracting true (set_toggleText ResumeRotation s)
    else s.

Definition onMouseMove (s : Animator) : Animator :=
  if isMouseDown s then clearInteractionTimeout (set_isDragging true s) else s.

(** The callback that [onMouseUp] hands to [setTimeout]. *)
Definition resumeAfterMouseUp (s : Animator) : Animator :=
  let s := set_userInteracting false s in
  let s := set_isDragging false s in
  let s := set_isAutoRotating true s in
  let s := updateCurrentAngle s in
  set_toggleUserInteracting false (set_toggleText PauseRotation s).

Definition onMouseUp (button : nat) (s : Animator) : Animator :=
  if decide (button ≠ 0%nat) then s
  else
    let s := set_isMouseDown false s in
    if userInteracting s && wasAutoRotatingBeforeInteraction s then
      let '(s, id) := setTimeout ResumeAfterMouseUp (resumeDelay s) s in
      set_interactionTimeout (Some id) s
    else s.

Definition onMouseLeave (s : Animator) : Animator :=
  if isMouseDown s then onMouseUp 0 s else s.

Definition onUserInteractionStart (s : Animator) : Animator :=
  if negb (isAutoRotating s) then s
  else
    let s := set_userInteracting true s in
    let s := clearInteractionTimeout s in
    let s := set_wasAutoRotatingBeforeInteraction (isAutoRotating s) s in
    let s := set_isAutoRotating false s in
    let s := updateCurrentAngle s in
    let s := set_controls (set_enabled true (controls s)) s in
    set_toggleUserInteracting true (set_toggleText ResumeRotation s).

(** The callback that [onUserInteractionEnd] hands to [setTimeout]. *)
Definition resumeAfterInteractionEnd (s : Animator) : Animator :=
  let s := set_userInteracting false s in
  if wasAutoRotatingBeforeInteraction s then
    let s := set_isAutoRotating true s in
    let s := updateCurrentAngle s in
    set_toggleUserInteracting false (set_toggleText PauseRotation s)
  else s.

Definition onUserInteractionEnd (s : Animator) : Animator :=
  if negb (userInteracting s) then s
  else
    let '(s, id) := setTimeout ResumeAfterInteractionEnd (resumeDelay s) s in
    set_interactionTimeout (Some id) s.

Definition onUserInteractionChange (s : Animator) : Animator :=
  let s := if userInteracting s then clearInteractionTimeout s else s in
  if userInteracting s then updateCurrentAngle s else s.

Definition pauseAutoRotation (s : Animator) : Animator :=
  let s := set_isAutoRotating false s in
  let s := updateCurrentAngle s in
  let s := set_controls (set_enabled true (controls s)) s in
  set_toggleUserInteracting false s.

Definition resumeAutoRotation (s : Animator) : Animator :=
  updateCurrentAngle (set_isAutoRotating true s).

Definition toggleAutoRotation (s : Animator) : Animator :=
  let s := clearInteractionTimeout s in
  let s := set_userInteracting false s in
  let s := if isAutoRotating s
           then set_toggleText ResumeRotation (pauseAutoRotation s)
           else set_toggleText PauseRotation (resumeAutoRotation s) in
  set_wasAutoRotatingBeforeInteraction (isAutoRotating s) s.

(** A timer comes due: the browser drops it and runs its callback.  An id
    that is not pending does nothing. *)
Definition runCallback (cb : Callback) (s : Animator) : Animator :=
  match cb with
  | ResumeAfterMouseUp => resumeAfterMouseUp s
  | ResumeAfterInteractionEnd => resumeAfterInteractionEnd s
  end.

Definition fireTimer (id : nat) (s : Animator) : Animator :=
  match list_find (λ t, timerId t = id) (timers s) with
  | Some (_, t) => runCallback (timerCallback t) (clearTimeout id s)
  | None => s
  end.

(** ** [controls.update()] called by the animator *)

(** The library moves the camera and, when it dispatches [change], the
    listener [onUserInteractionChange] runs before [update] returns. *)
Definition controlsUpdate (s : Animator) : Animator :=
  let '(o, t, cam, changed) :=
    orbit_update (orbit (controls s)) (controlsTarget (controls s)) (camera s) in
  let s := set_camera cam (set_controls (mkControls (enabled (controls s)) t o) s) in
  if changed then onUserInteractionChange s else s.

(** ** The reset animation *)

Definition easeOut (progress : R) : R := 1 - (1 - progress) ^ 3.

Definition runCompletion (c : Completion) (s : Animator) : Animator :=
  match c with
  | ResetComplete =>
      let s := set_currentAngle (initialAngle s) s in
      let s := set_radius (initialRadius s) s in
      let s := set_height (initialHeight s) s in
      let s := set_controls (set_controlsTarget (target s) (controls s)) s in
      controlsUpdate s
  end.

(** One run of the closure [animate] at time [now] ([Date.now()]). *)
Definition animate (a : Animation) (now : R) (s : Animator) : Animator :=
  let elapsed := now - startTime a in
  let progress := Rmin (elapsed / 1000) 1 in
  let cam := set_position
               (lerpVectors (startPosition a) (targetPosition a) (easeOut progress))
               (camera s) in
  let s := set_camera (lookAt (target s) cam) s in
  if Rlt_dec progress 1 then set_frames (frames s ++ [a]) s
  else match onComplete a with
       | Some c => runCompletion c s
       | None => s
       end.

(** [animateToPosition]: [startTime] and [now] are the two readings of
    [Date.now()], at the call and in the first run of [animate]. *)
Definition animateToPosition (targetPosition : Vector3)
    (onComplete : option Completion) (startTime now : R) (s : Animator) : Animator :=
  animate (mkAnimation (position (camera s)) targetPosition startTime onComplete) now s.

Definition resetCamera (startTime now : R) (s : Animator) : Animator :=
  animateToPosition (initialPosition s) (Some ResetComplete) startTime now s.

(** The browser runs the oldest queued animation callback. *)
Definition animationFrame (now : R) (s : Animator) : Animator :=
  match frames s with
  | a :: rest => animate a now (set_frames rest s)
  | [] => s
  end.

(** ** [update(deltaTime)], with [now] the reading of [performance.now()] *)

Definition autoRotating (s : Animator) : bool :=
  isAutoRotating s && negb (userInteracting s) && negb (isMouseDown s).

Definition orbitPoint (s : Animator) : Vector3 :=
  mkVector3 (vx (target s) + cos (currentAngle s) * radius s)
            (height s)
            (vz (target s) + sin (currentAngle s) * radius s).

Definition update (now deltaTime : R) (s : Animator) : Animator :=
  if autoRotating s then
    let s := set_controls (set_enabled false (controls s)) s in
    let rotationRadians := (rotationSpeed s * PI / 180) * (deltaTime / 1000) in
    let s := set_currentAngle (currentAngle s + rotationRadians) s in
    let s := set_camera (lookAt (target s) (set_position (orbitPoint s) (camera s))) s in
    set_lastTime (if Rgt_dec (now - lastTime s) 2000 then now else lastTime s) s
  else
    controlsUpdate (set_controls (set_enabled true (controls s)) s).

(** A run of [update] over frames [(now, deltaTime)], the time they add
    up to, and the time of one turn, in milliseconds. *)
Definition runFrames (fs : list (R * R)) (s : Animator) : Animator :=
  foldl (λ s f, update f.1 f.2 s) s fs.

Definition totalTime (fs : list (R * R)) : R :=
  foldr (λ f acc, f.2 + acc) 0 fs.

Definition rotationPeriod (s : Animator) : R := 360 / rotationSpeed s * 1000.

Definition setRotationSpeed (speed : R) (s : Animator) : Animator :=
  set_rotationSpeed speed s.
Definition setRadius (radius : R) (s : Animator) : Animator := set_radius radius s.
Definition setHeight (height : R) (s : Animator) : Animator := set_height height s.

(** What the constructor stores and nothing writes afterwards. *)
Definition stored (s : Animator) : Vector3 * R * R * R * Vector3 * R :=
  (initialPosition s, initialAngle s, initialRadius s, initialHeight s,
   target s, resumeDelay s).

(** Auto-rotation is off by the toggle button and nothing is pending. *)
Definition manuallyOff (s : Animator) : Prop :=
  isAutoRotating s = false ∧ userInteracting s = false
  ∧ wasAutoRotatingBeforeInteraction s = false ∧ timers s = [].

(** ** Events *)

(** Each event is one entry into the animator: a DOM or controls listener,
    a button, a timer coming due, an animation frame of a reset, a call of
    [update] from the render loop.  [CameraMoved] is the orbit controls
    writing the shared camera outside the animator. *)
Inductive Event :=
| MouseDown (button : nat)
| MouseMove
| MouseUp (button : nat)
| MouseLeave
| ControlsStart
| ControlsEnd
| ControlsChange
| ToggleClick
| ResetClick (startTime now : R)
| ResetFrame (now : R)
| Update (now deltaTime : R)
| TimerFires (id : nat)
| CameraMoved (cam : Camera).

Definition handle (e : Event) (s : Animator) : Animator :=
  match e with
  | MouseDown button => onMouseDown button s
  | MouseMove => onMouseMove s
  | MouseUp button => onMouseUp button s
  | MouseLeave => onMouseLeave s
  | ControlsStart => onUserInteractionStart s
  | ControlsEnd => onUserInteractionEnd s
  | ControlsChange => onUserInteractionChange s
  | ToggleClick => toggleAutoRotation s
  | ResetClick startTime now => resetCamera startTime now s
  | ResetFrame now => animationFrame now s
  | Update now deltaTime => update now deltaTime s
  | TimerFires id => fireTimer id s
  | CameraMoved cam => set_camera cam s
  end.

Definition run (es : list Event) (s : Animator) : Animator :=
  foldl (λ s e, handle e s) s es.

Definition is_toggle (e : Event) : bool :=
  match e with ToggleClick => true | _ => false end.

End WithOrbitControls.

Arguments Controls : clear implicits.
Arguments Animator : clear implicits.

(** ** The viewer's animator, to evaluate on *)

(** Orbit controls that leave the camera where it is and dispatch nothing. *)
Definition stillOrbit (o : unit) (t : Vector3) (c : Camera)
  : unit * Vector3 * Camera * bool := (o, t, c, false).

(** [setupCamera]: the camera at (5, 3, 5) looking at the origin;
    [setupControls]: the controls around (0, 1, 0). *)
Definition viewerCamera : Camera :=
  mkCamera (mkVector3 5 3 5) (mkVector3 5 3 5, mkVector3 0 0 0).

Definition viewerControls : Controls unit := mkControls true (mkVector3 0 1 0) tt.

(** [new CameraAnimator(camera, controls)] with the default target. *)
Definition viewerAnimator : Animator unit :=
  construct viewerCamera viewerControls (mkVector3 0 1 0).

(** Two clicks on the canvas within the resume delay, then the toggle
    button, with render-loop frames in between: the first [mouseup] arms
    timer 1; the second press goes to the orbit controls as well, whose
    [end] arms timer 2 and whose [mouseup] arms timer 3, each over the
    handle of the one before; the toggle clears timer 3 and turns
    auto-rotation back on. *)
Definition twoClicksThenToggle : list Event :=
  [Update 16 16;
   MouseDown 0; Update 32 16; MouseUp 0; Update 48 16;
   ControlsStart; MouseDown 0; Update 64 16; ControlsEnd; MouseUp 0;
   Update 80 16;
   ToggleClick; Update 96 16].

Definition pendingIds {Orbit : Type} (s : Animator Orbit) : list nat :=
  timerId <$> timers s.


(** ** Interaction cycles *)

(** Every pending timer is the one [interactionTimeout] holds. *)
Definition noStaleTimer {Orbit : Type} (s : Animator Orbit) : Prop :=
  ∀ t, t ∈ timers s → interactionTimeout s = Some (timerId t).



(** ** Progress of the reset animation *)

(** [easeOut] of [progress = Math.min(elapsed / duration, 1)] in [animate],
    for an animation started at [startTime] and a frame at [now]. *)
Definition easedProgress (startTime now : R) : R :=
  easeOut (Rmin ((now - startTime) / 1000) 1).

(** ** [getState] *)

Record State := mkState {
  state_isAutoRotating : bool;
  state_angle : R;
  state_angleDegrees : R;
  state_radius : R;
  state_height : R;
  state_userInteracting : bool;
  state_isMouseDown : bool;
  state_isDragging : bool;
  state_target : Vector3
}.

Definition getState {Orbit : Type} (s : Animator Orbit) : State :=
  mkState (isAutoRotating s) (currentAngle s) (currentAngle s * 180 / PI)
    (radius s) (height s) (userInteracting s) (isMouseDown s) (isDragging s)
    (target s).

(** ** A drag, its release and a reset *)

(** Orbit controls whose [update()] keeps the camera and dispatches
    [change], as [OrbitControls] does when the camera has moved since its
    last update. *)
Definition changingOrbit (o : unit) (t : Vector3) (c : Camera)
  : unit * Vector3 * Camera * bool := (o, t, c, true).

(** A drag from the viewer's start: the press, the controls moving the
    camera, a frame, the release. *)
Definition draggedCamera : Camera :=
  mkCamera (mkVector3 7 4 1) (mkVector3 7 4 1, mkVector3 0 1 0).

Definition dragAndRelease : list Event :=
  [MouseDown 0; CameraMoved draggedCamera; Update 16 16; MouseUp 0].

(** A click on the reset button right after, a frame of the animation
    half-way, a frame of the render loop. *)
Definition resetHalfWay : list Event :=
  [ResetClick 32 32; ResetFrame 532; Update 548 16].
End Camera.
(** * createProduct.js *)

Module Product.

Import PrimFloat.

Set Warnings "-inexact-float".

(** Coordinates of [mesh.position] are the doubles the source writes:
    the loop of [createBackrest] counts in them, and its number of rounds
    depends on their rounding. *)
Record Position := mkPosition { px : float; py : float; pz : float }.

(** A mesh of the chair, as the builder makes it: [userData.name],
    [userData.partType], the position, the shadow flags and the material it
    points to (an address in the material heap, as in [Interaction]). *)
Record Part := mkPart {
  name : string;
  partType : string;
  position : Position;
  castShadow : bool;
  receiveShadow : bool;
  material : nat
}.

Definition set_material (r : nat) (p : Part) : Part :=
  mkPart (name p) (partType p) (position p) (castShadow p) (receiveShadow p) r.

(** [this.materials]: the addresses of the three shared materials. *)
Record Materials := mkMaterials { wood : nat; cushion : nat; metal : nat }.

(** The fields of [ProductCreator] with the material heap; the children
    of [productGroup] are the meshes of [productParts], in the same order.
    [groupY] is [productGroup.position.y], [originalY] and [floating] are
    the two entries of [productGroup.userData]. *)
Record Creator := mkCreator {
  heap : list Interaction.Material;
  materials : Materials;
  productParts : list Part;
  groupY : R;
  originalY : option R;
  floating : bool
}.

Definition set_heap (h : list Interaction.Material) (c : Creator) : Creator :=
  mkCreator h (materials c) (productParts c) (groupY c) (originalY c) (floating c).
Definition set_productParts (ps : list Part) (c : Creator) : Creator :=
  mkCreator (heap c) (materials c) ps (groupY c) (originalY c) (floating c).
Definition set_groupY (y : R) (c : Creator) : Creator :=
  mkCreator (heap c) (materials c) (productParts c) y (originalY c) (floating c).

(** [this.productGroup.add(mesh); this.productParts.push(mesh)] *)
Definition push (p : Part) (c : Creator) : Creator :=
  set_productParts (productParts c ++ [p]) c.

(** [createMaterials]: three new materials, in the order of the object
    literal. *)
Definition createMaterials (h : list Interaction.Material)
  : list Interaction.Material * Materials :=
  (h ++ [Interaction.wood; Interaction.cushion; Interaction.metal],
   mkMaterials (length h) (S (length h)) (S (S (length h)))).

Definition createSeat (c : Creator) : Creator :=
  push (mkPart "Chair Seat" "seat" (mkPosition 0 1 0) true true
          (cushion (materials c))) c.

(** The mesh of one round of the loop of [createBackrest]. *)
Definition supportBar (i : float) (c : Creator) : Part :=
  mkPart "Backrest Support" "support" (mkPosition i 1.75 (-0.8)) true false
    (wood (materials c)).

(** [for (let i = ...; i <= 0.6; i += 0.4) { ... }] from the value [i] on,
    for at most [fuel] rounds: [None] when the rounds do not suffice. *)
Fixpoint supportBars (fuel : nat) (i : float) (c : Creator) : option Creator :=
  match fuel with
  | O => if (i <=? 0.6)%float then None else Some c
  | S fuel' =>
      if (i <=? 0.6)%float
      then supportBars fuel' (i + 0.4)%float (push (supportBar i c) c)
      else Some c
  end.

Definition createBackrest (c : Creator) : option Creator :=
  let c := push (mkPart "Chair Backrest" "backrest" (mkPosition 0 2 (-0.9))
                   true true (wood (materials c))) c in
  supportBars 8 (-0.6)%float c.

Definition legPositions : list Position :=
  [mkPosition (-0.8) 0.5 (-0.8); mkPosition 0.8 0.5 (-0.8);
   mkPosition (-0.8) 0.5 0.8; mkPosition 0.8 0.5 0.8].

Definition createLeg (c : Creator) (entry : nat * Position) : Creator :=
  let '(index, position) := entry in
  push (mkPart ("Chair Leg " +:+ pretty (index + 1)%nat) "leg" position
          true true (wood (materials c))) c.

Definition createLegs (c : Creator) : Creator :=
  foldl createLeg c (imap pair legPositions).

Definition armPositions : list Position :=
  [mkPosition (-1.2) 1.4 0; mkPosition 1.2 1.4 0].

Definition side (index : nat) : string :=
  if decide (index = 0%nat) then "Left" else "Right".

Definition createArmrest (c : Creator) (entry : nat * Position) : Creator :=
  let '(index, position) := entry in
  let c := push (mkPart (side index +:+ " Armrest") "armrest" position
                   true true (wood (materials c))) c in
  push (mkPart (side index +:+ " Armrest Support") "support"
          (mkPosition (px position) 1.0 (pz position)) true false
          (wood (materials c))) c.

Definition createArmrests (c : Creator) : Creator :=
  foldl createArmrest c (imap pair armPositions).

(** [createChair]; the last statement puts the group at the origin. *)
Definition createChair (c : Creator) : option Creator :=
  c ← createBackrest (createSeat c);
  Some (set_groupY 0 (createArmrests (createLegs c))).

(** [new ProductCreator(scene)] over the material heap [h]. *)
Definition construct (h : list Interaction.Material) : option Creator :=
  let '(h, ms) := createMaterials h in
  createChair (mkCreator h ms [] 0 None false).

Definition getInteractiveParts (c : Creator) : list Part := productParts c.

(** ** The floating animation *)

Definition addFloatingAnimation (c : Creator) : Creator :=
  mkCreator (heap c) (materials c) (productParts c) (groupY c)
    (Some (groupY c)) true.

(** [originalY || 0] is [0] for a missing [originalY], and for [0]. *)
Definition updateFloating (time : R) (c : Creator) : Creator :=
  if floating c then
    let originalY := default 0%R (originalY c) in
    set_groupY (originalY + sin (time * 0.001) * 0.1)%R c
  else c.

(** ** Highlighting *)

(** [highlightPart(part, highlight)] on the mesh at index [part] of
    [productParts].  Meshes have no [classList], so the calls behind [?.]
    do nothing. *)
Definition highlightPart (part : nat) (highlight : bool) (c : Creator)
  : option Creator :=
  p ← productParts c !! part;
  if highlight then
    '(h, r) ← Interaction.clone (heap c) (material p);
    let h := alter (λ m, Interaction.tint 0x444444 (Interaction.emissiveIntensity m) m)
               r h in
    Some (set_productParts (<[part := set_material r p]> (productParts c))
            (set_heap h c))
  else
    let r := if decide (partType p = "seat") then cushion (materials c)
             else wood (materials c) in
    Some (set_productParts (<[part := set_material r p]> (productParts c)) c).

(** Calls from outside, in any order. *)
Inductive Call :=
| HighlightPart (part : nat) (highlight : bool)
| UpdateFloating (time : R)
| AddFloatingAnimation.

Definition call (e : Call) (c : Creator) : option Creator :=
  match e with
  | HighlightPart part highlight => highlightPart part highlight c
  | UpdateFloating time => Some (updateFloating time c)
  | AddFloatingAnimation => Some (addFloatingAnimation c)
  end.

Fixpoint calls (es : list Call) (c : Creator) : option Creator :=
  match es with
  | [] => Some c
  | e :: es' => c' ← call e c; calls es' c'
  end.

(** ** What the interaction manager is given *)

(** The mesh as [InteractionManager] sees it: a new mesh has scale
    (1, 1, 1) and, of the [userData] it reads, only the name. *)
Definition asMesh (p : Part) : Interaction.Mesh :=
  Interaction.newMesh (name p) (material p).

(** [new InteractionManager(camera, scene, canvas,
    productCreator.getInteractiveParts())] over a page whose info panel is
    [hidden] and shows [text]. *)
Definition scene (c : Creator) (hidden : bool) (text : string) : Interaction.Scene :=
  Interaction.mkScene (heap c) (asMesh <$> getInteractiveParts c) hidden text.

(** The chair: the builder on an empty heap. *)
Definition chair : Creator :=
  mkCreator [Interaction.wood; Interaction.cushion; Interaction.metal]
    (mkMaterials 0 1 2)
    [mkPart "Chair Seat" "seat" (mkPosition 0 1 0) true true 1;
     mkPart "Chair Backrest" "backrest" (mkPosition 0 2 (-0.9)) true true 0;
     mkPart "Backrest Support" "support" (mkPosition (-0.6) 1.75 (-0.8)) true false 0;
     mkPart "Backrest Support" "support" (mkPosition (-0.6 + 0.4) 1.75 (-0.8)) true false 0;
     mkPart "Backrest Support" "support" (mkPosition (-0.6 + 0.4 + 0.4) 1.75 (-0.8)) true false 0;
     mkPart "Chair Leg 1" "leg" (mkPosition (-0.8) 0.5 (-0.8)) true true 0;
     mkPart "Chair Leg 2" "leg" (mkPosition 0.8 0.5 (-0.8)) true true 0;
     mkPart "Chair Leg 3" "leg" (mkPosition (-0.8) 0.5 0.8) true true 0;
     mkPart "Chair Leg 4" "leg" (mkPosition 0.8 0.5 0.8) true true 0;
     mkPart "Left Armrest" "armrest" (mkPosition (-1.2) 1.4 0) true true 0;
     mkPart "Left Armrest Support" "support" (mkPosition (-1.2) 1.0 0) true false 0;
     mkPart "Right Armrest" "armrest" (mkPosition 1.2 1.4 0) true true 0;
     mkPart "Right Armrest Support" "support" (mkPosition 1.2 1.0 0) true false 0]
    0 None false.

(** What the calls keep: the three shared materials at their addresses,
    and of each mesh everything but the material it points to, which
    exists. *)
Definition Built (c : Creator) : Prop :=
  heap chair `prefix_of` heap c
  ∧ materials c = materials chair
  ∧ length (productParts c) = length (productParts chair)
  ∧ ∀ i p0 p, productParts chair !! i = Some p0 → productParts c !! i = Some p →
      set_material (material p0) p = p0 ∧ material p < length (heap c).

(** The material that [highlightPart(part, false)] picks by [partType]. *)
Definition materialOfType (p : Part) : nat :=
  if decide (partType p = "seat") then cushion (materials chair)
  else wood (materials chair).

Definition is_add (e : Call) : bool :=
  match e with AddFloatingAnimation => true | _ => false end.

End Product.
(** * Listeners *)

(** Registration of listeners, on elements of the page and on the orbit
    controls (an [EventDispatcher]): a listener is removed by naming the
    function object it was added with. *)
Module Dom.

Inductive Target :=
| Canvas | CloseInfoButton | ToggleButton | ResetButton | OrbitControls.

(** The methods of the two managers that listeners end up in. *)
Inductive Method :=
| InteractionOnMouseMove | InteractionOnMouseClick
| InteractionHidePartInfo | InteractionClearHover
| CameraToggleAutoRotation | CameraResetCamera
| CameraOnUserInteractionStart | CameraOnUserInteractionEnd
| CameraOnUserInteractionChange
| CameraOnMouseDown | CameraOnMouseMove | CameraOnMouseUp | CameraOnMouseLeave.

(** A function object: an arrow function made at run time, the [id]-th
    function object of the page, whose body calls a method of its manager;
    or the method itself, as [this.onMouseMove] finds it on the prototype. *)
Inductive Fn :=
| Arrow (id : nat) (calls : Method)
| Prototype (method : Method).

Record Listener := mkListener {
  target : Target;
  type : string;
  callback : Fn
}.

#[global] Instance Target_eq_dec : EqDecision Target.
Proof. solve_decision. Defined.
#[global] Instance Method_eq_dec : EqDecision Method.
Proof. solve_decision. Defined.
#[global] Instance Fn_eq_dec : EqDecision Fn.
Proof. solve_decision. Defined.
#[global] Instance Listener_eq_dec : EqDecision Listener.
Proof. solve_decision. Defined.

(** The listeners in order of registration, and the number of function
    objects made so far. *)
Record Page := mkPage {
  listeners : list Listener;
  nextFunction : nat
}.

(** Evaluating an arrow function expression makes a new function object. *)
Definition arrow (calls : Method) (p : Page) : Fn * Page :=
  (Arrow (nextFunction p) calls, mkPage (listeners p) (S (nextFunction p))).

(** Adding a listener that is already there does nothing. *)
Definition addEventListener (target : Target) (type : string) (callback : Fn)
    (p : Page) : Page :=
  if decide (mkListener target type callback ∈ listeners p) then p
  else mkPage (listeners p ++ [mkListener target type callback]) (nextFunction p).

Definition removeEventListener (target : Target) (type : string) (callback : Fn)
    (p : Page) : Page :=
  mkPage (filter (λ l, l ≠ mkListener target type callback) (listeners p))
    (nextFunction p).

(** The functions called when [type] is dispatched on [target], in order. *)
Definition dispatch (on : Target) (event : string) (p : Page) : list Fn :=
  callback <$> filter (λ l, target l = on ∧ type l = event) (listeners p).

(** Every listener of the page is an arrow function of the page. *)
Definition arrowsOnly (p : Page) : Prop :=
  ∀ l, l ∈ listeners p →
    ∃ id calls, callback l = Arrow id calls ∧ id < nextFunction p.

End Dom.

(** ** The listeners of [InteractionManager] *)

Module InteractionListeners.
Import Dom.

Definition setupEventListeners (p : Page) : Page :=
  let '(f, p) := arrow InteractionOnMouseMove p in
  let p := addEventListener Canvas "mousemove" f p in
  let '(f, p) := arrow InteractionOnMouseClick p in
  let p := addEventListener Canvas "click" f p in
  let '(f, p) := arrow InteractionHidePartInfo p in
  let p := addEventListener CloseInfoButton "click" f p in
  let '(f, p) := arrow InteractionClearHover p in
  addEventListener Canvas "mouseleave" f p.

(** [destroy] names the methods, not the arrow functions. *)
Definition destroy (p : Page) : Page :=
  let p := removeEventListener Canvas "mousemove" (Prototype InteractionOnMouseMove) p in
  let p := removeEventListener Canvas "click" (Prototype InteractionOnMouseClick) p in
  let p := removeEventListener Canvas "mouseleave" (Prototype InteractionClearHover) p in
  removeEventListener CloseInfoButton "click" (Prototype InteractionHidePartInfo) p.

(** The four listeners that [setupEventListeners] adds when the page has
    made [n] function objects before. *)
Definition added (n : nat) : list Listener :=
  [mkListener Canvas "mousemove" (Arrow n InteractionOnMouseMove);
   mkListener Canvas "click" (Arrow (n + 1) InteractionOnMouseClick);
   mkListener CloseInfoButton "click" (Arrow (n + 2) InteractionHidePartInfo);
   mkListener Canvas "mouseleave" (Arrow (n + 3) InteractionClearHover)].

End InteractionListeners.

(** ** The listeners of [CameraAnimator] *)

Module CameraListeners.
Import Dom.

(** The fields in which the animator keeps its arrow functions. *)
Record Bound := mkBound {
  boundToggleRotation : Fn;
  boundResetCamera : Fn;
  boundInteractionStart : Fn;
  boundInteractionEnd : Fn;
  boundInteractionChange : Fn;
  boundMouseDown : Fn;
  boundMouseMove : Fn;
  boundMouseUp : Fn;
  boundMouseLeave : Fn
}.

Definition setupEventListeners (p : Page) : Fn * Fn * Page :=
  let '(toggle, p) := arrow CameraToggleAutoRotation p in
  let '(reset, p) := arrow CameraResetCamera p in
  let p := addEventListener ToggleButton "click" toggle p in
  let p := addEventListener ResetButton "click" reset p in
  (toggle, reset, p).

Definition setupControlsListeners (p : Page) : Fn * Fn * Fn * Page :=
  let '(start, p) := arrow CameraOnUserInteractionStart p in
  let '(stop, p) := arrow CameraOnUserInteractionEnd p in
  let '(change, p) := arrow CameraOnUserInteractionChange p in
  let p := addEventListener OrbitControls "start" start p in
  let p := addEventListener OrbitControls "end" stop p in
  let p := addEventListener OrbitControls "change" change p in
  (start, stop, change, p).

(** [controls.domElement] is the canvas. *)
Definition setupMouseListeners (p : Page) : Fn * Fn * Fn * Fn * Page :=
  let '(down, p) := arrow CameraOnMouseDown p in
  let '(move, p) := arrow CameraOnMouseMove p in
  let '(up, p) := arrow CameraOnMouseUp p in
  let '(leave, p) := arrow CameraOnMouseLeave p in
  let p := addEventListener Canvas "mousedown" down p in
  let p := addEventListener Canvas "mousemove" move p in
  let p := addEventListener Canvas "mouseup" up p in
  let p := addEventListener Canvas "mouseleave" leave p in
  (down, move, up, leave, p).

(** The three calls of the constructor. *)
Definition setup (p : Page) : Bound * Page :=
  let '(toggle, reset, p) := setupEventListeners p in
  let '(start, stop, change, p) := setupControlsListeners p in
  let '(down, move, up, leave, p) := setupMouseListeners p in
  (mkBound toggle reset start stop change down move up leave, p).

(** [destroy]: the pending timer of [interactionTimeout] is cleared (the
    field keeps its value), then the nine listeners are removed by the
    function objects kept in the fields. *)
Definition destroy {Orbit : Type} (b : Bound) (s : Camera.Animator Orbit) (p : Page)
  : Camera.Animator Orbit * Page :=
  let s := match Camera.interactionTimeout s with
           | Some id => Camera.clearTimeout id s
           | None => s
           end in
  let p := removeEventListener ToggleButton "click" (boundToggleRotation b) p in
  let p := removeEventListener ResetButton "click" (boundResetCamera b) p in
  let p := removeEventListener OrbitControls "start" (boundInteractionStart b) p in
  let p := removeEventListener OrbitControls "end" (boundInteractionEnd b) p in
  let p := removeEventListener OrbitControls "change" (boundInteractionChange b) p in
  let p := removeEventListener Canvas "mousedown" (boundMouseDown b) p in
  let p := removeEventListener Canvas "mousemove" (boundMouseMove b) p in
  let p := removeEventListener Canvas "mouseup" (boundMouseUp b) p in
  let p := removeEventListener Canvas "mouseleave" (boundMouseLeave b) p in
  (s, p).

(** The nine listeners that the constructor adds when the page has made
    [n] function objects before. *)
Definition added (n : nat) : list Listener :=
  [mkListener ToggleButton "click" (Arrow n CameraToggleAutoRotation);
   mkListener ResetButton "click" (Arrow (n + 1) CameraResetCamera);
   mkListener OrbitControls "start" (Arrow (n + 2) CameraOnUserInteractionStart);
   mkListener OrbitControls "end" (Arrow (n + 3) CameraOnUserInteractionEnd);
   mkListener OrbitControls "change" (Arrow (n + 4) CameraOnUserInteractionChange);
   mkListener Canvas "mousedown" (Arrow (n + 5) CameraOnMouseDown);
   mkListener Canvas "mousemove" (Arrow (n + 6) CameraOnMouseMove);
   mkListener Canvas "mouseup" (Arrow (n + 7) CameraOnMouseUp);
   mkListener Canvas "mouseleave" (Arrow (n + 8) CameraOnMouseLeave)].

End CameraListeners.
(** * main.js *)

Module App.

Section WithOrbitControls.

Context {Orbit : Type}.
Variable orbit_update :
  Orbit → Vector3 → Camera.Camera → Orbit * Vector3 * Camera.Camera * bool.

(** What one run of [animate] reads from the clocks, in milliseconds:
    [clock.getDelta() * 1000], [clock.getElapsedTime() * 1000], and the
    [performance.now()] of [CameraAnimator.update]. *)
Record Reading := mkReading {
  deltaTime : R;
  elapsedTime : R;
  now : R
}.

(** The modules of [App] once [initializeModules] has run, and the
    animation loop: the flag, the id kept in [animationId], and what the
    browser holds, the requested animation frames that have neither run nor
    been cancelled and the next request id (the browser's ids are
    positive).  The camera
    and the controls of the scene manager are those inside the animator;
    the lights have no state that changes. *)
Record App := mkApp {
  cameraAnimator : Camera.Animator Orbit;
  productCreator : Product.Creator;
  interactionManager : Interaction.Manager;
  bound : CameraListeners.Bound;
  page : Dom.Page;
  animationId : option nat;
  isRunning : bool;
  requested : list nat;
  nextRequest : nat
}.

Definition set_modules (s : Camera.Animator Orbit) (c : Product.Creator)
    (m : Interaction.Manager) (a : App) : App :=
  mkApp s c m (bound a) (page a) (animationId a) (isRunning a) (requested a)
    (nextRequest a).
Definition set_isRunning (b : bool) (a : App) : App :=
  mkApp (cameraAnimator a) (productCreator a) (interactionManager a) (bound a)
    (page a) (animationId a) b (requested a) (nextRequest a).
Definition set_animationId (id : option nat) (a : App) : App :=
  mkApp (cameraAnimator a) (productCreator a) (interactionManager a) (bound a)
    (page a) id (isRunning a) (requested a) (nextRequest a).

Definition requestAnimationFrame (a : App) : App * nat :=
  (mkApp (cameraAnimator a) (productCreator a) (interactionManager a) (bound a)
     (page a) (animationId a) (isRunning a) (requested a ++ [nextRequest a])
     (S (nextRequest a)),
   nextRequest a).

Definition cancelAnimationFrame (id : nat) (a : App) : App :=
  mkApp (cameraAnimator a) (productCreator a) (interactionManager a) (bound a)
    (page a) (animationId a) (isRunning a) (filter (λ i, i ≠ id) (requested a))
    (nextRequest a).

(** Whether the animator's listener for [change] is registered on the
    controls: it is from the constructor of the animator until [destroy]. *)
Definition changeHeard (a : App) : bool :=
  bool_decide (CameraListeners.boundInteractionChange (bound a)
               ∈ Dom.dispatch Dom.OrbitControls "change" (page a)).

(** [controls.update()] when no listener hears [change]. *)
Definition controlsUpdateUnheard (s : Camera.Animator Orbit) : Camera.Animator Orbit :=
  let '(o, t, cam, _) :=
    orbit_update (Camera.orbit (Camera.controls s))
      (Camera.controlsTarget (Camera.controls s)) (Camera.camera s) in
  Camera.set_camera cam
    (Camera.set_controls
       (Camera.mkControls (Camera.enabled (Camera.controls s)) t o) s).

Definition controlsUpdate (heard : bool) (s : Camera.Animator Orbit)
  : Camera.Animator Orbit :=
  if heard then Camera.controlsUpdate orbit_update s else controlsUpdateUnheard s.

(** [cameraAnimator.update(deltaTime)]: the [controls.update()] of its
    manual branch reaches the listener only if it is registered. *)
Definition animatorUpdate (heard : bool) (now deltaTime : R)
    (s : Camera.Animator Orbit) : Camera.Animator Orbit :=
  if heard || Camera.autoRotating s
  then Camera.update orbit_update now deltaTime s
  else controlsUpdateUnheard
         (Camera.set_controls (Camera.set_enabled true (Camera.controls s)) s).

(** [update(deltaTime, elapsedTime)]: the scene manager's
    [controls.update()], then the animator, the floating of the product and
    the pulses; [updateLighting] has an empty body. *)
Definition update (r : Reading) (a : App) : App :=
  let heard := changeHeard a in
  let s := controlsUpdate heard (cameraAnimator a) in
  let s := animatorUpdate heard (now r) (deltaTime r) s in
  let c := Product.updateFloating (elapsedTime r) (productCreator a) in
  let m := Interaction.updatePulseAnimations (deltaTime r) (interactionManager a) in
  set_modules s c m a.

(** [animate]; [render] changes no state. *)
Definition animate (r : Reading) (a : App) : App :=
  if negb (isRunning a) then a
  else
    let '(a, id) := requestAnimationFrame a in
    let a := set_animationId (Some id) a in
    update r a.

Definition start (r : Reading) (a : App) : App :=
  if isRunning a then a else animate r (set_isRunning true a).

Definition stop (a : App) : App :=
  if negb (isRunning a) then a
  else
    let a := set_isRunning false a in
    match animationId a with
    | Some id =>
        if decide (id = 0%nat) then a
        else set_animationId None (cancelAnimationFrame id a)
    | None => a
    end.

(** The browser runs the callback of request [id], if it is still
    requested. *)
Definition frame (id : nat) (r : Reading) (a : App) : App :=
  if decide (id ∈ requested a)
  then animate r
         (mkApp (cameraAnimator a) (productCreator a) (interactionManager a)
            (bound a) (page a) (animationId a) (isRunning a)
            (filter (λ i, i ≠ id) (requested a)) (nextRequest a))
  else a.

Definition destroy (a : App) : App :=
  let a := stop a in
  let p := InteractionListeners.destroy (page a) in
  let '(s, p) := CameraListeners.destroy (bound a) (cameraAnimator a) p in
  mkApp s (productCreator a) (interactionManager a) (bound a) p (animationId a)
    (isRunning a) (requested a) (nextRequest a).

(** [new SceneManager()]: the camera of [setupCamera]; [setupControls]
    sets the target and calls [controls.update()], which no listener hears
    yet.  [o] is the state of the new controls. *)
Definition sceneManager (o : Orbit) : Camera.Camera * Camera.Controls Orbit :=
  let '(o, t, camera, _) := orbit_update o (mkVector3 0 1 0) Camera.viewerCamera in
  (camera, Camera.mkControls true t o).

(** [initializeModules] on a page [p] whose info panel is [hidden] and
    shows [text]; the material heap holds the materials of the product. *)
Definition initializeModules (o : Orbit) (hidden : bool) (text : string)
    (p : Dom.Page) : option App :=
  let '(camera, controls) := sceneManager o in
  creator ← Product.construct [];
  let p := InteractionListeners.setupEventListeners p in
  manager ← Interaction.start (Product.scene creator hidden text);
  let animator := Camera.construct camera controls (mkVector3 0 1 0) in
  let '(b, p) := CameraListeners.setup p in
  Some (mkApp animator (Product.addFloatingAnimation creator) manager b p
          None false [] 1).

(** [init]: the modules, then [start]. *)
Definition init (o : Orbit) (hidden : bool) (text : string) (p : Dom.Page)
    (r : Reading) : option App :=
  a ← initializeModules o hidden text p; Some (start r a).

(** What happens to the loop: [start] and [stop] (also as
    [resumeAnimation] and [pauseAnimation]), a requested frame coming due,
    [destroy]. *)
Inductive Event :=
| Start (r : Reading)
| Stop
| FrameDue (id : nat) (r : Reading)
| Destroy.

Definition handle (e : Event) (a : App) : App :=
  match e with
  | Start r => start r a
  | Stop => stop a
  | FrameDue id r => frame id r a
  | Destroy => destroy a
  end.

Definition run (es : list Event) (a : App) : App :=
  foldl (λ a e, handle e a) a es.

(** One frame is requested while the loop runs, and it is the one in
    [animationId]; none while it does not. *)
Definition oneLoop (a : App) : Prop :=
  requested a = match animationId a with Some id => [id] | None => [] end
  ∧ (isRunning a = true ↔ is_Some (animationId a))
  ∧ 0 < nextRequest a
  ∧ ∀ id, id ∈ requested a → 0 < id < nextRequest a.

End WithOrbitControls.

Arguments App : clear implicits.

End App.
Lemma Vector3_eq (a b : Vector3) :
  vx a = vx b → vy a = vy b → vz a = vz b → a = b.
Proof. destruct a, b; simpl; congruence. Qed.


(** * Facts about interaction.js *)

Module InteractionFacts.
Import Interaction.

(** ** Construction *)

Lemma storeMaterials_from_spec ps : ∀ i h om h' om',
  Forall (λ p, material p < length h) ps →
  storeMaterials_from i ps h om = Some (h', om') →
  h `prefix_of` h' ∧
  (∀ k p, ps !! k = Some p →
     ∃ r, om' !! (i + k) = Some r ∧ length h ≤ r < length h'
          ∧ h' !! r = h !! material p) ∧
  (∀ j, j < i → om' !! j = om !! j).
Proof.
  induction ps as [|p ps IH]; intros i h om h' om' Hv Hs; simpl in Hs.
  - simplify_eq. split; [done|]. split; [|done]. intros k p Hk. by rewrite lookup_nil in Hk.
  - apply Forall_cons in Hv as [Hp Hv].
    unfold clone in Hs.
    destruct (h !! material p) as [m|] eqn:Hm; simpl in Hs; [|done].
    apply IH in Hs as (Hpre & Hk & Hj).
    2:{ eapply Forall_impl; [exact Hv|]. simpl. intros x Hx. rewrite length_app. lia. }
    split; [|split].
    + etrans; [|exact Hpre]. by apply prefix_app_r.
    + intros [|k] q Hq; simpl in Hq.
      * simplify_eq. exists (length h). rewrite Nat.add_0_r.
        rewrite Hj by lia. rewrite lookup_insert_eq.
        destruct Hpre as [ext ->]. split; [done|]. split.
        { rewrite !length_app. simpl. lia. }
        rewrite <- app_assoc. rewrite lookup_app_r by lia.
        rewrite Nat.sub_diag. simpl. done.
      * destruct (Hk k q Hq) as (r & Hr1 & Hr2 & Hr3).
        exists r. replace (i + S k) with (S i + k) by lia.
        split; [done|]. split.
        { rewrite length_app in Hr2. simpl in Hr2. lia. }
        rewrite Hr3. apply lookup_app_l.
        rewrite Forall_forall in Hv. apply Hv. eapply list_elem_of_lookup_2; eauto.
    + intros j Hlt. rewrite Hj by lia. rewrite lookup_insert_ne by lia. done.
Qed.

Lemma storeMaterials_from_total ps : ∀ i h om,
  Forall (λ p, material p < length h) ps →
  is_Some (storeMaterials_from i ps h om).
Proof.
  induction ps as [|p ps IH]; intros i h om Hv; simpl; [done|].
  apply Forall_cons in Hv as [Hp Hv]. unfold clone.
  destruct (lookup_lt_is_Some_2 h (material p) Hp) as [m ->]. simpl.
  apply IH. eapply Forall_impl; [exact Hv|]. simpl. intros x Hx.
  rewrite length_app. lia.
Qed.

Lemma wf_scene_pristine sc i p :
  wf_scene sc = true → sc_parts sc !! i = Some p →
  originalScale (userData p) = None ∧ hovering (userData p) = false
  ∧ pulsing (userData p) = false ∧ material p < length (sc_materials sc).
Proof.
  unfold wf_scene. rewrite forallb_forall. intros Hall Hp.
  assert (Hin : In p (sc_parts sc)).
  { apply list_elem_of_In. eapply list_elem_of_lookup_2; eauto. }
  specialize (Hall p Hin). unfold pristine in Hall.
  destruct (originalScale (userData p)); [done|].
  apply andb_prop in Hall as [Hall Hm]. apply andb_prop in Hall as [Hh Hp'].
  apply bool_decide_eq_true in Hm.
  destruct (hovering (userData p)), (pulsing (userData p)); done.
Qed.

Lemma wf_scene_materials sc :
  wf_scene sc = true →
  Forall (λ p, material p < length (sc_materials sc)) (sc_parts sc).
Proof.
  intros Hwf. apply Forall_lookup. intros i p Hp.
  by destruct (wf_scene_pristine sc i p Hwf Hp) as (_ & _ & _ & ?).
Qed.

Lemma start_total sc : wf_scene sc = true → is_Some (start sc).
Proof.
  intros Hwf. unfold start, construct, storeMaterials. simpl.
  destruct (storeMaterials_from_total (sc_parts sc) 0 (sc_materials sc) ∅
              (wf_scene_materials sc Hwf)) as [[h om] ->].
  simpl. eauto.
Qed.

Lemma start_spec sc s0 :
  wf_scene sc = true → start sc = Some s0 →
  productParts s0 = sc_parts sc ∧ hoveredObject s0 = None
  ∧ selectedObject s0 = None
  ∧ sc_materials sc `prefix_of` heap s0
  ∧ ∀ i p, sc_parts sc !! i = Some p →
      ∃ r, originalMaterials s0 !! i = Some r
           ∧ length (sc_materials sc) ≤ r < length (heap s0)
           ∧ heap s0 !! r = sc_materials sc !! material p.
Proof.
  intros Hwf. unfold start, construct, storeMaterials. simpl.
  destruct (storeMaterials_from 0 _ _ _) as [[h om]|] eqn:Hs; simpl; [|done].
  intros [= <-]. simpl.
  apply storeMaterials_from_spec in Hs as (Hpre & Hk & _);
    [|by apply wf_scene_materials].
  repeat split; try done.
Qed.

Lemma Inv_start sc s0 : wf_scene sc = true → start sc = Some s0 → Inv sc s0 s0.
Proof.
  intros Hwf Hs. destruct (start_spec sc s0 Hwf Hs) as (Hp & Hh & Hsel & Hpre & Hst).
  split; try done.
  - by rewrite Hp.
  - rewrite Hh. done.
  - rewrite Hsel. done.
  - rewrite Hp. intros i mesh0 mesh H0 H1. simplify_eq.
    destruct (wf_scene_pristine sc i mesh0 Hwf H0) as (Ho & Hhv & Hpl & Hm).
    split; try done.
    + apply prefix_length in Hpre. lia.
    + rewrite Ho. done.
    + rewrite Hpl. done.
    + rewrite Hhv. done.
Qed.

Lemma Inv_stored sc s0 s i :
  Inv sc s0 s → i < length (sc_parts sc) →
  ∃ r, originalMaterials s !! i = Some r ∧ r < length (heap s0)
       ∧ r < length (heap s).
Proof.
  intros HI Hi. destruct (lookup_lt_is_Some_2 _ _ Hi) as [p Hp].
  destruct (start_spec sc s0 (inv_wf _ _ _ HI) (inv_start _ _ _ HI))
    as (_ & _ & _ & _ & Hst).
  destruct (Hst i p Hp) as (r & Hr & Hlt & _).
  exists r. rewrite (inv_map _ _ _ HI). split; [done|]. split; [lia|].
  pose proof (prefix_length _ _ (inv_heap _ _ _ HI)). lia.
Qed.

Lemma PartInv_mono hov sel hlen hlen' i mesh0 mesh :
  hlen ≤ hlen' → PartInv hov sel hlen i mesh0 mesh → PartInv hov sel hlen' i mesh0 mesh.
Proof. intros Hle []. split; try done. lia. Qed.

Lemma not_pulsing_of_None hov sel hlen i mesh0 mesh :
  PartInv hov sel hlen i mesh0 mesh →
  originalScale (userData mesh) = None →
  hovering (userData mesh) = false ∧ pulsing (userData mesh) = false.
Proof.
  intros [] Hn. split.
  - destruct (hovering (userData mesh)) eqn:E; [|done].
    destruct pi_hovering0 as (_ & _ & [v Hv]); [done|congruence].
  - destruct (pulsing (userData mesh)) eqn:E; [|done].
    destruct pi_pulsing0 as (_ & _ & [v Hv] & _); [done|congruence].
Qed.

Lemma restoreScale_scale0 hov sel hlen i mesh0 mesh :
  PartInv hov sel hlen i mesh0 mesh → scale (restoreScale mesh) = scale mesh0.
Proof.
  intros HP. unfold restoreScale.
  destruct (originalScale (userData mesh)) as [v|] eqn:E; simpl.
  - by apply (pi_original _ _ _ _ _ _ HP).
  - destruct (not_pulsing_of_None _ _ _ _ _ _ HP E). by apply (pi_rest _ _ _ _ _ _ HP).
Qed.

Lemma restoreScale_userData mesh : userData (restoreScale mesh) = userData mesh.
Proof. unfold restoreScale. by destruct (originalScale _). Qed.

Lemma restoreScale_material mesh : material (restoreScale mesh) = material mesh.
Proof. unfold restoreScale. by destruct (originalScale _). Qed.

Lemma rememberScale_original hov sel hlen i mesh0 mesh :
  PartInv hov sel hlen i mesh0 mesh →
  originalScale (userData (rememberScale mesh)) = Some (scale mesh0).
Proof.
  intros HP. unfold rememberScale.
  destruct (originalScale (userData mesh)) as [v|] eqn:E; simpl.
  - rewrite E. f_equal. by apply (pi_original _ _ _ _ _ _ HP).
  - f_equal. destruct (not_pulsing_of_None _ _ _ _ _ _ HP E).
    by apply (pi_rest _ _ _ _ _ _ HP).
Qed.

Lemma rememberScale_fields mesh :
  material (rememberScale mesh) = material mesh
  ∧ scale (rememberScale mesh) = scale mesh
  ∧ name (userData (rememberScale mesh)) = name (userData mesh)
  ∧ hovering (userData (rememberScale mesh)) = hovering (userData mesh)
  ∧ hoverTime (userData (rememberScale mesh)) = hoverTime (userData mesh)
  ∧ pulsing (userData (rememberScale mesh)) = pulsing (userData mesh)
  ∧ pulseTime (userData (rememberScale mesh)) = pulseTime (userData mesh).
Proof. unfold rememberScale. by destruct (originalScale _). Qed.

(** Replacing one part of a state that satisfies the invariant. *)
Lemma Inv_set_part sc s0 s s' i mesh' :
  Inv sc s0 s →
  productParts s' = <[i := mesh']> (productParts s) →
  originalMaterials s' = originalMaterials s →
  heap s `prefix_of` heap s' →
  (∀ h, hoveredObject s' = Some h → h < length (sc_parts sc)) →
  (∀ p, selectedObject s' = Some p → p < length (sc_parts sc)) →
  (∀ mesh0, sc_parts sc !! i = Some mesh0 →
     PartInv (hoveredObject s') (selectedObject s') (length (heap s')) i mesh0 mesh') →
  (∀ j mesh0 mesh, j ≠ i → productParts s !! j = Some mesh →
     PartInv (hoveredObject s) (selectedObject s) (length (heap s)) j mesh0 mesh →
     PartInv (hoveredObject s') (selectedObject s') (length (heap s')) j mesh0 mesh) →
  Inv sc s0 s'.
Proof.
  intros HI Hparts Hmap Hheap Hhov Hsel Hi Hj.
  split; try done.
  - apply (inv_wf _ _ _ HI).
  - apply (inv_start _ _ _ HI).
  - rewrite Hparts, length_insert. apply (inv_length _ _ _ HI).
  - rewrite Hmap. apply (inv_map _ _ _ HI).
  - etrans; [apply (inv_heap _ _ _ HI)|done].
  - intros j mesh0 mesh H0 H1. rewrite Hparts in H1.
    destruct (decide (i = j)) as [->|Hne].
    + rewrite list_lookup_insert_eq in H1.
      * simplify_eq. by apply Hi.
      * rewrite (inv_length _ _ _ HI). by eapply lookup_lt_Some.
    + rewrite list_lookup_insert_ne in H1 by done.
      apply Hj; [done|done|]. by apply (inv_parts _ _ _ HI).
Qed.

(** Changing only fields other than the parts and the heap. *)
Lemma Inv_same_parts sc s0 s s' :
  Inv sc s0 s →
  productParts s' = productParts s →
  originalMaterials s' = originalMaterials s →
  heap s' = heap s →
  (∀ h, hoveredObject s' = Some h → h < length (sc_parts sc)) →
  (∀ p, selectedObject s' = Some p → p < length (sc_parts sc)) →
  (∀ j mesh0 mesh, productParts s !! j = Some mesh →
     PartInv (hoveredObject s) (selectedObject s) (length (heap s)) j mesh0 mesh →
     PartInv (hoveredObject s') (selectedObject s') (length (heap s')) j mesh0 mesh) →
  Inv sc s0 s'.
Proof.
  intros HI Hparts Hmap Hheap Hhov Hsel Hj.
  split; try done.
  - apply (inv_wf _ _ _ HI).
  - apply (inv_start _ _ _ HI).
  - rewrite Hparts. apply (inv_length _ _ _ HI).
  - rewrite Hmap. apply (inv_map _ _ _ HI).
  - rewrite Hheap. apply (inv_heap _ _ _ HI).
  - intros j mesh0 mesh H0 H1. rewrite Hparts in H1.
    apply Hj; [done|]. by apply (inv_parts _ _ _ HI).
Qed.

Lemma Inv_lookup sc s0 s i :
  Inv sc s0 s → i < length (sc_parts sc) →
  ∃ mesh0 mesh, sc_parts sc !! i = Some mesh0 ∧ productParts s !! i = Some mesh
    ∧ PartInv (hoveredObject s) (selectedObject s) (length (heap s)) i mesh0 mesh.
Proof.
  intros HI Hi.
  destruct (lookup_lt_is_Some_2 (sc_parts sc) i Hi) as [mesh0 H0].
  destruct (lookup_lt_is_Some_2 (productParts s) i) as [mesh H1].
  { by rewrite (inv_length _ _ _ HI). }
  exists mesh0, mesh. split; [done|]. split; [done|].
  by apply (inv_parts _ _ _ HI).
Qed.

Lemma clearHover_Inv sc s0 s s' :
  Inv sc s0 s → clearHover s = Some s' →
  Inv sc s0 s' ∧ noneHovering s' ∧ selectedObject s' = selectedObject s
  ∧ heap s' = heap s
  ∧ (hoveredObject s' = None ∨ (hoveredObject s' = hoveredObject s
       ∧ hoveredObject s = selectedObject s)).
Proof.
  intros HI. unfold clearHover.
  destruct (hoveredObject s) as [h|] eqn:Hh.
  - destruct (decide (selectedObject s = Some h)) as [Hs|Hs]; simpl.
    + intros [= <-]. simpl. split; [|split; [|split; [done|split; [done|]]]].
      * eapply Inv_same_parts with (s := s); [exact HI|done|done|done|..].
        -- simpl. rewrite Hh. intros ? [= <-]. by eapply inv_hovered.
        -- simpl. apply (inv_selected _ _ _ HI).
        -- simpl. intros j mesh0 mesh _ HP. exact HP.
      * intros i mesh Hi. simpl in Hi.
        destruct (hovering (userData mesh)) eqn:E; [|done].
        assert (Hlt : i < length (sc_parts sc)).
        { rewrite <- (inv_length _ _ _ HI). by eapply lookup_lt_Some. }
        destruct (lookup_lt_is_Some_2 _ _ Hlt) as [mesh0 H0].
        pose proof (inv_parts _ _ _ HI i mesh0 mesh H0 Hi) as HP.
        destruct (pi_hovering _ _ _ _ _ _ HP E) as (H1 & H2 & _).
        rewrite Hh in H1. simplify_eq.
      * right. by rewrite Hh, Hs.
    + assert (Hlt : h < length (sc_parts sc)) by by eapply inv_hovered.
      destruct (Inv_lookup _ _ _ h HI Hlt) as (mesh0 & mesh & H0 & H1 & HP).
      destruct (Inv_stored _ _ _ h HI Hlt) as (r & Hr & _ & Hrl).
      rewrite H1, Hr. simpl. intros [= <-]. simpl.
      split; [|split; [|split; [done|split; [done|by left]]]].
      * eapply Inv_set_part with (s := s) (i := h); [exact HI|done|done|done|..]; simpl.
        -- done.
        -- apply (inv_selected _ _ _ HI).
        -- intros m0 Hm0. simplify_eq. split; simpl.
           ++ rewrite restoreScale_userData. simpl. apply (pi_name _ _ _ _ _ _ HP).
           ++ by rewrite restoreScale_material.
           ++ rewrite restoreScale_userData. simpl. apply (pi_original _ _ _ _ _ _ HP).
           ++ intros _ _.
              replace (scale (restoreScale (set_material r mesh)))
                with (scale (restoreScale mesh)).
              { eapply restoreScale_scale0; eauto. }
              unfold restoreScale. simpl. by destruct (originalScale _).
           ++ rewrite restoreScale_userData. simpl. intros Hp.
              destruct (pi_pulsing _ _ _ _ _ _ HP Hp) as (? & _). done.
           ++ done.
        -- intros j m0 m Hne Hm HPj. destruct HPj. split; try done.
           intros E. destruct (pi_hovering0 E) as (? & _). rewrite Hh in *. congruence.
      * intros i m Hi. simpl in Hi.
        destruct (decide (h = i)) as [->|Hne].
        -- rewrite list_lookup_insert_eq in Hi by by eapply lookup_lt_Some.
           by simplify_eq.
        -- rewrite list_lookup_insert_ne in Hi by done.
           destruct (hovering (userData m)) eqn:E; [|done].
           assert (Hlt' : i < length (sc_parts sc)).
           { rewrite <- (inv_length _ _ _ HI). by eapply lookup_lt_Some. }
           destruct (lookup_lt_is_Some_2 _ _ Hlt') as [m0 Hm0].
           pose proof (inv_parts _ _ _ HI i m0 m Hm0 Hi) as HPi.
           destruct (pi_hovering _ _ _ _ _ _ HPi E) as (? & _). congruence.
  - simpl. intros [= <-]. simpl. split; [|split; [|split; [done|split; [done|by left]]]].
    + eapply Inv_same_parts with (s := s); [exact HI|done|done|done|..]; simpl.
      * apply (inv_hovered _ _ _ HI).
      * apply (inv_selected _ _ _ HI).
      * intros j mesh0 mesh _ HP. exact HP.
    + intros i mesh Hi. simpl in Hi.
      destruct (hovering (userData mesh)) eqn:E; [|done].
      assert (Hlt : i < length (sc_parts sc)).
      { rewrite <- (inv_length _ _ _ HI). by eapply lookup_lt_Some. }
      destruct (lookup_lt_is_Some_2 _ _ Hlt) as [mesh0 H0].
      pose proof (inv_parts _ _ _ HI i mesh0 mesh H0 Hi) as HP.
      destruct (pi_hovering _ _ _ _ _ _ HP E) as (H1 & _). congruence.
Qed.

Lemma setEmissive_fresh h m c x :
  setEmissive (length h) c x (h ++ [m]) = h ++ [tint c x m].
Proof.
  unfold setEmissive. induction h as [|a h IH]; simpl; [done|].
  f_equal. exact IH.
Qed.

Lemma clone_tint_spec h r c x h' r' :
  clone h r = Some (h', r') →
  ∃ m, h !! r = Some m ∧ r' = length h
       ∧ setEmissive r' c x h' = h ++ [tint c x m].
Proof.
  unfold clone. destruct (h !! r) as [m|]; simpl; [|done].
  intros [= <- <-]. exists m. split; [done|]. split; [done|].
  apply setEmissive_fresh.
Qed.

Lemma applyHoverEffect_Inv sc s0 s s' m :
  Inv sc s0 s → noneHovering s →
  applyHoverEffect m (set_hoveredObject (Some m) s) = Some s' →
  Inv sc s0 s' ∧ hoveredObject s' = Some m ∧ selectedObject s' = selectedObject s.
Proof.
  intros HI Hnone. unfold applyHoverEffect. simpl.
  destruct (decide (selectedObject s = Some m)) as [Hs|Hs].
  - intros [= <-]. simpl. split; [|done].
    eapply Inv_same_parts with (s := s); [exact HI|done|done|done|..]; simpl.
    + intros ? [= <-]. apply (inv_selected _ _ _ HI). done.
    + apply (inv_selected _ _ _ HI).
    + intros j mesh0 mesh Hj []. split; try done.
      intros E. rewrite (Hnone j mesh Hj) in E. done.
  - destruct (originalMaterials s !! m) as [r|] eqn:Hr; simpl; [|done].
    destruct (clone (heap s) r) as [[h' r']|] eqn:Hc; simpl; [|done].
    destruct (productParts s !! m) as [mesh|] eqn:Hm; simpl; [|done].
    intros [= <-]. simpl. split; [|done].
    destruct (clone_tint_spec _ _ 0x4444FF 0.4 _ _ Hc) as (mat & Hmat & -> & Hh').
    rewrite Hh'.
    assert (Hlt : m < length (sc_parts sc)).
    { rewrite <- (inv_length _ _ _ HI). by eapply lookup_lt_Some. }
    eapply Inv_set_part with (s := s) (i := m); [exact HI|done|done|..]; simpl.
    + by apply prefix_app_r.
    + by intros ? [= <-].
    + apply (inv_selected _ _ _ HI).
    + intros mesh0 H0. pose proof (inv_parts _ _ _ HI m mesh0 mesh H0 Hm) as HP.
      destruct (rememberScale_fields (set_material (length (heap s)) mesh))
        as (Hf1 & Hf2 & Hf3 & Hf4 & Hf5 & Hf6 & Hf7). simpl in *.
      assert (HP' : PartInv (hoveredObject s) (selectedObject s) (S (length (heap s))) m
                      mesh0 (set_material (length (heap s)) mesh)).
      { destruct HP. split; simpl; try done. lia. }
      pose proof (rememberScale_original _ _ _ _ _ _ HP') as Ho.
      split; simpl.
      * rewrite Hf3. apply (pi_name _ _ _ _ _ _ HP).
      * rewrite length_app. simpl. lia.
      * rewrite Ho. by intros ? [= <-].
      * done.
      * rewrite Hf6. intros E.
        destruct (pi_pulsing _ _ _ _ _ _ HP E) as (? & _). done.
      * intros _. split; [done|]. split; [done|]. rewrite Ho. eauto.
    + intros j mesh0 mj Hne Hj HPj. apply PartInv_mono with (hlen := length (heap s)).
      { rewrite length_app. lia. }
      destruct HPj. split; try done.
      intros E. rewrite (Hnone j mj Hj) in E. done.
Qed.

Lemma handleHover_Inv sc s0 s s' intersects :
  Inv sc s0 s → handleHover intersects s = Some s' → Inv sc s0 s'.
Proof.
  intros HI. unfold handleHover. destruct intersects as [|m rest].
  - intros Hc. by destruct (clearHover_Inv _ _ _ _ HI Hc).
  - destruct (decide (hoveredObject s = Some m)); [by intros [= <-]|].
    destruct (clearHover s) as [s1|] eqn:Hc; simpl; [|done].
    destruct (clearHover_Inv _ _ _ _ HI Hc) as (HI1 & Hnone & _).
    destruct (applyHoverEffect m _) as [s2|] eqn:Ha; simpl; [|done].
    intros [= <-].
    destruct (applyHoverEffect_Inv _ _ _ _ _ HI1 Hnone Ha) as (HI2 & _).
    eapply Inv_same_parts with (s := s2); [exact HI2|done|done|done|..]; simpl.
    + apply (inv_hovered _ _ _ HI2).
    + apply (inv_selected _ _ _ HI2).
    + intros j mesh0 mesh _ HP. exact HP.
Qed.

Lemma rememberScale_original_of hov sel hlen i mesh0 mesh mesh1 :
  PartInv hov sel hlen i mesh0 mesh →
  originalScale (userData mesh1) = originalScale (userData mesh) →
  scale mesh1 = scale mesh →
  originalScale (userData (rememberScale mesh1)) = Some (scale mesh0).
Proof.
  intros HP Ho Hs. unfold rememberScale. rewrite Ho.
  destruct (originalScale (userData mesh)) as [v|] eqn:E; simpl.
  - rewrite Ho. f_equal. by apply (pi_original _ _ _ _ _ _ HP).
  - f_equal. rewrite Hs. destruct (not_pulsing_of_None _ _ _ _ _ _ HP E).
    by apply (pi_rest _ _ _ _ _ _ HP).
Qed.

Lemma deselectObject_unfold s p mesh orig :
  selectedObject s = Some p → productParts s !! p = Some mesh →
  originalMaterials s !! p = Some orig →
  deselectObject s =
    Some (hidePartInfo (set_selectedObject None
            (set_productParts (<[p := deselected orig mesh]> (productParts s)) s))).
Proof.
  intros Hs Hm Ho. unfold deselectObject, clearSelectionEffect, removePulseAnimation.
  rewrite Hs. simpl. rewrite Hm. simpl. rewrite Ho. simpl.
  rewrite list_lookup_insert_eq by by eapply lookup_lt_Some. simpl.
  rewrite list_insert_insert_eq. done.
Qed.

Lemma deselected_spec hov sel hlen i mesh0 mesh orig :
  PartInv hov sel hlen i mesh0 mesh →
  material (deselected orig mesh) = orig
  ∧ scale (deselected orig mesh) = scale mesh0
  ∧ pulsing (userData (deselected orig mesh)) = false
  ∧ hovering (userData (deselected orig mesh)) = false
  ∧ name (userData (deselected orig mesh)) = name (userData mesh)
  ∧ originalScale (userData (deselected orig mesh)) = originalScale (userData mesh).
Proof.
  intros HP. unfold deselected, removePulseAnimation_mesh.
  assert (Hsc : scale (restoreScale (set_material orig mesh)) = scale mesh0).
  { rewrite <- (restoreScale_scale0 _ _ _ _ _ _ HP).
    unfold restoreScale. simpl. by destruct (originalScale _). }
  rewrite !restoreScale_userData. simpl.
  destruct (pulsing (userData mesh)) eqn:Hp; simpl.
  - rewrite restoreScale_material, restoreScale_userData. simpl.
    rewrite restoreScale_material. simpl.
    unfold restoreScale at 1. simpl.
    destruct (originalScale (userData mesh)) as [v|] eqn:Ho; simpl.
    + repeat split; try done. by apply (pi_original _ _ _ _ _ _ HP).
    + repeat split; try done.
  - rewrite restoreScale_material. simpl. repeat split; try done.
Qed.

Lemma deselectObject_Inv sc s0 s s' :
  Inv sc s0 s → deselectObject s = Some s' →
  Inv sc s0 s' ∧ selectedObject s' = None
  ∧ hoveredObject s' = hoveredObject s ∧ heap s' = heap s.
Proof.
  intros HI. destruct (selectedObject s) as [p|] eqn:Hs.
  - assert (Hlt : p < length (sc_parts sc)) by by eapply inv_selected.
    destruct (Inv_lookup _ _ _ p HI Hlt) as (mesh0 & mesh & H0 & H1 & HP).
    destruct (Inv_stored _ _ _ p HI Hlt) as (r & Hr & _ & Hrl).
    rewrite (deselectObject_unfold s p mesh r Hs H1 Hr). intros [= <-]. simpl.
    split; [|done].
    destruct (deselected_spec _ _ _ _ _ _ r HP) as (D1 & D2 & D3 & D4 & D5 & D6).
    eapply Inv_set_part with (s := s) (i := p); [exact HI|done|done|done|..]; simpl.
    + apply (inv_hovered _ _ _ HI).
    + done.
    + intros m0 Hm0. simplify_eq. split.
      * rewrite D5. apply (pi_name _ _ _ _ _ _ HP).
      * by rewrite D1.
      * rewrite D6. apply (pi_original _ _ _ _ _ _ HP).
      * done.
      * by rewrite D3.
      * by rewrite D4.
    + intros j m0 m Hne Hm HPj. destruct HPj. split; try done.
      * intros E. destruct (pi_pulsing0 E) as (? & _). rewrite Hs in *. congruence.
      * intros E. destruct (pi_hovering0 E) as (? & _ & ?). done.
  - unfold deselectObject. rewrite Hs. simpl. intros [= <-]. simpl.
    split; [|done].
    eapply Inv_same_parts with (s := s); [exact HI|done|done|done|..]; simpl.
    + apply (inv_hovered _ _ _ HI).
    + apply (inv_selected _ _ _ HI).
    + intros j mesh0 mesh _ HP. exact HP.
Qed.

Lemma markSelected_unfold s m mesh orig mat :
  productParts s !! m = Some mesh → originalMaterials s !! m = Some orig →
  heap s !! orig = Some mat →
  markSelected m s =
    Some (set_productParts (<[m := selected (length (heap s)) mesh]> (productParts s))
            (set_panelHidden false
               (set_partNameText
                  (if decide (name (userData mesh) = EmptyString)
                   then "Unknown Part"%string else name (userData mesh))
                  (set_heap (heap s ++ [tint 0x4444FF 0.5 mat])
                     (set_selectedObject (Some m) s))))).
Proof.
  intros Hm Ho Hmat.
  unfold markSelected, applySelectionEffect, showPartInfo, addPulseAnimation, clone.
  simpl. rewrite Ho. simpl. rewrite Hmat. simpl. rewrite Hm. simpl.
  rewrite setEmissive_fresh.
  rewrite list_lookup_insert_eq by by eapply lookup_lt_Some. simpl.
  rewrite list_lookup_insert_eq by by eapply lookup_lt_Some. simpl.
  rewrite list_insert_insert_eq. unfold selected. simpl.
  destruct (hovering (userData mesh)); done.
Qed.

Lemma selected_spec hov sel hlen i mesh0 mesh fresh :
  PartInv hov sel hlen i mesh0 mesh →
  material (selected fresh mesh) = fresh
  ∧ scale (selected fresh mesh) = scale mesh
  ∧ pulsing (userData (selected fresh mesh)) = true
  ∧ pulseTime (userData (selected fresh mesh)) = 0%R
  ∧ hovering (userData (selected fresh mesh)) = false
  ∧ name (userData (selected fresh mesh)) = name (userData mesh)
  ∧ originalScale (userData (selected fresh mesh)) = Some (scale mesh0).
Proof.
  intros HP. unfold selected, addPulseAnimation_mesh. simpl.
  set (mesh1 := if hovering (userData mesh)
                then set_userData (set_hovering false (userData mesh)) (set_material fresh mesh)
                else set_material fresh mesh).
  assert (H1 : material mesh1 = fresh ∧ scale mesh1 = scale mesh
               ∧ hovering (userData mesh1) = false
               ∧ name (userData mesh1) = name (userData mesh)
               ∧ originalScale (userData mesh1) = originalScale (userData mesh)).
  { unfold mesh1. destruct (hovering (userData mesh)) eqn:E; simpl; by rewrite ?E. }
  destruct H1 as (A1 & A2 & A3 & A4 & A5).
  destruct (rememberScale_fields mesh1) as (F1 & F2 & F3 & F4 & F5 & F6 & F7).
  rewrite F1, F2, F3, F4. repeat split; try done.
  eapply rememberScale_original_of; eauto.
Qed.

Lemma markSelected_Inv sc s0 s s' m :
  Inv sc s0 s → selectedObject s = None → markSelected m s = Some s' →
  Inv sc s0 s' ∧ selectedObject s' = Some m ∧ hoveredObject s' = hoveredObject s.
Proof.
  intros HI Hnone Hmk.
  assert (Hlt : m < length (sc_parts sc)).
  { unfold markSelected, applySelectionEffect in Hmk. simpl in Hmk.
    pose proof (inv_map _ _ _ HI) as Hmap.
    destruct (originalMaterials s !! m) as [r|] eqn:Hr; simpl in Hmk; [|done].
    destruct (clone (heap s) r) as [[h' r']|]; simpl in Hmk; [|done].
    destruct (productParts s !! m) as [mesh|] eqn:Hm; simpl in Hmk; [|done].
    rewrite <- (inv_length _ _ _ HI). by eapply lookup_lt_Some. }
  destruct (Inv_lookup _ _ _ m HI Hlt) as (mesh0 & mesh & H0 & H1 & HP).
  destruct (Inv_stored _ _ _ m HI Hlt) as (r & Hr & _ & Hrl).
  destruct (lookup_lt_is_Some_2 _ _ Hrl) as [mat Hmat].
  rewrite (markSelected_unfold s m mesh r mat H1 Hr Hmat) in Hmk.
  injection Hmk as <-. simpl. split; [|done].
  destruct (selected_spec _ _ _ _ _ _ (length (heap s)) HP)
    as (S1 & S2 & S3 & S4 & S5 & S6 & S7).
  eapply Inv_set_part with (s := s) (i := m); [exact HI|done|done|..]; simpl.
  - by apply prefix_app_r.
  - apply (inv_hovered _ _ _ HI).
  - by intros ? [= <-].
  - intros m0 Hm0. simplify_eq. split.
    + rewrite S6. apply (pi_name _ _ _ _ _ _ HP).
    + rewrite S1, length_app. simpl. lia.
    + rewrite S7. by intros ? [= <-].
    + rewrite S3. done.
    + rewrite S4, S5, S7. intros _. repeat split; eauto. lra.
    + by rewrite S5.
  - intros j m0 mj Hne Hj HPj. apply PartInv_mono with (hlen := length (heap s)).
    { rewrite length_app. lia. }
    destruct HPj. split; try done.
    + intros E. destruct (pi_pulsing0 E) as (? & _). congruence.
    + intros E. destruct (pi_hovering0 E) as (? & _ & ?).
      repeat split; try done. congruence.
Qed.

Lemma handleClick_Inv sc s0 s s' intersects :
  Inv sc s0 s → handleClick intersects s = Some s' → Inv sc s0 s'.
Proof.
  intros HI. unfold handleClick, selectObject. destruct intersects as [|m rest].
  - intros Hd. by destruct (deselectObject_Inv _ _ _ _ HI Hd).
  - destruct (deselectObject s) as [s1|] eqn:Hd; simpl; [|done].
    destruct (deselectObject_Inv _ _ _ _ HI Hd) as (HI1 & Hn & _).
    intros Hmk. by destruct (markSelected_Inv _ _ _ _ _ HI1 Hn Hmk).
Qed.

Lemma updatePart_not_animated deltaTime part :
  pulsing (userData part) = false → hovering (userData part) = false →
  updatePart deltaTime part = part.
Proof.
  intros Hp Hh. unfold updatePart, pulseStep, breathStep. rewrite Hp. simpl.
  rewrite Hh. done.
Qed.

Lemma updatePart_pulsing deltaTime part v :
  pulsing (userData part) = true → hovering (userData part) = false →
  originalScale (userData part) = Some v →
  updatePart deltaTime part =
    if Rgt_dec (pulseTime (userData part) + deltaTime) 6280
    then set_scale v
           (set_userData
              (set_pulsing false
                 (set_pulseTime (pulseTime (userData part) + deltaTime) (userData part)))
              part)
    else set_scale
           (multiplyScalar v (pulseScale (pulseTime (userData part) + deltaTime)))
           (set_userData
              (set_pulseTime (pulseTime (userData part) + deltaTime) (userData part))
              part).
Proof.
  intros Hp Hh Ho. unfold updatePart, pulseStep. rewrite Hp.
  unfold baseScale. simpl. rewrite Ho. simpl.
  destruct (Rgt_dec _ _).
  - unfold removePulseAnimation_mesh. simpl. rewrite Hp.
    unfold restoreScale. simpl. rewrite Ho.
    unfold breathStep. simpl. rewrite Hh. done.
  - unfold breathStep. simpl. rewrite Hh. done.
Qed.

Lemma updatePart_hovering deltaTime part :
  pulsing (userData part) = false → hovering (userData part) = true →
  updatePart deltaTime part =
    set_scale
      (multiplyScalar (baseScale part) (breathScale (hoverTime (userData part) + deltaTime)))
      (set_userData
         (set_hoverTime (hoverTime (userData part) + deltaTime) (userData part)) part).
Proof.
  intros Hp Hh. unfold updatePart, pulseStep. rewrite Hp.
  unfold breathStep. rewrite Hp, Hh. done.
Qed.

Lemma updatePart_PartInv hov sel hlen i mesh0 mesh deltaTime :
  PartInv hov sel hlen i mesh0 mesh →
  PartInv hov sel hlen i mesh0 (updatePart deltaTime mesh).
Proof.
  intros HP.
  destruct (pulsing (userData mesh)) eqn:Hp.
  - destruct (pi_pulsing _ _ _ _ _ _ HP Hp) as (Hs & Hh & [v Hv] & Ht).
    rewrite (updatePart_pulsing _ _ v Hp Hh Hv).
    pose proof (pi_original _ _ _ _ _ _ HP v Hv) as ->.
    destruct (Rgt_dec _ _) as [Hgt|Hle]; destruct HP; split; simpl; try done.
    + intros _ E. congruence.
    + intros _. repeat split; eauto. lra.
  - destruct (hovering (userData mesh)) eqn:Hh.
    + rewrite (updatePart_hovering _ _ Hp Hh).
      destruct HP; split; simpl; try done.
      intros E. congruence.
    + by rewrite updatePart_not_animated.
Qed.

Lemma updatePulseAnimations_Inv sc s0 s deltaTime :
  Inv sc s0 s → Inv sc s0 (updatePulseAnimations deltaTime s).
Proof.
  intros HI. split; simpl.
  - apply (inv_wf _ _ _ HI).
  - apply (inv_start _ _ _ HI).
  - rewrite length_fmap. apply (inv_length _ _ _ HI).
  - apply (inv_map _ _ _ HI).
  - apply (inv_heap _ _ _ HI).
  - apply (inv_hovered _ _ _ HI).
  - apply (inv_selected _ _ _ HI).
  - intros i mesh0 mesh H0 H1. rewrite list_lookup_fmap in H1.
    destruct (productParts s !! i) as [m|] eqn:Hm; simpl in H1; [|done].
    injection H1 as <-. apply updatePart_PartInv.
    by apply (inv_parts _ _ _ HI).
Qed.

Lemma handle_Inv sc s0 s s' e :
  Inv sc s0 s → handle e s = Some s' → Inv sc s0 s'.
Proof.
  intros HI. destruct e as [intersects|intersects| | |deltaTime]; simpl.
  - by apply handleHover_Inv.
  - by apply handleClick_Inv.
  - intros Hc. by destruct (clearHover_Inv _ _ _ _ HI Hc).
  - intros [= <-].
    eapply Inv_same_parts with (s := s); [exact HI|done|done|done|..]; simpl.
    + apply (inv_hovered _ _ _ HI).
    + apply (inv_selected _ _ _ HI).
    + intros j mesh0 mesh _ HP. exact HP.
  - intros [= <-]. by apply updatePulseAnimations_Inv.
Qed.

Lemma run_Inv sc s0 es : ∀ s s',
  Inv sc s0 s → run es s = Some s' → Inv sc s0 s'.
Proof.
  induction es as [|e es IH]; intros s s' HI; simpl.
  - by intros [= <-].
  - destruct (handle e s) as [s1|] eqn:He; simpl; [|done].
    apply IH. by eapply handle_Inv.
Qed.

Lemma Reachable_Inv sc s : Reachable sc s → ∃ s0, Inv sc s0 s.
Proof.
  intros (Hwf & s0 & es & Hs & Hr). exists s0.
  eapply run_Inv; [|exact Hr]. by apply Inv_start.
Qed.

Lemma Reachable_handle sc s s' e :
  Reachable sc s → handle e s = Some s' → Reachable sc s'.
Proof.
  intros (Hwf & s0 & es & Hs & Hr) He. split; [done|].
  exists s0, (es ++ [e]). split; [done|].
  clear Hs. revert s0 Hr. induction es as [|a es IH]; intros s0 Hr; simpl in *.
  - injection Hr as ->. by rewrite He.
  - destruct (handle a s0) as [s1|]; simpl in *; [|done]. by apply IH.
Qed.

(** *** Hovering and the selected object *)

Lemma clearHover_frame s s' m :
  selectedObject s = Some m → clearHover s = Some s' →
  selectedObject s' = Some m ∧ productParts s' !! m = productParts s !! m
  ∧ heap s' = heap s ∧ originalMaterials s' = originalMaterials s.
Proof.
  intros Hs. unfold clearHover.
  destruct (hoveredObject s) as [h|]; simpl.
  - destruct (decide (selectedObject s = Some h)) as [E|E]; simpl.
    + by intros [= <-].
    + destruct (productParts s !! h) as [mesh|]; simpl; [|done].
      destruct (originalMaterials s !! h) as [r|]; simpl; [|done].
      intros [= <-]. simpl. repeat split; try done.
      apply list_lookup_insert_ne. congruence.
  - by intros [= <-].
Qed.

Lemma applyHoverEffect_frame s s' m k :
  selectedObject s = Some m → applyHoverEffect k s = Some s' →
  selectedObject s' = Some m ∧ productParts s' !! m = productParts s !! m
  ∧ heap s `prefix_of` heap s' ∧ originalMaterials s' = originalMaterials s.
Proof.
  intros Hs. unfold applyHoverEffect.
  destruct (decide (selectedObject s = Some k)) as [E|E].
  - by intros [= <-].
  - destruct (originalMaterials s !! k) as [r|]; simpl; [|done].
    destruct (clone (heap s) r) as [[h' r']|] eqn:Hc; simpl; [|done].
    destruct (productParts s !! k) as [mesh|]; simpl; [|done].
    intros [= <-]. simpl.
    destruct (clone_tint_spec _ _ 0x4444FF 0.4 _ _ Hc) as (mat & Hmat & -> & ->).
    repeat split; try done.
    + apply list_lookup_insert_ne. congruence.
    + by apply prefix_app_r.
Qed.

Lemma handle_hover_frame s s' m e :
  is_hover_event e = true → selectedObject s = Some m → handle e s = Some s' →
  selectedObject s' = Some m ∧ productParts s' !! m = productParts s !! m
  ∧ heap s `prefix_of` heap s'.
Proof.
  intros He Hs. destruct e as [intersects| | | |]; try done; simpl.
  - unfold handleHover. destruct intersects as [|k rest].
    + intros Hc. destruct (clearHover_frame _ _ _ Hs Hc) as (? & ? & -> & _). done.
    + destruct (decide (hoveredObject s = Some k)); [by intros [= <-]|].
      destruct (clearHover s) as [s1|] eqn:Hc; simpl; [|done].
      destruct (clearHover_frame _ _ _ Hs Hc) as (Hs1 & Hp1 & Hh1 & _).
      destruct (applyHoverEffect k _) as [s2|] eqn:Ha; simpl; [|done].
      intros [= <-]. simpl.
      destruct (applyHoverEffect_frame (set_hoveredObject (Some k) s1) _ m _ Hs1 Ha)
        as (Hs2 & Hp2 & Hh2 & _).
      simpl in *. rewrite <- Hh1. rewrite Hp2, Hp1. done.
  - intros Hc. destruct (clearHover_frame _ _ _ Hs Hc) as (? & ? & -> & _). done.
Qed.

(** C10. Hovering never touches the selected object: [applyHoverEffect]
    returns the state as it is when called on the selected object,
    [clearHover] only resets the cursor when the hovered object is the
    selected one, and over every sequence of pointer moves and leaves the
    selected mesh keeps its material reference, its scale and its userData,
    while every material of the heap keeps its parameters. *)
Theorem selected_immune_to_hover s m :
  selectedObject s = Some m →
  applyHoverEffect m s = Some s
  ∧ (hoveredObject s = Some m → clearHover s = Some (set_cursor CursorDefault s))
  ∧ ∀ es s', forallb is_hover_event es = true → run es s = Some s' →
      selectedObject s' = Some m
      ∧ productParts s' !! m = productParts s !! m
      ∧ heap s `prefix_of` heap s'.
Proof.
  intros Hs. split; [|split].
  - unfold applyHoverEffect. by rewrite decide_True.
  - intros Hh. unfold clearHover. rewrite Hh. by rewrite decide_True.
  - intros es. revert s Hs. induction es as [|e es IH]; intros s Hs s' Hall; simpl.
    + by intros [= <-].
    + simpl in Hall. apply andb_prop in Hall as [He Hall].
      destruct (handle e s) as [s1|] eqn:H1; simpl; [|done].
      destruct (handle_hover_frame _ _ _ _ He Hs H1) as (Hs1 & Hp1 & Hh1).
      intros Hr. destruct (IH s1 Hs1 s' Hall Hr) as (Hs' & Hp' & Hh').
      split; [done|]. split; [congruence|]. by etrans.
Qed.

Lemma applyHoverEffect_unfold s m mesh orig mat :
  selectedObject s ≠ Some m →
  productParts s !! m = Some mesh → originalMaterials s !! m = Some orig →
  heap s !! orig = Some mat →
  applyHoverEffect m s =
    Some (set_productParts (<[m := hovered (length (heap s)) mesh]> (productParts s))
            (set_heap (heap s ++ [tint 0x4444FF 0.4 mat]) s)).
Proof.
  intros Hs Hm Ho Hmat. unfold applyHoverEffect, clone.
  rewrite decide_False by done. rewrite Ho. simpl. rewrite Hmat. simpl.
  rewrite Hm. simpl. rewrite setEmissive_fresh. done.
Qed.

Lemma applySelectionEffect_unfold s m mesh orig mat :
  productParts s !! m = Some mesh → originalMaterials s !! m = Some orig →
  heap s !! orig = Some mat →
  applySelectionEffect m s =
    Some (set_productParts
            (<[m := if hovering (userData mesh)
                    then set_userData (set_hovering false (userData mesh))
                           (set_material (length (heap s)) mesh)
                    else set_material (length (heap s)) mesh]> (productParts s))
            (set_heap (heap s ++ [tint 0x4444FF 0.5 mat]) s)).
Proof.
  intros Hm Ho Hmat. unfold applySelectionEffect, clone.
  rewrite Ho. simpl. rewrite Hmat. simpl. rewrite Hm. simpl.
  rewrite setEmissive_fresh. done.
Qed.

Lemma hovered_spec fresh mesh :
  material (hovered fresh mesh) = fresh
  ∧ scale (hovered fresh mesh) = multiplyScalar (scale mesh) 1.05
  ∧ hovering (userData (hovered fresh mesh)) = true
  ∧ pulsing (userData (hovered fresh mesh)) = pulsing (userData mesh)
  ∧ name (userData (hovered fresh mesh)) = name (userData mesh).
Proof.
  unfold hovered, rememberScale. simpl.
  by destruct (originalScale (userData mesh)).
Qed.

Lemma prefix_lookup_Some {A} (l1 l2 : list A) i x :
  l1 `prefix_of` l2 → l1 !! i = Some x → l2 !! i = Some x.
Proof. intros [k ->] H. by apply lookup_app_l_Some. Qed.

(** *** Shared materials *)

(** C7. Tinting works on clones only.  In every state reached from the
    constructor by pointer moves, clicks and frames: the [originalMaterials]
    map is the one stored at construction; every material that existed then
    (the builder's shared base materials and the stored originals) still has
    the parameters it had; and both [applyHoverEffect] and
    [applySelectionEffect] extend the heap by one tinted clone of the stored
    original, at a fresh address, which becomes the mesh's material. *)
Theorem tinting_never_mutates_shared sc s :
  Reachable sc s →
  ∃ s0, start sc = Some s0
    ∧ originalMaterials s = originalMaterials s0
    ∧ (∀ r mat, heap s0 !! r = Some mat → heap s !! r = Some mat)
    ∧ (∀ r mat, sc_materials sc !! r = Some mat → heap s !! r = Some mat)
    ∧ ∀ i, i < length (sc_parts sc) →
        ∃ r mat, originalMaterials s !! i = Some r ∧ heap s0 !! r = Some mat
          ∧ heap s !! r = Some mat
          ∧ (selectedObject s ≠ Some i →
               ∃ s' mesh', applyHoverEffect i s = Some s'
                 ∧ heap s' = heap s ++ [tint 0x4444FF 0.4 mat]
                 ∧ productParts s' !! i = Some mesh'
                 ∧ material mesh' = length (heap s))
          ∧ (∃ s' mesh', applySelectionEffect i s = Some s'
                 ∧ heap s' = heap s ++ [tint 0x4444FF 0.5 mat]
                 ∧ productParts s' !! i = Some mesh'
                 ∧ material mesh' = length (heap s)).
Proof.
  intros HR. destruct (Reachable_Inv _ _ HR) as [s0 HI]. exists s0.
  pose proof (inv_wf _ _ _ HI) as Hwf. pose proof (inv_start _ _ _ HI) as Hst.
  destruct (start_spec _ _ Hwf Hst) as (_ & _ & _ & Hbase & _).
  split; [done|]. split; [apply (inv_map _ _ _ HI)|].
  split; [|split].
  - intros r mat. apply prefix_lookup_Some. apply (inv_heap _ _ _ HI).
  - intros r mat Hr. eapply prefix_lookup_Some; [apply (inv_heap _ _ _ HI)|].
    eapply prefix_lookup_Some; [exact Hbase|done].
  - intros i Hi.
    destruct (Inv_lookup _ _ _ i HI Hi) as (mesh0 & mesh & H0 & H1 & HP).
    destruct (Inv_stored _ _ _ i HI Hi) as (r & Hr & Hr0 & Hrl).
    destruct (lookup_lt_is_Some_2 _ _ Hr0) as [mat Hmat].
    pose proof (prefix_lookup_Some _ _ _ _ (inv_heap _ _ _ HI) Hmat) as Hmat'.
    exists r, mat. split; [done|]. split; [done|]. split; [done|]. split.
    + intros Hs. eexists _, _.
      split; [by apply (applyHoverEffect_unfold s i mesh r mat)|]. simpl.
      split; [done|]. split.
      * apply list_lookup_insert_eq. by eapply lookup_lt_Some.
      * apply hovered_spec.
    + eexists _, _.
      split; [by apply (applySelectionEffect_unfold s i mesh r mat)|]. simpl.
      split; [done|]. split.
      * apply list_lookup_insert_eq. by eapply lookup_lt_Some.
      * by destruct (hovering (userData mesh)).
Qed.

Lemma clearHover_total sc s0 s : Inv sc s0 s → is_Some (clearHover s).
Proof.
  intros HI. unfold clearHover. destruct (hoveredObject s) as [h|] eqn:Hh; simpl; [|eauto].
  destruct (decide (selectedObject s = Some h)); simpl; [eauto|].
  assert (Hlt : h < length (sc_parts sc)) by by eapply inv_hovered.
  destruct (Inv_lookup _ _ _ h HI Hlt) as (mesh0 & mesh & _ & -> & _).
  destruct (Inv_stored _ _ _ h HI Hlt) as (r & -> & _). simpl. eauto.
Qed.

(** *** The selection pulse *)

(** C5. In every reachable state a part whose [pulsing] flag is set has a
    stored original scale [v] (its scale at build time) and a [pulseTime] of
    at most 6280.  One [updatePulseAnimations deltaTime] adds [deltaTime] to
    [pulseTime]; if the sum exceeds 6280 the flag is cleared and the scale is
    exactly [v]; otherwise the part keeps pulsing with scale
    [v * (1 + sin (pulseTime * 0.01) * 0.05)]. *)
Theorem pulse_is_bounded sc s i part deltaTime :
  Reachable sc s → productParts s !! i = Some part →
  pulsing (userData part) = true →
  ∃ mesh0 part',
    sc_parts sc !! i = Some mesh0
    ∧ originalScale (userData part) = Some (scale mesh0)
    ∧ (pulseTime (userData part) <= 6280)%R
    ∧ productParts (updatePulseAnimations deltaTime s) !! i = Some part'
    ∧ originalScale (userData part') = Some (scale mesh0)
    ∧ ((pulseTime (userData part) + deltaTime > 6280)%R →
         pulsing (userData part') = false ∧ scale part' = scale mesh0)
    ∧ (¬ (pulseTime (userData part) + deltaTime > 6280)%R →
         pulsing (userData part') = true
         ∧ pulseTime (userData part') = (pulseTime (userData part) + deltaTime)%R
         ∧ scale part' =
             multiplyScalar (scale mesh0)
               (1 + sin (pulseTime (userData part') * 0.01) * 0.05)).
Proof.
  intros HR Hi Hp. destruct (Reachable_Inv _ _ HR) as [s0 HI].
  assert (Hlt : i < length (sc_parts sc)).
  { rewrite <- (inv_length _ _ _ HI). by eapply lookup_lt_Some. }
  destruct (lookup_lt_is_Some_2 _ _ Hlt) as [mesh0 H0].
  pose proof (inv_parts _ _ _ HI i mesh0 part H0 Hi) as HP.
  destruct (pi_pulsing _ _ _ _ _ _ HP Hp) as (_ & Hh & [v Hv] & Ht).
  pose proof (pi_original _ _ _ _ _ _ HP v Hv) as ->.
  exists mesh0, (updatePart deltaTime part).
  split; [done|]. split; [done|]. split; [done|]. split.
  { simpl. rewrite list_lookup_fmap, Hi. done. }
  rewrite (updatePart_pulsing _ _ _ Hp Hh Hv).
  destruct (Rgt_dec _ _) as [Hgt|Hle]; simpl.
  - split; [done|]. split; [done|]. intros Hn. by destruct Hn.
  - split; [done|]. split; [done|]. intros _. done.
Qed.

(** *** Clicks *)

Lemma deselectObject_spec sc s0 s :
  Inv sc s0 s →
  ∃ s1, deselectObject s = Some s1 ∧ Inv sc s0 s1
    ∧ selectedObject s1 = None ∧ panelHidden s1 = true
    ∧ heap s1 = heap s
    ∧ selectionCleared sc s s1.
Proof.
  intros HI. destruct (selectedObject s) as [p|] eqn:Hs.
  - assert (Hlt : p < length (sc_parts sc)) by by eapply inv_selected.
    destruct (Inv_lookup _ _ _ p HI Hlt) as (mesh0 & mesh & H0 & H1 & HP).
    destruct (Inv_stored _ _ _ p HI Hlt) as (r & Hr & _ & Hrl).
    pose proof (deselectObject_unfold s p mesh r Hs H1 Hr) as Hd.
    eexists. split; [exact Hd|].
    destruct (deselectObject_Inv _ _ _ _ HI Hd) as (HI1 & Hn & _ & Hheap).
    split; [done|]. split; [done|]. split; [done|]. split; [done|].
    intros q m0 Hq Hm0. rewrite Hs in Hq. simplify_eq.
    destruct (deselected_spec _ _ _ _ _ _ r HP) as (D1 & D2 & D3 & _).
    exists r, (deselected r mesh). split; [done|]. split; [|done].
    simpl. apply list_lookup_insert_eq. by eapply lookup_lt_Some.
  - exists (hidePartInfo s).
    assert (Hd : deselectObject s = Some (hidePartInfo s)).
    { unfold deselectObject. by rewrite Hs. }
    split; [done|].
    destruct (deselectObject_Inv _ _ _ _ HI Hd) as (HI1 & Hn & _ & Hheap).
    split; [done|]. split; [done|]. split; [done|]. split; [done|].
    intros q m0 Hq. rewrite Hs in Hq. done.
Qed.

(** C4. In every reachable state, a click whose nearest hit is the mesh [m]
    first runs [deselectObject], which leaves no selection and puts the
    previously selected object back to its stored original material and its
    original scale with the pulse flag off, and only then marks [m]: [m] is
    the selected object, carries a fresh selection material and pulses, the
    panel is shown, and a previously selected object other than [m] stays
    cleared.  A click that hits nothing clears the selection the same way,
    leaves no selected object and hides the panel. *)
Theorem click_selects_and_clears sc s :
  Reachable sc s →
  (∀ m rest, m < length (sc_parts sc) →
     ∃ s1 s' meshm,
       deselectObject s = Some s1 ∧ markSelected m s1 = Some s'
       ∧ handleClick (m :: rest) s = Some s'
       ∧ selectedObject s1 = None ∧ selectionCleared sc s s1
       ∧ selectedObject s' = Some m ∧ panelHidden s' = false
       ∧ productParts s' !! m = Some meshm
       ∧ material meshm = length (heap s)
       ∧ pulsing (userData meshm) = true
       ∧ ∀ p, p ≠ m → productParts s' !! p = productParts s1 !! p)
  ∧ ∃ s', handleClick [] s = Some s'
      ∧ selectedObject s' = None ∧ panelHidden s' = true
      ∧ selectionCleared sc s s'.
Proof.
  intros HR. destruct (Reachable_Inv _ _ HR) as [s0 HI].
  destruct (deselectObject_spec _ _ _ HI) as (s1 & Hd & HI1 & Hn & Hpan & Hheap & Hcl).
  split.
  - intros m rest Hlt.
    destruct (Inv_lookup _ _ _ m HI1 Hlt) as (mesh0 & mesh & H0 & H1 & HP).
    destruct (Inv_stored _ _ _ m HI1 Hlt) as (r & Hr & _ & Hrl).
    destruct (lookup_lt_is_Some_2 _ _ Hrl) as [mat Hmat].
    pose proof (markSelected_unfold s1 m mesh r mat H1 Hr Hmat) as Hmk.
    destruct (selected_spec _ _ _ _ _ _ (length (heap s1)) HP)
      as (S1 & _ & S3 & _).
    eexists s1, _, (selected (length (heap s1)) mesh).
    split; [done|]. split; [exact Hmk|]. split.
    { unfold handleClick, selectObject. rewrite Hd. simpl. exact Hmk. }
    split; [done|]. split; [done|].
    split; [done|]. split; [done|]. split.
    { simpl. apply list_lookup_insert_eq. by eapply lookup_lt_Some. }
    split; [by rewrite S1, Hheap|]. split; [done|].
    intros p Hne. simpl. by apply list_lookup_insert_ne.
  - exists s1. done.
Qed.

(** *** Hover *)

Lemma stored_original sc s0 s m mesh0 :
  Inv sc s0 s → sc_parts sc !! m = Some mesh0 →
  ∃ r mat, originalMaterials s !! m = Some r
    ∧ material mesh0 < r ∧ r < length (heap s)
    ∧ sc_materials sc !! material mesh0 = Some mat
    ∧ heap s !! r = Some mat.
Proof.
  intros HI H0.
  pose proof (inv_wf _ _ _ HI) as Hwf. pose proof (inv_start _ _ _ HI) as Hst.
  destruct (start_spec _ _ Hwf Hst) as (_ & _ & _ & _ & Hstored).
  destruct (Hstored m mesh0 H0) as (r & Hr & Hrange & Hcopy).
  destruct (wf_scene_pristine _ _ _ Hwf H0) as (_ & _ & _ & Hm).
  destruct (lookup_lt_is_Some_2 _ _ Hm) as [mat Hmat].
  exists r, mat. rewrite (inv_map _ _ _ HI). split; [done|]. split; [lia|].
  pose proof (prefix_length _ _ (inv_heap _ _ _ HI)). split; [lia|].
  split; [done|]. eapply prefix_lookup_Some; [apply (inv_heap _ _ _ HI)|].
  by rewrite Hcopy.
Qed.

(** C1, as the code has it.  In every reachable state, for a mesh [m] that
    is not the selected object: [originalMaterials] holds for [m] a clone
    [r] taken at construction, a reference other than the one the mesh had
    at build time but with the same parameters.  A pointer move whose
    nearest hit is [m], when [m] is not yet the hovered object, makes [m]
    the hovered object, gives it a fresh material (not [r]) and 1.05 times
    its build-time scale.  A pointer move that hits nothing, when [m] is the
    hovered object, leaves no hovered object and gives [m] the stored
    reference [r] and its build-time scale. *)
Theorem hover_enters_and_leaves sc s m mesh0 rest :
  Reachable sc s → sc_parts sc !! m = Some mesh0 →
  selectedObject s ≠ Some m →
  ∃ r mat,
    originalMaterials s !! m = Some r
    ∧ r ≠ material mesh0
    ∧ sc_materials sc !! material mesh0 = Some mat
    ∧ heap s !! r = Some mat
    ∧ (hoveredObject s ≠ Some m →
         ∃ s1 mesh1, handleHover (m :: rest) s = Some s1
           ∧ hoveredObject s1 = Some m
           ∧ productParts s1 !! m = Some mesh1
           ∧ material mesh1 = length (heap s) ∧ material mesh1 ≠ r
           ∧ heap s1 = heap s ++ [tint 0x4444FF 0.4 mat]
           ∧ scale mesh1 = multiplyScalar (scale mesh0) 1.05)
    ∧ (hoveredObject s = Some m →
         ∃ s2 mesh2, handleHover [] s = Some s2
           ∧ hoveredObject s2 = None
           ∧ productParts s2 !! m = Some mesh2
           ∧ material mesh2 = r
           ∧ heap s2 = heap s
           ∧ scale mesh2 = scale mesh0).
Proof.
  intros HR H0 Hsel. destruct (Reachable_Inv _ _ HR) as [s0 HI].
  destruct (stored_original _ _ _ _ _ HI H0) as (r & mat & Hr & Hlt & Hrl & Hbase & Hmat).
  exists r, mat. split; [done|]. split; [lia|]. split; [done|]. split; [done|].
  assert (Hm : m < length (sc_parts sc)) by by eapply lookup_lt_Some.
  split.
  - intros Hhov. unfold handleHover. rewrite decide_False by done.
    destruct (clearHover_total _ _ _ HI) as [s1 Hc]. rewrite Hc. simpl.
    destruct (clearHover_Inv _ _ _ _ HI Hc) as (HI1 & Hnone & Hs1 & Hh1 & _).
    destruct (Inv_lookup _ _ _ m HI1 Hm) as (m0 & mesh & H0' & H1 & HP).
    assert (m0 = mesh0) as -> by congruence.
    assert (Hr1 : originalMaterials s1 !! m = Some r).
    { by rewrite (inv_map _ _ _ HI1), <- (inv_map _ _ _ HI). }
    rewrite (applyHoverEffect_unfold (set_hoveredObject (Some m) s1) m mesh r mat);
      simpl; [|congruence|done|done|by rewrite Hh1].
    destruct (hovered_spec (length (heap s1)) mesh) as (A1 & A2 & _).
    eexists _, (hovered (length (heap s1)) mesh). split; [done|].
    split; [done|]. split.
    { simpl. apply list_lookup_insert_eq. by eapply lookup_lt_Some. }
    rewrite A1, A2, Hh1. split; [done|]. split; [lia|]. split; [done|].
    f_equal. apply (pi_rest _ _ _ _ _ _ HP).
    + by apply (Hnone m mesh).
    + destruct (pulsing (userData mesh)) eqn:E; [|done].
      destruct (pi_pulsing _ _ _ _ _ _ HP E) as (? & _). congruence.
  - intros Hhov. unfold handleHover, clearHover. rewrite Hhov.
    rewrite decide_False by done.
    destruct (Inv_lookup _ _ _ m HI Hm) as (m0 & mesh & H0' & H1 & HP).
    assert (m0 = mesh0) as -> by congruence.
    rewrite H1, Hr. simpl. eexists _, _. split; [done|]. simpl.
    split; [done|]. split.
    { apply list_lookup_insert_eq. by eapply lookup_lt_Some. }
    simpl. split; [by rewrite restoreScale_material|]. split; [done|].
    rewrite <- (restoreScale_scale0 _ _ _ _ _ _ HP).
    unfold restoreScale. simpl. by destruct (originalScale _).
Qed.

(** *** Evaluation on [chairScene] *)

Lemma chairStart_start : start chairScene = Some chairStart.
Proof. reflexivity. Qed.

Lemma chairStart_reachable : Reachable chairScene chairStart.
Proof. split; [reflexivity|]. exists chairStart, []. split; reflexivity. Qed.

Lemma seatSelected_run : run [Click [0]] chairStart = Some seatSelected.
Proof. reflexivity. Qed.

Lemma seatSelected_reachable : Reachable chairScene seatSelected.
Proof.
  split; [reflexivity|]. exists chairStart, [Click [0]]. split; reflexivity.
Qed.

(** C1 as stated fails on [chairScene].  Hovering the backrest and moving
    off gives it the stored clone at address 4, not the reference 0 it had
    at build time; and a pointer move over the selected seat makes it the
    hovered object while its scale is still the stored original scale. *)
Lemma hover_restores_clone_not_startup_reference :
  ∃ s1 s2 mesh0 mesh2,
    handleHover [1] chairStart = Some s1
    ∧ handleHover [] s1 = Some s2
    ∧ sc_parts chairScene !! 1 = Some mesh0
    ∧ productParts s2 !! 1 = Some mesh2
    ∧ originalMaterials s2 !! 1 = Some (material mesh2)
    ∧ material mesh2 ≠ material mesh0
  ∧ ∃ s3 seat,
    handleHover [0] seatSelected = Some s3
    ∧ hoveredObject s3 = Some 0
    ∧ productParts s3 !! 0 = Some seat
    ∧ originalScale (userData seat) = Some (scale seat).
Proof.
  eexists _, _, _, _.
  split; [reflexivity|]. split; [reflexivity|]. split; [reflexivity|].
  split; [reflexivity|]. split; [reflexivity|]. split; [simpl; lia|].
  eexists _, _. split; [reflexivity|]. split; [reflexivity|].
  split; reflexivity.
Qed.

(** A mesh that was selected while hovered stays in [hoveredObject] when
    the pointer leaves it; once it is deselected, a pointer move over it
    finds it already hovered and applies no effect. *)
Example hover_skipped_after_deselect :
  ∃ s seat,
    run [MouseMove [0]; Click [0]; MouseMove []; Click []; MouseMove [0]] chairStart
    = Some s
    ∧ hoveredObject s = Some 0 ∧ selectedObject s = None
    ∧ productParts s !! 0 = Some seat
    ∧ originalMaterials s !! 0 = Some (material seat)
    ∧ hovering (userData seat) = false
    ∧ originalScale (userData seat) = Some (scale seat).
Proof.
  eexists _, _. split; [vm_compute; reflexivity|].
  split; [reflexivity|]. split; [reflexivity|]. split; [reflexivity|].
  split; [reflexivity|]. split; reflexivity.
Qed.

Lemma hover_enters_and_leaves_witness :
  ∃ s1 mesh1, handleHover [1] chairStart = Some s1
    ∧ productParts s1 !! 1 = Some mesh1
    ∧ material mesh1 = 5
    ∧ scale mesh1 = multiplyScalar unitVector 1.05.
Proof.
  destruct (hover_enters_and_leaves chairScene chairStart 1
              (newMesh "Chair Backrest" 0) [] chairStart_reachable
              eq_refl ltac:(simpl; congruence))
    as (r & mat & _ & _ & _ & _ & Henter & _).
  destruct Henter as (s1 & mesh1 & H1 & _ & H2 & H3 & _ & _ & H4);
    [simpl; congruence|].
  exists s1, mesh1. repeat split; assumption.
Defined.

Lemma selected_immune_to_hover_witness :
  applyHoverEffect 0 seatSelected = Some seatSelected
  ∧ ∀ s', run [MouseMove [0]; MouseMove [1]; MouseLeave] seatSelected = Some s' →
      productParts s' !! 0 = productParts seatSelected !! 0.
Proof.
  destruct (selected_immune_to_hover seatSelected 0 eq_refl) as (H1 & _ & H3).
  split; [exact H1|]. intros s' Hr.
  destruct (H3 [MouseMove [0]; MouseMove [1]; MouseLeave] s' eq_refl Hr)
    as (_ & H & _). exact H.
Defined.

Lemma tinting_never_mutates_shared_witness :
  heap seatSelected !! 0 = Some wood ∧ heap seatSelected !! 3 = Some cushion.
Proof.
  destruct (tinting_never_mutates_shared chairScene seatSelected seatSelected_reachable)
    as (s0 & Hs0 & _ & Hstored & Hbase & _).
  split.
  - apply Hbase. reflexivity.
  - apply Hstored. rewrite chairStart_start in Hs0. injection Hs0 as <-. reflexivity.
Defined.

Lemma pulse_is_bounded_witness :
  ∃ part', productParts (updatePulseAnimations 16 seatSelected) !! 0 = Some part'
    ∧ pulsing (userData part') = true
    ∧ pulseTime (userData part') = (0 + 16)%R.
Proof.
  destruct (pulse_is_bounded chairScene seatSelected 0
              (selected 5 (newMesh "Chair Seat" 1)) 16
              seatSelected_reachable eq_refl eq_refl)
    as (mesh0 & part' & _ & _ & _ & Hp & _ & _ & Hgo).
  exists part'. split; [exact Hp|].
  destruct Hgo as (H1 & H2 & _); [simpl; lra|]. split; assumption.
Defined.

Lemma click_selects_and_clears_witness :
  ∃ s', handleClick [1] seatSelected = Some s'
    ∧ selectedObject s' = Some 1
    ∧ ∃ seat, productParts s' !! 0 = Some seat ∧ material seat = 3
              ∧ scale seat = unitVector ∧ pulsing (userData seat) = false.
Proof.
  destruct (click_selects_and_clears chairScene seatSelected seatSelected_reachable)
    as (Hclick & _).
  destruct (Hclick 1 [] ltac:(simpl; lia))
    as (s1 & s' & meshm & _ & _ & Hc & _ & Hcl & Hsel & _ & _ & _ & _ & Hother).
  exists s'. split; [exact Hc|]. split; [exact Hsel|].
  destruct (Hcl 0 (newMesh "Chair Seat" 1) eq_refl eq_refl)
    as (r & seat & Hr & Hseat & Hmat & Hscale & Hp).
  exists seat. rewrite (Hother 0) by lia. split; [exact Hseat|].
  split; [|split; assumption].
  rewrite Hmat. simpl in Hr. injection Hr as <-. reflexivity.
Defined.


(** ** What a part shows *)

Ltac simpl_state :=
  cbn [heap productParts hoveredObject selectedObject originalMaterials cursor
       panelHidden partNameText set_heap set_productParts set_hoveredObject
       set_selectedObject set_originalMaterials set_cursor set_panelHidden
       set_partNameText hidePartInfo].

Lemma breathScale_0 : breathScale 0 = 1.05%R.
Proof. unfold breathScale. rewrite Rmult_0_l, sin_0. lra. Qed.

Lemma pulseScale_0 : pulseScale 0 = 1%R.
Proof. unfold pulseScale. rewrite Rmult_0_l, sin_0. lra. Qed.

Lemma multiplyScalar_1 (v : Vector3) : multiplyScalar v 1 = v.
Proof. apply Vector3_eq; simpl; lra. Qed.

Lemma baseMaterial_stored sc s0 s i base :
  Inv sc s0 s → baseMaterial sc i = Some base →
  ∃ r, originalMaterials s !! i = Some r ∧ heap s !! r = Some base.
Proof.
  intros HI Hb. unfold baseMaterial in Hb.
  destruct (sc_parts sc !! i) as [mesh0|] eqn:H0; simpl in Hb; [|done].
  destruct (stored_original _ _ _ _ _ HI H0) as (r & mat & Hr & _ & _ & Hm & Hh).
  exists r. split; [done|]. congruence.
Qed.

Lemma Shown_set_part sc s0 s s' i mesh' :
  Inv sc s0 s → Shown sc s →
  productParts s' = <[i := mesh']> (productParts s) →
  heap s `prefix_of` heap s' →
  (∀ mesh0 base, sc_parts sc !! i = Some mesh0 → baseMaterial sc i = Some base →
     heap s' !! material mesh' = Some (lookOf (selectedObject s') i mesh' base)
     ∧ scaleLaw (scale mesh0) mesh') →
  (∀ j, j ≠ i → bool_decide (selectedObject s' = Some j)
                = bool_decide (selectedObject s = Some j)) →
  Shown sc s'.
Proof.
  intros HI HS Hparts Hheap Hi Hj j mesh0 mesh base H0 H1 Hb.
  rewrite Hparts in H1. destruct (decide (i = j)) as [->|Hne].
  - rewrite list_lookup_insert_eq in H1.
    + simplify_eq. by apply Hi.
    + rewrite (inv_length _ _ _ HI). by eapply lookup_lt_Some.
  - rewrite list_lookup_insert_ne in H1 by done.
    destruct (HS j mesh0 mesh base H0 H1 Hb) as [Hl Hsc]. split; [|done].
    unfold lookOf in *. rewrite Hj by done.
    eapply prefix_lookup_Some; [exact Hheap|exact Hl].
Qed.

Lemma Shown_same_parts sc s s' :
  Shown sc s → productParts s' = productParts s → heap s' = heap s →
  selectedObject s' = selectedObject s → Shown sc s'.
Proof.
  intros HS Hp Hh Hs i mesh0 mesh base H0 H1 Hb. rewrite Hp in H1.
  rewrite Hh, Hs. by apply HS.
Qed.

Lemma Shown_start sc s0 : wf_scene sc = true → start sc = Some s0 → Shown sc s0.
Proof.
  intros Hwf Hs i mesh0 mesh base H0 H1 Hb.
  destruct (start_spec sc s0 Hwf Hs) as (Hp & _ & Hsel & Hpre & _).
  rewrite Hp in H1. simplify_eq.
  destruct (wf_scene_pristine sc i mesh0 Hwf H0) as (_ & Hhv & Hpl & _).
  unfold baseMaterial in Hb. rewrite H0 in Hb. simpl in Hb.
  split.
  - unfold lookOf. rewrite Hsel, Hhv. rewrite bool_decide_eq_false_2 by done.
    by eapply prefix_lookup_Some.
  - split; intros E; congruence.
Qed.

Lemma clearHover_unfold s h mesh orig :
  hoveredObject s = Some h → selectedObject s ≠ Some h →
  productParts s !! h = Some mesh → originalMaterials s !! h = Some orig →
  clearHover s =
    Some (set_cursor CursorDefault
            (set_hoveredObject None
               (set_productParts (<[h := unhovered orig mesh]> (productParts s)) s))).
Proof.
  intros Hh Hs Hm Ho. unfold clearHover. rewrite Hh.
  rewrite decide_False by done. rewrite Hm. simpl. rewrite Ho. done.
Qed.

Lemma clearHover_skip s :
  (hoveredObject s = None ∨ hoveredObject s = selectedObject s) →
  clearHover s = Some (set_cursor CursorDefault s).
Proof.
  intros H. unfold clearHover. destruct (hoveredObject s) as [h|] eqn:Hh; [|done].
  destruct H as [H|H]; [done|]. by rewrite decide_True.
Qed.

Lemma unhovered_spec hov sel hlen i mesh0 mesh orig :
  PartInv hov sel hlen i mesh0 mesh →
  material (unhovered orig mesh) = orig
  ∧ scale (unhovered orig mesh) = scale mesh0
  ∧ hovering (userData (unhovered orig mesh)) = false
  ∧ pulsing (userData (unhovered orig mesh)) = pulsing (userData mesh)
  ∧ pulseTime (userData (unhovered orig mesh)) = pulseTime (userData mesh).
Proof.
  intros HP. unfold unhovered. simpl.
  rewrite restoreScale_material, ?restoreScale_userData. simpl.
  split; [done|]. split; [|done].
  rewrite <- (restoreScale_scale0 _ _ _ _ _ _ HP).
  unfold restoreScale. simpl. by destruct (originalScale _).
Qed.

Lemma clearHover_Shown sc s0 s s' :
  Inv sc s0 s → Shown sc s → clearHover s = Some s' → Shown sc s'.
Proof.
  intros HI HS Hc.
  destruct (hoveredObject s) as [h|] eqn:Hh.
  - destruct (decide (selectedObject s = Some h)) as [Hs|Hs].
    + rewrite clearHover_skip in Hc by (right; congruence).
      injection Hc as <-. by eapply Shown_same_parts.
    + assert (Hlt : h < length (sc_parts sc)) by by eapply inv_hovered.
      destruct (Inv_lookup _ _ _ h HI Hlt) as (mesh0 & mesh & H0 & H1 & HP).
      destruct (Inv_stored _ _ _ h HI Hlt) as (r & Hr & _ & Hrl).
      rewrite (clearHover_unfold s h mesh r Hh Hs H1 Hr) in Hc. injection Hc as <-.
      destruct (unhovered_spec _ _ _ _ _ _ r HP) as (U1 & U2 & U3 & U4 & U5).
      eapply Shown_set_part with (s := s) (i := h); [exact HI|exact HS|done|done|..].
      * intros m0 base Hm0 Hb. simplify_eq. simpl_state. split.
        -- unfold lookOf. rewrite U1, U3. rewrite bool_decide_eq_false_2 by done.
           destruct (baseMaterial_stored _ _ _ _ _ HI Hb) as (r' & Hr' & Hbase).
           congruence.
        -- split; [congruence|]. rewrite U4. intros E.
           destruct (pi_pulsing _ _ _ _ _ _ HP E) as (? & _). done.
      * done.
  - rewrite clearHover_skip in Hc by by left.
    injection Hc as <-. by eapply Shown_same_parts.
Qed.

Lemma applyHoverEffect_Shown sc s0 s s' m :
  Inv sc s0 s → Shown sc s → noneHovering s →
  applyHoverEffect m (set_hoveredObject (Some m) s) = Some s' → Shown sc s'.
Proof.
  intros HI HS Hnone Ha.
  destruct (decide (selectedObject s = Some m)) as [Hs|Hs].
  - unfold applyHoverEffect in Ha. simpl in Ha. rewrite decide_True in Ha by done.
    injection Ha as <-. by eapply Shown_same_parts.
  - assert (Hlt : m < length (sc_parts sc)).
    { unfold applyHoverEffect in Ha. simpl in Ha. rewrite decide_False in Ha by done.
      destruct (originalMaterials s !! m) as [r|]; simpl in Ha; [|done].
      destruct (clone (heap s) r) as [[h' r']|]; simpl in Ha; [|done].
      destruct (productParts s !! m) as [mesh|] eqn:Hm; simpl in Ha; [|done].
      rewrite <- (inv_length _ _ _ HI). by eapply lookup_lt_Some. }
    destruct (Inv_lookup _ _ _ m HI Hlt) as (mesh0 & mesh & H0 & H1 & HP).
    destruct (stored_original _ _ _ _ _ HI H0) as (r & mat & Hr & _ & _ & Hbase & Hmat).
    rewrite (applyHoverEffect_unfold (set_hoveredObject (Some m) s) m mesh r mat)
      in Ha by done.
    injection Ha as <-.
    destruct (hovered_spec (length (heap s)) mesh) as (A1 & A2 & A3 & A4 & _).
    eapply Shown_set_part with (s := s) (i := m); [exact HI|exact HS|done|..];
      simpl_state.
    + by apply prefix_app_r.
    + intros m0 base Hm0 Hb. simplify_eq.
      unfold baseMaterial in Hb. rewrite H0 in Hb. simpl in Hb.
      assert (base = mat) as -> by congruence.
      split.
      * unfold lookOf. rewrite A1, A3. rewrite bool_decide_eq_false_2 by done.
        rewrite lookup_app_r by done. by rewrite Nat.sub_diag.
      * assert (Hp : pulsing (userData mesh) = false).
        { destruct (pulsing (userData mesh)) eqn:E; [|done].
          destruct (pi_pulsing _ _ _ _ _ _ HP E) as (? & _). done. }
        split.
        -- intros _. rewrite A2.
           replace (hoverTime (userData (hovered (length (heap s)) mesh))) with 0%R.
           ++ rewrite breathScale_0. f_equal.
              apply (pi_rest _ _ _ _ _ _ HP); [by apply (Hnone m mesh)|done].
           ++ unfold hovered, rememberScale. simpl.
              by destruct (originalScale (userData mesh)).
        -- rewrite A4, Hp. done.
    + done.
Qed.

Lemma deselectObject_Shown sc s0 s s' :
  Inv sc s0 s → Shown sc s → deselectObject s = Some s' → Shown sc s'.
Proof.
  intros HI HS Hd. destruct (selectedObject s) as [p|] eqn:Hs.
  - assert (Hlt : p < length (sc_parts sc)) by by eapply inv_selected.
    destruct (Inv_lookup _ _ _ p HI Hlt) as (mesh0 & mesh & H0 & H1 & HP).
    destruct (Inv_stored _ _ _ p HI Hlt) as (r & Hr & _ & Hrl).
    rewrite (deselectObject_unfold s p mesh r Hs H1 Hr) in Hd. injection Hd as <-.
    destruct (deselected_spec _ _ _ _ _ _ r HP) as (D1 & D2 & D3 & D4 & _).
    eapply Shown_set_part with (s := s) (i := p); [exact HI|exact HS|done|done|..];
      simpl_state.
    + intros m0 base Hm0 Hb. simplify_eq. split.
      * unfold lookOf. rewrite D1, D4. simpl.
        destruct (baseMaterial_stored _ _ _ _ _ HI Hb) as (r' & Hr' & Hbase).
        congruence.
      * split; congruence.
    + intros j Hne. rewrite Hs. rewrite !bool_decide_eq_false_2; [done|congruence|done].
  - unfold deselectObject in Hd. rewrite Hs in Hd. injection Hd as <-.
    by eapply Shown_same_parts.
Qed.

Lemma markSelected_Shown sc s0 s s' m :
  Inv sc s0 s → Shown sc s → selectedObject s = None →
  markSelected m s = Some s' → Shown sc s'.
Proof.
  intros HI HS Hnone Hmk.
  assert (Hlt : m < length (sc_parts sc)).
  { unfold markSelected, applySelectionEffect in Hmk. simpl in Hmk.
    destruct (originalMaterials s !! m) as [r|]; simpl in Hmk; [|done].
    destruct (clone (heap s) r) as [[h' r']|]; simpl in Hmk; [|done].
    destruct (productParts s !! m) as [mesh|] eqn:Hm; simpl in Hmk; [|done].
    rewrite <- (inv_length _ _ _ HI). by eapply lookup_lt_Some. }
  destruct (Inv_lookup _ _ _ m HI Hlt) as (mesh0 & mesh & H0 & H1 & HP).
  destruct (stored_original _ _ _ _ _ HI H0) as (r & mat & Hr & _ & _ & Hbase & Hmat).
  rewrite (markSelected_unfold s m mesh r mat H1 Hr Hmat) in Hmk.
  injection Hmk as <-.
  destruct (selected_spec _ _ _ _ _ _ (length (heap s)) HP)
    as (S1 & S2 & S3 & S4 & S5 & _).
  assert (Hht : hoverTime (userData (selected (length (heap s)) mesh))
                = hoverTime (userData mesh)).
  { unfold selected, addPulseAnimation_mesh, rememberScale. simpl.
    destruct (hovering (userData mesh)); simpl;
      by destruct (originalScale (userData mesh)). }
  destruct (HS m mesh0 mesh mat H0 H1) as [_ [Hhv Hpl]].
  { unfold baseMaterial. rewrite H0. done. }
  eapply Shown_set_part with (s := s) (i := m); [exact HI|exact HS|done|..];
    simpl_state.
  - by apply prefix_app_r.
  - intros m0 base Hm0 Hb. simplify_eq.
    unfold baseMaterial in Hb. rewrite H0 in Hb. simpl in Hb.
    assert (base = mat) as -> by congruence.
    split.
    + unfold lookOf. rewrite S1. rewrite bool_decide_eq_true_2 by done.
      rewrite lookup_app_r by done. by rewrite Nat.sub_diag.
    + split; [congruence|]. intros _. rewrite S2, S4, Hht.
      destruct (hovering (userData mesh)) eqn:E.
      * right. split; [done|]. by apply Hhv.
      * left. rewrite pulseScale_0, multiplyScalar_1.
        apply (pi_rest _ _ _ _ _ _ HP); [done|].
        destruct (pulsing (userData mesh)) eqn:E'; [|done].
        destruct (pi_pulsing _ _ _ _ _ _ HP E') as (? & _). congruence.
  - intros j Hne. rewrite Hnone. rewrite !bool_decide_eq_false_2; [done|done|congruence].
Qed.

Lemma updatePart_Shown hov sel hlen i mesh0 mesh deltaTime :
  PartInv hov sel hlen i mesh0 mesh →
  scaleLaw (scale mesh0) mesh →
  material (updatePart deltaTime mesh) = material mesh
  ∧ hovering (userData (updatePart deltaTime mesh)) = hovering (userData mesh)
  ∧ scaleLaw (scale mesh0) (updatePart deltaTime mesh).
Proof.
  intros HP [Hhv Hpl].
  destruct (pulsing (userData mesh)) eqn:Hp.
  - destruct (pi_pulsing _ _ _ _ _ _ HP Hp) as (_ & Hh & [v Hv] & _).
    rewrite (updatePart_pulsing _ _ v Hp Hh Hv).
    pose proof (pi_original _ _ _ _ _ _ HP v Hv) as ->.
    destruct (Rgt_dec _ _); simpl; (split; [done|split; [done|]]);
      (split; simpl; [congruence|]); [done|]. intros _. by left.
  - destruct (hovering (userData mesh)) eqn:Hh.
    + rewrite (updatePart_hovering _ _ Hp Hh). simpl.
      split; [done|]. split; [done|]. split; simpl; [|congruence].
      intros _. unfold baseScale.
      destruct (pi_hovering _ _ _ _ _ _ HP Hh) as (_ & _ & [v Hv]).
      rewrite Hv. simpl. by rewrite (pi_original _ _ _ _ _ _ HP v Hv).
    + rewrite updatePart_not_animated by done. rewrite Hh.
      split; [done|]. split; [done|]. split; congruence.
Qed.

Lemma updatePulseAnimations_Shown sc s0 s deltaTime :
  Inv sc s0 s → Shown sc s → Shown sc (updatePulseAnimations deltaTime s).
Proof.
  intros HI HS i mesh0 mesh base H0 H1 Hb. simpl in *.
  rewrite list_lookup_fmap in H1.
  destruct (productParts s !! i) as [m|] eqn:Hm; simpl in H1; [|done].
  injection H1 as <-.
  destruct (HS i mesh0 m base H0 Hm Hb) as [Hl Hsc].
  destruct (updatePart_Shown _ _ _ _ _ _ deltaTime (inv_parts _ _ _ HI i mesh0 m H0 Hm) Hsc)
    as (U1 & U2 & U3).
  split; [|done]. unfold lookOf in *. by rewrite U1, U2.
Qed.

Lemma handle_Shown sc s0 s s' e :
  Inv sc s0 s → Shown sc s → handle e s = Some s' → Shown sc s'.
Proof.
  intros HI HS. destruct e as [intersects|intersects| | |deltaTime]; simpl.
  - unfold handleHover. destruct intersects as [|m rest].
    + by apply (clearHover_Shown sc s0).
    + destruct (decide (hoveredObject s = Some m)); [by intros [= <-]|].
      destruct (clearHover s) as [s1|] eqn:Hc; simpl; [|done].
      destruct (clearHover_Inv _ _ _ _ HI Hc) as (HI1 & Hnone & _).
      pose proof (clearHover_Shown _ _ _ _ HI HS Hc) as HS1.
      destruct (applyHoverEffect m _) as [s2|] eqn:Ha; simpl; [|done].
      intros [= <-].
      pose proof (applyHoverEffect_Shown _ _ _ _ _ HI1 HS1 Hnone Ha) as HS2.
      by eapply Shown_same_parts.
  - unfold handleClick, selectObject. destruct intersects as [|m rest].
    + by apply (deselectObject_Shown sc s0).
    + destruct (deselectObject s) as [s1|] eqn:Hd; simpl; [|done].
      destruct (deselectObject_Inv _ _ _ _ HI Hd) as (HI1 & Hn & _).
      pose proof (deselectObject_Shown _ _ _ _ HI HS Hd) as HS1.
      by apply (markSelected_Shown sc s0 s1 s' m HI1 HS1 Hn).
  - by apply (clearHover_Shown sc s0).
  - intros [= <-]. by eapply Shown_same_parts.
  - intros [= <-]. by eapply updatePulseAnimations_Shown.
Qed.

Lemma run_Shown sc s0 es : ∀ s s',
  Inv sc s0 s → Shown sc s → run es s = Some s' → Shown sc s'.
Proof.
  induction es as [|e es IH]; intros s s' HI HS; simpl.
  - by intros [= <-].
  - destruct (handle e s) as [s1|] eqn:He; simpl; [|done].
    apply IH; [by eapply handle_Inv|by eapply handle_Shown].
Qed.

Lemma Reachable_Shown sc s : Reachable sc s → Shown sc s.
Proof.
  intros (Hwf & s0 & es & Hs & Hr).
  eapply run_Shown; [by apply Inv_start|by apply Shown_start|exact Hr].
Qed.

Lemma Reachable_lookup sc s i mesh :
  Reachable sc s → productParts s !! i = Some mesh →
  ∃ s0 mesh0 base, Inv sc s0 s ∧ sc_parts sc !! i = Some mesh0
    ∧ baseMaterial sc i = Some base
    ∧ PartInv (hoveredObject s) (selectedObject s) (length (heap s)) i mesh0 mesh.
Proof.
  intros HR Hi. destruct (Reachable_Inv _ _ HR) as [s0 HI].
  assert (Hlt : i < length (sc_parts sc)).
  { rewrite <- (inv_length _ _ _ HI). by eapply lookup_lt_Some. }
  destruct (lookup_lt_is_Some_2 _ _ Hlt) as [mesh0 H0].
  destruct (wf_scene_pristine _ _ _ (inv_wf _ _ _ HI) H0) as (_ & _ & _ & Hm).
  destruct (lookup_lt_is_Some_2 _ _ Hm) as [base Hb].
  exists s0, mesh0, base. split; [done|]. split; [done|]. split.
  - unfold baseMaterial. rewrite H0. done.
  - by apply (inv_parts _ _ _ HI).
Qed.

(** X1. In every reachable state the material a mesh points at has the
    parameters that go with its state: the build-time parameters with the
    selection tint (emissive 0x4444FF, intensity 0.5) on the selected
    object, with the hover tint (intensity 0.4) on a hovering part, and
    untinted on every other part. *)
Theorem part_shows_its_state sc s i mesh :
  Reachable sc s → productParts s !! i = Some mesh →
  ∃ base, baseMaterial sc i = Some base
    ∧ heap s !! material mesh = Some (lookOf (selectedObject s) i mesh base).
Proof.
  intros HR Hi.
  destruct (Reachable_lookup _ _ _ _ HR Hi) as (s0 & mesh0 & base & _ & H0 & Hb & _).
  exists base. split; [done|].
  by destruct (Reachable_Shown _ _ HR i mesh0 mesh base H0 Hi Hb).
Qed.

Lemma breathScale_bounds (t : R) : (1.04 <= breathScale t <= 1.06)%R.
Proof. unfold breathScale. pose proof (SIN_bound (t * 0.005)). lra. Qed.

Lemma pulseScale_bounds (t : R) : (0.95 <= pulseScale t <= 1.05)%R.
Proof. unfold pulseScale. pose proof (SIN_bound (t * 0.01)). lra. Qed.

(** X2. In every reachable state the scale of a part is its build-time
    scale times one factor [k] between 0.95 and 1.06: exactly 1 on a part
    that neither hovers nor pulses, [1.05 + sin (hoverTime * 0.005) * 0.01]
    on a hovering part, and [1 + sin (pulseTime * 0.01) * 0.05] on a pulsing
    part once a frame has advanced its [pulseTime].  The 5% enlargement of
    [applyHoverEffect] never accumulates. *)
Theorem scale_stays_near_original sc s i mesh :
  Reachable sc s → productParts s !! i = Some mesh →
  ∃ mesh0 k,
    sc_parts sc !! i = Some mesh0
    ∧ scale mesh = multiplyScalar (scale mesh0) k
    ∧ (0.95 <= k <= 1.06)%R
    ∧ (hovering (userData mesh) = true →
         k = breathScale (hoverTime (userData mesh)))
    ∧ (hovering (userData mesh) = false → pulsing (userData mesh) = false →
         k = 1%R)
    ∧ (pulsing (userData mesh) = true → pulseTime (userData mesh) ≠ 0%R →
         k = pulseScale (pulseTime (userData mesh))).
Proof.
  intros HR Hi.
  destruct (Reachable_lookup _ _ _ _ HR Hi) as (s0 & mesh0 & base & _ & H0 & Hb & HP).
  destruct (Reachable_Shown _ _ HR i mesh0 mesh base H0 Hi Hb) as [_ [Hhv Hpl]].
  exists mesh0.
  destruct (hovering (userData mesh)) eqn:Eh.
  - exists (breathScale (hoverTime (userData mesh))).
    destruct (pi_hovering _ _ _ _ _ _ HP Eh) as (_ & Hsel & _).
    assert (Hp : pulsing (userData mesh) = false).
    { destruct (pulsing (userData mesh)) eqn:E; [|done].
      destruct (pi_pulsing _ _ _ _ _ _ HP E) as (? & _). done. }
    pose proof (breathScale_bounds (hoverTime (userData mesh))).
    split; [done|]. split; [by apply Hhv|]. split; [lra|].
    split; [done|]. split; [done|]. congruence.
  - destruct (pulsing (userData mesh)) eqn:Ep.
    + destruct (Hpl eq_refl) as [Hs|[Ht Hs]].
      * exists (pulseScale (pulseTime (userData mesh))).
        pose proof (pulseScale_bounds (pulseTime (userData mesh))).
        split; [done|]. split; [done|]. split; [lra|].
        split; [done|]. split; done.
      * exists (breathScale (hoverTime (userData mesh))).
        pose proof (breathScale_bounds (hoverTime (userData mesh))).
        split; [done|]. split; [done|]. split; [lra|].
        split; [done|]. split; [done|]. intros _ Hne. done.
    + exists 1%R. split; [done|]. split.
      { rewrite multiplyScalar_1. by apply (pi_rest _ _ _ _ _ _ HP). }
      split; [lra|]. split; [done|]. split; done.
Qed.

(** *** Hover and pulse bookkeeping *)

Lemma clearHover_cursor s s' : clearHover s = Some s' → cursor s' = CursorDefault.
Proof.
  unfold clearHover. destruct (hoveredObject s) as [h|]; simpl.
  - destruct (decide _); simpl; [by intros [= <-]|].
    destruct (productParts s !! h); simpl; [|done].
    destruct (originalMaterials s !! h); simpl; [|done]. by intros [= <-].
  - by intros [= <-].
Qed.

Lemma applyHoverEffect_hovered s s' m :
  applyHoverEffect m s = Some s' → hoveredObject s' = hoveredObject s.
Proof.
  unfold applyHoverEffect. destruct (decide _); [by intros [= <-]|].
  destruct (originalMaterials s !! m); simpl; [|done].
  destruct (clone (heap s) n0) as [[??]|]; simpl; [|done].
  destruct (productParts s !! m); simpl; [|done]. by intros [= <-].
Qed.

Lemma handleClick_cursor s s' intersects :
  handleClick intersects s = Some s' →
  cursor s' = cursor s ∧ hoveredObject s' = hoveredObject s.
Proof.
  assert (Hd : ∀ s s', deselectObject s = Some s' →
            cursor s' = cursor s ∧ hoveredObject s' = hoveredObject s).
  { intros t t' H.
    unfold deselectObject, clearSelectionEffect, removePulseAnimation in H.
    destruct (selectedObject t) as [p|]; simplify_option_eq; done. }
  assert (Hm : ∀ m s s', markSelected m s = Some s' →
            cursor s' = cursor s ∧ hoveredObject s' = hoveredObject s).
  { intros m t t' H.
    unfold markSelected, applySelectionEffect, showPartInfo, addPulseAnimation,
      clone in H.
    simplify_option_eq. done. }
  unfold handleClick, selectObject. destruct intersects as [|m rest]; [apply Hd|].
  destruct (deselectObject s) as [s1|] eqn:E; simpl; [|done].
  intros Hmk. destruct (Hd _ _ E) as [<- <-]. by apply (Hm m).
Qed.

Lemma handle_cursorTracksHover s s' e :
  cursorTracksHover s → handle e s = Some s' → cursorTracksHover s'.
Proof.
  unfold cursorTracksHover. intros HC.
  destruct e as [intersects|intersects| | |deltaTime]; simpl.
  - unfold handleHover. destruct intersects as [|m rest].
    + intros Hc. rewrite (clearHover_cursor _ _ Hc). done.
    + destruct (decide _); [by intros [= <-]|].
      destruct (clearHover s) as [s1|]; simpl; [|done].
      destruct (applyHoverEffect m _) as [s2|] eqn:Ha; simpl; [|done].
      intros [= <-] _. simpl. rewrite (applyHoverEffect_hovered _ _ _ Ha). simpl. eauto.
  - intros Hc. destruct (handleClick_cursor _ _ _ Hc) as [-> ->]. done.
  - intros Hc. rewrite (clearHover_cursor _ _ Hc). done.
  - by intros [= <-].
  - by intros [= <-].
Qed.

Lemma Reachable_cursorTracksHover sc s : Reachable sc s → cursorTracksHover s.
Proof.
  intros (Hwf & s0 & es & Hs & Hr).
  assert (H0 : cursorTracksHover s0).
  { unfold start, construct, storeMaterials in Hs. simpl in Hs.
    destruct (storeMaterials_from _ _ _ _) as [[??]|]; simpl in Hs; [|done].
    injection Hs as <-. unfold cursorTracksHover. done. }
  clear Hs. revert s0 H0 Hr. induction es as [|e es IH]; intros s0 H0; simpl.
  - by intros [= <-].
  - destruct (handle e s0) as [s1|] eqn:He; simpl; [|done].
    apply IH. by eapply handle_cursorTracksHover.
Qed.

(** X3. In every reachable state: a part whose [hovering] flag is set is
    the hovered object, is not the selected object and does not pulse; a
    part whose [pulsing] flag is set is the selected object; so at most one
    part hovers and at most one pulses.  The canvas shows the pointer cursor
    only while some mesh is recorded as hovered. *)
Theorem hover_and_pulse_are_exclusive sc s :
  Reachable sc s →
  (∀ i mesh, productParts s !! i = Some mesh → hovering (userData mesh) = true →
     hoveredObject s = Some i ∧ selectedObject s ≠ Some i
     ∧ pulsing (userData mesh) = false)
  ∧ (∀ i mesh, productParts s !! i = Some mesh → pulsing (userData mesh) = true →
       selectedObject s = Some i)
  ∧ (∀ i j mi mj, productParts s !! i = Some mi → productParts s !! j = Some mj →
       (hovering (userData mi) = true ∧ hovering (userData mj) = true
        ∨ pulsing (userData mi) = true ∧ pulsing (userData mj) = true) → i = j)
  ∧ (cursor s = CursorPointer → is_Some (hoveredObject s)).
Proof.
  intros HR.
  assert (Hh : ∀ i mesh, productParts s !! i = Some mesh →
            hovering (userData mesh) = true →
            hoveredObject s = Some i ∧ selectedObject s ≠ Some i
            ∧ pulsing (userData mesh) = false).
  { intros i mesh Hi E.
    destruct (Reachable_lookup _ _ _ _ HR Hi) as (s0 & mesh0 & base & _ & _ & _ & HP).
    destruct (pi_hovering _ _ _ _ _ _ HP E) as (H1 & H2 & _).
    split; [done|]. split; [done|].
    destruct (pulsing (userData mesh)) eqn:Ep; [|done].
    destruct (pi_pulsing _ _ _ _ _ _ HP Ep) as (_ & ? & _). congruence. }
  assert (Hp : ∀ i mesh, productParts s !! i = Some mesh →
            pulsing (userData mesh) = true → selectedObject s = Some i).
  { intros i mesh Hi E.
    destruct (Reachable_lookup _ _ _ _ HR Hi) as (s0 & mesh0 & base & _ & _ & _ & HP).
    by destruct (pi_pulsing _ _ _ _ _ _ HP E) as (? & _). }
  split; [done|]. split; [done|]. split.
  - intros i j mi mj Hi Hj [[E1 E2]|[E1 E2]].
    + destruct (Hh _ _ Hi E1) as (A & _). destruct (Hh _ _ Hj E2) as (B & _). congruence.
    + pose proof (Hp _ _ Hi E1). pose proof (Hp _ _ Hj E2). congruence.
  - by apply (Reachable_cursorTracksHover sc).
Qed.

(** *** The info panel *)

Lemma clearHover_panel s s' :
  clearHover s = Some s' →
  panelHidden s' = panelHidden s ∧ partNameText s' = partNameText s
  ∧ selectedObject s' = selectedObject s.
Proof.
  intros H. unfold clearHover in H.
  destruct (hoveredObject s) as [h|]; simplify_option_eq; done.
Qed.

Lemma applyHoverEffect_panel s s' m :
  applyHoverEffect m s = Some s' →
  panelHidden s' = panelHidden s ∧ partNameText s' = partNameText s
  ∧ selectedObject s' = selectedObject s.
Proof.
  intros H. unfold applyHoverEffect, clone in H. simplify_option_eq; done.
Qed.

Lemma handleHover_panel s s' intersects :
  handleHover intersects s = Some s' →
  panelHidden s' = panelHidden s ∧ partNameText s' = partNameText s
  ∧ selectedObject s' = selectedObject s.
Proof.
  unfold handleHover. destruct intersects as [|m rest]; [apply clearHover_panel|].
  destruct (decide _); [by intros [= <-]|].
  destruct (clearHover s) as [s1|] eqn:Hc; simpl; [|done].
  destruct (applyHoverEffect m _) as [s2|] eqn:Ha; simpl; [|done].
  intros [= <-]. simpl.
  destruct (clearHover_panel _ _ Hc) as (<- & <- & <-).
  by destruct (applyHoverEffect_panel _ _ _ Ha) as (-> & -> & ->).
Qed.

Lemma handle_panelNamesSelection sc s0 s s' e :
  Inv sc s0 s → panelNamesSelection sc s → handle e s = Some s' →
  panelNamesSelection sc s'.
Proof.
  intros HI HP. destruct e as [intersects|intersects| | |deltaTime]; simpl.
  - intros H. destruct (handleHover_panel _ _ _ H) as (A & B & C).
    unfold panelNamesSelection. rewrite A, B, C. exact HP.
  - unfold handleClick, selectObject. destruct intersects as [|m rest].
    + intros Hd. destruct (deselectObject_spec _ _ _ HI) as (s1 & Hd' & _ & _ & Hh & _).
      assert (s1 = s') as -> by congruence.
      intros E. congruence.
    + destruct (deselectObject_spec _ _ _ HI) as (s1 & Hd & HI1 & Hn & _).
      rewrite Hd. simpl. intros Hmk.
      assert (Hlt : m < length (sc_parts sc)).
      { destruct (markSelected_Inv _ _ _ _ _ HI1 Hn Hmk) as (HI2 & Hs2 & _).
        by apply (inv_selected _ _ _ HI2). }
      destruct (Inv_lookup _ _ _ m HI1 Hlt) as (mesh0 & mesh & H0 & H1 & HPm).
      destruct (Inv_stored _ _ _ m HI1 Hlt) as (r & Hr & _ & Hrl).
      destruct (lookup_lt_is_Some_2 _ _ Hrl) as [mat Hmat].
      rewrite (markSelected_unfold s1 m mesh r mat H1 Hr Hmat) in Hmk.
      injection Hmk as <-. intros _. exists m, mesh0.
      split; [done|]. split; [done|]. simpl.
      unfold displayName. by rewrite (pi_name _ _ _ _ _ _ HPm).
  - intros H. destruct (clearHover_panel _ _ H) as (A & B & C).
    unfold panelNamesSelection. rewrite A, B, C. exact HP.
  - intros [= <-]. intros E. done.
  - intros [= <-]. exact HP.
Qed.

(** X4. Over a page whose info panel starts hidden, in every reachable
    state in which the panel is visible a part is selected and the panel
    text is that part's display name: the name it was built with, or
    'Unknown Part' when that name is empty. *)
Theorem panel_names_the_selection sc s :
  Reachable sc s → sc_hidden sc = true → panelHidden s = false →
  ∃ m mesh0, selectedObject s = Some m ∧ sc_parts sc !! m = Some mesh0
    ∧ partNameText s = displayName mesh0.
Proof.
  intros (Hwf & s0 & es & Hs & Hr) Hhid.
  assert (H0 : panelNamesSelection sc s0).
  { unfold start, construct, storeMaterials in Hs. simpl in Hs.
    destruct (storeMaterials_from _ _ _ _) as [[??]|]; simpl in Hs; [|done].
    injection Hs as <-. intros E. simpl in E. congruence. }
  pose proof (Inv_start _ _ Hwf Hs) as HI.
  assert (Hgen : ∀ t, Inv sc s0 t → panelNamesSelection sc t →
            run es t = Some s → panelNamesSelection sc s).
  { clear Hs HI H0 Hr. induction es as [|e es IH]; intros t HI HP; simpl.
    - by intros [= <-].
    - destruct (handle e t) as [t1|] eqn:He; simpl; [|done].
      apply IH; [by eapply handle_Inv|by eapply handle_panelNamesSelection]. }
  by apply (Hgen s0).
Qed.

(** *** The pulse over several frames *)

Lemma run_frames (deltas : list R) : ∀ s,
  run (frames deltas) s
  = Some (foldl (λ s d, updatePulseAnimations d s) s deltas).
Proof.
  induction deltas as [|d ds IH]; intros s; [done|]. simpl. apply IH.
Qed.

Lemma updatePart_keeps_not_pulsing deltaTime part :
  pulsing (userData part) = false →
  pulsing (userData (updatePart deltaTime part)) = false.
Proof.
  intros Hp. unfold updatePart, pulseStep. rewrite Hp.
  unfold breathStep. rewrite Hp.
  by destruct (hovering (userData part)).
Qed.

Lemma Reachable_frame sc s d :
  Reachable sc s → Reachable sc (updatePulseAnimations d s).
Proof. intros HR. by apply (Reachable_handle sc s _ (Frame d)). Qed.

Lemma pulse_accumulates sc (deltas : list R) : ∀ s i part,
  Reachable sc s → productParts s !! i = Some part →
  ∃ part', productParts (foldl (λ s d, updatePulseAnimations d s) s deltas) !! i
           = Some part'
    ∧ (pulsing (userData part') = true →
         pulsing (userData part) = true
         ∧ pulseTime (userData part')
           = (pulseTime (userData part) + sumDeltas deltas)%R).
Proof.
  induction deltas as [|d ds IH]; intros s i part HR Hi; simpl.
  - exists part. split; [done|]. intros E. split; [done|]. lra.
  - assert (H1 : productParts (updatePulseAnimations d s) !! i
                 = Some (updatePart d part)).
    { simpl. by rewrite list_lookup_fmap, Hi. }
    destruct (IH _ i _ (Reachable_frame _ _ d HR) H1) as (part' & Hp' & Hacc).
    exists part'. split; [done|]. intros E.
    destruct (Hacc E) as [E1 Ht].
    destruct (pulsing (userData part)) eqn:Ep.
    + split; [done|]. rewrite Ht.
      destruct (Reachable_lookup _ _ _ _ HR Hi) as (s0 & mesh0 & base & _ & _ & _ & HP).
      destruct (pi_pulsing _ _ _ _ _ _ HP Ep) as (_ & Hh & [v Hv] & _).
      rewrite (updatePart_pulsing _ _ v Ep Hh Hv) in E1 |- *.
      destruct (Rgt_dec _ _); simpl in *; [done|]. lra.
    + rewrite updatePart_keeps_not_pulsing in E1 by done. done.
Qed.

Lemma frames_keep_selection (deltas : list R) : ∀ s,
  selectedObject (foldl (λ s d, updatePulseAnimations d s) s deltas)
  = selectedObject s.
Proof.
  induction deltas as [|d ds IH]; intros s; [done|]. simpl. by rewrite IH.
Qed.

Lemma Reachable_frames sc (deltas : list R) : ∀ s,
  Reachable sc s →
  Reachable sc (foldl (λ s d, updatePulseAnimations d s) s deltas).
Proof.
  induction deltas as [|d ds IH]; intros s HR; [done|]. simpl.
  apply IH. by apply Reachable_frame.
Qed.

(** X5. From a reachable state in which part [i] pulses, any run of
    frames whose [deltaTime]s bring its [pulseTime] above 6280 ends with the
    pulse over: the flag is off, the part has exactly its build-time scale,
    and it is still the selected object. *)
Theorem pulse_ends_within_bound sc s i part (deltas : list R) :
  Reachable sc s → productParts s !! i = Some part →
  pulsing (userData part) = true →
  (pulseTime (userData part) + sumDeltas deltas > 6280)%R →
  ∃ s' part' mesh0,
    run (frames deltas) s = Some s'
    ∧ productParts s' !! i = Some part'
    ∧ sc_parts sc !! i = Some mesh0
    ∧ pulsing (userData part') = false
    ∧ scale part' = scale mesh0
    ∧ selectedObject s' = Some i.
Proof.
  intros HR Hi Hp Hsum.
  set (s' := foldl (λ s d, updatePulseAnimations d s) s deltas).
  destruct (pulse_accumulates sc deltas s i part HR Hi) as (part' & Hp' & Hacc).
  fold s' in Hp'.
  pose proof (Reachable_frames sc deltas s HR) as HR'. fold s' in HR'.
  destruct (Reachable_lookup _ _ _ _ HR' Hp') as (s0 & mesh0 & base & _ & H0 & _ & HP').
  destruct (Reachable_lookup _ _ _ _ HR Hi) as (s00 & m0 & b0 & _ & _ & _ & HP).
  destruct (pi_pulsing _ _ _ _ _ _ HP Hp) as (Hsel & _).
  assert (Hsel' : selectedObject s' = Some i).
  { unfold s'. by rewrite frames_keep_selection. }
  assert (Hoff : pulsing (userData part') = false).
  { destruct (pulsing (userData part')) eqn:E; [|done].
    destruct (Hacc eq_refl) as [_ Ht].
    destruct (pi_pulsing _ _ _ _ _ _ HP' E) as (_ & _ & _ & Hle). lra. }
  exists s', part', mesh0. split; [apply run_frames|].
  split; [done|]. split; [done|]. split; [done|]. split; [|done].
  apply (pi_rest _ _ _ _ _ _ HP'); [|done].
  destruct (hovering (userData part')) eqn:E; [|done].
  destruct (pi_hovering _ _ _ _ _ _ HP' E) as (_ & Hn & _). done.
Qed.

(** *** Events the raycaster can produce *)

(** X6. In every reachable state an event is handled without error
    exactly when its nearest hit, if it has one, is a mesh of
    [productParts]: no lookup in [originalMaterials] misses for them, and a
    hit on any other object fails. *)
Theorem handled_iff_hit_is_product_part sc s e :
  Reachable sc s →
  is_Some (handle e s) ↔ hitsProductParts (length (sc_parts sc)) e = true.
Proof.
  intros HR. destruct (Reachable_Inv _ _ HR) as [s0 HI].
  assert (Hhover : ∀ m rest,
            is_Some (handleHover (m :: rest) s) ↔ m < length (sc_parts sc)).
  { intros m rest. unfold handleHover.
    destruct (decide (hoveredObject s = Some m)) as [Hh|Hh].
    { split; [|eauto]. intros _. by apply (inv_hovered _ _ _ HI). }
    destruct (clearHover_total _ _ _ HI) as [s1 Hc]. rewrite Hc. simpl.
    destruct (clearHover_Inv _ _ _ _ HI Hc) as (HI1 & _ & Hs1 & _).
    split.
    - intros [s2 H2].
      destruct (applyHoverEffect m _) as [s3|] eqn:Ha; simpl in H2; [|done].
      unfold applyHoverEffect, clone in Ha. simpl in Ha.
      destruct (decide (selectedObject s1 = Some m)) as [E|E].
      + by apply (inv_selected _ _ _ HI1).
      + simplify_option_eq. rewrite <- (inv_length _ _ _ HI1).
        by eapply lookup_lt_Some.
    - intros Hlt.
      destruct (decide (selectedObject s1 = Some m)) as [E|E].
      + unfold applyHoverEffect. simpl. rewrite decide_True by done. simpl. eauto.
      + destruct (Inv_lookup _ _ _ m HI1 Hlt) as (mesh0 & mesh & H0 & H1 & _).
        destruct (Inv_stored _ _ _ m HI1 Hlt) as (r & Hr & _ & Hrl).
        destruct (lookup_lt_is_Some_2 _ _ Hrl) as [mat Hmat].
        rewrite (applyHoverEffect_unfold (set_hoveredObject (Some m) s1) m mesh r mat)
          by done.
        simpl. eauto. }
  assert (Hclick : ∀ m rest,
            is_Some (handleClick (m :: rest) s) ↔ m < length (sc_parts sc)).
  { intros m rest. unfold handleClick, selectObject.
    destruct (deselectObject_spec _ _ _ HI) as (s1 & Hd & HI1 & Hn & _).
    rewrite Hd. simpl. split.
    - intros [s2 Hmk].
      destruct (markSelected_Inv _ _ _ _ _ HI1 Hn Hmk) as (HI2 & Hs2 & _).
      by apply (inv_selected _ _ _ HI2).
    - intros Hlt.
      destruct (Inv_lookup _ _ _ m HI1 Hlt) as (mesh0 & mesh & H0 & H1 & _).
      destruct (Inv_stored _ _ _ m HI1 Hlt) as (r & Hr & _ & Hrl).
      destruct (lookup_lt_is_Some_2 _ _ Hrl) as [mat Hmat].
      rewrite (markSelected_unfold s1 m mesh r mat H1 Hr Hmat). eauto. }
  destruct e as [[|m rest]|[|m rest]| | |deltaTime];
    cbn [handle hitsProductParts].
  - split; [done|]. intros _. by apply (clearHover_total sc s0).
  - rewrite Hhover. by rewrite bool_decide_eq_true.
  - split; [done|]. intros _.
    destruct (deselectObject_spec _ _ _ HI) as (s1 & Hd & _). unfold handleClick. eauto.
  - rewrite Hclick. by rewrite bool_decide_eq_true.
  - split; [done|]. intros _. by apply (clearHover_total sc s0).
  - split; eauto.
  - split; eauto.
Qed.

(** *** Pointer coordinates *)

(** X7. For a canvas rectangle of positive width and height,
    [updateMousePosition] maps the pointer to coordinates from which the
    client position is recovered ([clientX = left + (x + 1) / 2 * width],
    [clientY = top + (1 - y) / 2 * height], the y axis pointing up), and
    each coordinate lies in [-1, 1] exactly when the pointer is inside the
    rectangle on that axis. *)
Theorem updateMousePosition_normalizes (rect : Rect) (clientX clientY : R) :
  (0 < rectWidth rect)%R → (0 < rectHeight rect)%R →
  let x := (updateMousePosition rect clientX clientY).1 in
  let y := (updateMousePosition rect clientX clientY).2 in
  (clientX = rectLeft rect + (x + 1) / 2 * rectWidth rect)%R
  ∧ (clientY = rectTop rect + (1 - y) / 2 * rectHeight rect)%R
  ∧ ((-1 <= x <= 1)%R
     ↔ (rectLeft rect <= clientX <= rectLeft rect + rectWidth rect)%R)
  ∧ ((-1 <= y <= 1)%R
     ↔ (rectTop rect <= clientY <= rectTop rect + rectHeight rect)%R).
Proof.
  intros Hw Hh. simpl.
  set (u := ((clientX - rectLeft rect) / rectWidth rect)%R).
  set (v := ((clientY - rectTop rect) / rectHeight rect)%R).
  assert (Hu : (clientX - rectLeft rect = u * rectWidth rect)%R).
  { unfold u. field. lra. }
  assert (Hv : (clientY - rectTop rect = v * rectHeight rect)%R).
  { unfold v. field. lra. }
  split; [lra|]. split; [lra|]. split.
  - split; intros H; [|split].
    + assert (0 <= u <= 1)%R by lra. nra.
    + assert (0 <= u)%R by (apply Rnot_lt_le; intros Hn; nra). lra.
    + assert (u <= 1)%R by (apply Rnot_lt_le; intros Hn; nra). lra.
  - split; intros H; [|split].
    + assert (0 <= v <= 1)%R by lra. nra.
    + assert (v <= 1)%R by (apply Rnot_lt_le; intros Hn; nra). lra.
    + assert (0 <= v)%R by (apply Rnot_lt_le; intros Hn; nra). lra.
Qed.

(** *** The appearance and panel properties on [chairScene] *)

Lemma part_shows_its_state_witness :
  ∃ base, baseMaterial chairScene 0 = Some base
    ∧ heap seatSelected !! material (selected 5 (newMesh "Chair Seat" 1))
      = Some (lookOf (selectedObject seatSelected) 0
                (selected 5 (newMesh "Chair Seat" 1)) base).
Proof.
  exact (part_shows_its_state chairScene seatSelected 0
           (selected 5 (newMesh "Chair Seat" 1)) seatSelected_reachable eq_refl).
Defined.

Lemma scale_stays_near_original_witness :
  ∃ mesh0 k, sc_parts chairScene !! 1 = Some mesh0
    ∧ scale (newMesh "Chair Backrest" 0) = multiplyScalar (scale mesh0) k
    ∧ (0.95 <= k <= 1.06)%R.
Proof.
  destruct (scale_stays_near_original chairScene seatSelected 1
              (newMesh "Chair Backrest" 0) seatSelected_reachable eq_refl)
    as (mesh0 & k & H0 & Hs & Hk & _).
  by exists mesh0, k.
Defined.

Lemma hover_and_pulse_are_exclusive_witness :
  pulsing (userData (selected 5 (newMesh "Chair Seat" 1))) = true
  ∧ selectedObject seatSelected = Some 0.
Proof.
  split; [reflexivity|].
  exact (proj1 (proj2
    (hover_and_pulse_are_exclusive chairScene seatSelected seatSelected_reachable))
    0 (selected 5 (newMesh "Chair Seat" 1)) eq_refl eq_refl).
Defined.

Lemma panel_names_the_selection_witness :
  ∃ m mesh0, selectedObject seatSelected = Some m
    ∧ sc_parts chairScene !! m = Some mesh0
    ∧ partNameText seatSelected = displayName mesh0.
Proof.
  exact (panel_names_the_selection chairScene seatSelected
           seatSelected_reachable eq_refl eq_refl).
Defined.

Lemma pulse_ends_within_bound_witness :
  ∃ s' part' mesh0,
    run (frames [3000; 3000; 300]%R) seatSelected = Some s'
    ∧ productParts s' !! 0 = Some part'
    ∧ sc_parts chairScene !! 0 = Some mesh0
    ∧ pulsing (userData part') = false
    ∧ scale part' = scale mesh0
    ∧ selectedObject s' = Some 0.
Proof.
  apply (pulse_ends_within_bound chairScene seatSelected 0
           (selected 5 (newMesh "Chair Seat" 1)) [3000; 3000; 300]%R
           seatSelected_reachable eq_refl eq_refl).
  unfold sumDeltas. simpl. lra.
Defined.

Lemma handled_iff_hit_is_product_part_witness :
  is_Some (handle (MouseMove [1]) seatSelected)
  ∧ handle (Click [2]) seatSelected = None.
Proof.
  split.
  - by apply (handled_iff_hit_is_product_part chairScene seatSelected
                (MouseMove [1]) seatSelected_reachable).
  - destruct (handle (Click [2]) seatSelected) as [s'|] eqn:E; [|reflexivity].
    assert (H : is_Some (handle (Click [2]) seatSelected)) by (rewrite E; eauto).
    by apply (handled_iff_hit_is_product_part chairScene seatSelected
                (Click [2]) seatSelected_reachable) in H.
Defined.

Lemma updateMousePosition_normalizes_witness :
  updateMousePosition (mkRect 10 20 800 600) 210 170 = (-1 / 2, 1 / 2)%R
  ∧ (210 = 10 + ((updateMousePosition (mkRect 10 20 800 600) 210 170).1 + 1)
                  / 2 * 800)%R.
Proof.
  split.
  - unfold updateMousePosition. simpl. f_equal; lra.
  - apply (updateMousePosition_normalizes (mkRect 10 20 800 600) 210 170);
      simpl; lra.
Defined.
End InteractionFacts.

(** * Facts about cameraAnimation.js *)

Module CameraFacts.
Import Camera.

Local Open Scope R_scope.

Section WithOrbitControls.

Context {Orbit : Type}.
Variable orbit_update : Orbit → Vector3 → Camera → Orbit * Vector3 * Camera * bool.

Implicit Types s : Animator Orbit.

(** ** What the listeners leave alone *)

Lemma clearInteractionTimeout_flags s :
  isAutoRotating (clearInteractionTimeout s) = isAutoRotating s
  ∧ userInteracting (clearInteractionTimeout s) = userInteracting s
  ∧ isMouseDown (clearInteractionTimeout s) = isMouseDown s
  ∧ wasAutoRotatingBeforeInteraction (clearInteractionTimeout s)
    = wasAutoRotatingBeforeInteraction s
  ∧ controls (clearInteractionTimeout s) = controls s
  ∧ camera (clearInteractionTimeout s) = camera s
  ∧ interactionTimeout (clearInteractionTimeout s) = None.
Proof.
  unfold clearInteractionTimeout.
  destruct (interactionTimeout s) eqn:E; simpl; repeat split; done.
Qed.

Lemma onUserInteractionChange_flags s :
  isAutoRotating (onUserInteractionChange s) = isAutoRotating s
  ∧ userInteracting (onUserInteractionChange s) = userInteracting s
  ∧ isMouseDown (onUserInteractionChange s) = isMouseDown s
  ∧ wasAutoRotatingBeforeInteraction (onUserInteractionChange s)
    = wasAutoRotatingBeforeInteraction s
  ∧ controls (onUserInteractionChange s) = controls s
  ∧ camera (onUserInteractionChange s) = camera s.
Proof.
  unfold onUserInteractionChange.
  destruct (clearInteractionTimeout_flags s) as (A & B & C & D & E & F & _).
  destruct (userInteracting s) eqn:U; simpl.
  - rewrite B. simpl. repeat split; done.
  - rewrite U. repeat split; done.
Qed.

Lemma controlsUpdate_flags s :
  isAutoRotating (controlsUpdate orbit_update s) = isAutoRotating s
  ∧ userInteracting (controlsUpdate orbit_update s) = userInteracting s
  ∧ isMouseDown (controlsUpdate orbit_update s) = isMouseDown s
  ∧ wasAutoRotatingBeforeInteraction (controlsUpdate orbit_update s)
    = wasAutoRotatingBeforeInteraction s
  ∧ enabled (controls (controlsUpdate orbit_update s)) = enabled (controls s).
Proof.
  unfold Camera.controlsUpdate.
  destruct (orbit_update _ _ _) as [[[o t] cam] changed].
  destruct changed.
  - destruct (onUserInteractionChange_flags
                (set_camera cam
                   (set_controls (mkControls (enabled (controls s)) t o) s)))
      as (A & B & C & D & E & _).
    rewrite A, B, C, D, E. done.
  - done.
Qed.

(** ** Auto-rotation frames *)

Lemma orbitPoint_on_circle s :
  (vx (orbitPoint s) - vx (target s)) * (vx (orbitPoint s) - vx (target s))
  + (vz (orbitPoint s) - vz (target s)) * (vz (orbitPoint s) - vz (target s))
  = radius s * radius s.
Proof.
  unfold orbitPoint. simpl.
  pose proof (sin2_cos2 (currentAngle s)) as H. unfold Rsqr in H.
  nra.
Qed.

Lemma update_autoRotating (now deltaTime : R) s :
  autoRotating s = true →
  update orbit_update now deltaTime s
  = set_lastTime (if Rgt_dec (now - lastTime s) 2000 then now else lastTime s)
      (set_camera
         (mkCamera
            (orbitPoint
               (set_currentAngle
                  (currentAngle s + rotationSpeed s * PI / 180 * (deltaTime / 1000)) s))
            (orbitPoint
               (set_currentAngle
                  (currentAngle s + rotationSpeed s * PI / 180 * (deltaTime / 1000)) s),
             target s))
         (set_currentAngle
            (currentAngle s + rotationSpeed s * PI / 180 * (deltaTime / 1000))
            (set_controls (set_enabled false (controls s)) s))).
Proof. intros Ha. unfold Camera.update. rewrite Ha. reflexivity. Qed.

Lemma update_not_autoRotating (now deltaTime : R) s :
  autoRotating s = false →
  update orbit_update now deltaTime s
  = controlsUpdate orbit_update (set_controls (set_enabled true (controls s)) s).
Proof. intros Ha. unfold Camera.update. rewrite Ha. reflexivity. Qed.

(** C6. After [update]: from a state that is auto-rotating (auto-rotation
    on, no user interaction, mouse up) the controls are disabled, the camera
    stands at the point of angle [currentAngle] on the circle of radius
    [radius] around the target, at height [height], aimed at the target,
    and the state is still auto-rotating; from every other state the
    controls are enabled and the state is still not auto-rotating. *)
Theorem update_controls_and_orbit (now deltaTime : R) s :
  let s' := update orbit_update now deltaTime s in
  autoRotating s' = autoRotating s
  ∧ enabled (controls s') = negb (autoRotating s)
  ∧ (autoRotating s = true →
       position (camera s') = orbitPoint s'
       ∧ (vx (position (camera s')) - vx (target s'))
         * (vx (position (camera s')) - vx (target s'))
         + (vz (position (camera s')) - vz (target s'))
           * (vz (position (camera s')) - vz (target s'))
         = radius s' * radius s'
       ∧ vy (position (camera s')) = height s'
       ∧ faces (camera s') (target s')
       ∧ radius s' = radius s ∧ height s' = height s
       ∧ target s' = target s
       ∧ currentAngle s'
         = currentAngle s + rotationSpeed s * PI / 180 * (deltaTime / 1000)).
Proof.
  destruct (autoRotating s) eqn:Ha; simpl.
  - rewrite (update_autoRotating _ _ _ Ha). simpl.
    split; [exact Ha|]. split; [done|]. intros _.
    split; [done|]. split.
    { apply (orbitPoint_on_circle
               (set_currentAngle
                  (currentAngle s + rotationSpeed s * PI / 180 * (deltaTime / 1000))
                  s)). }
    repeat split; done.
  - rewrite (update_not_autoRotating _ _ _ Ha).
    destruct (controlsUpdate_flags
                (set_controls (set_enabled true (controls s)) s))
      as (A & B & C & _ & E).
    split; [|split; [|done]].
    + unfold autoRotating in *. rewrite A, B, C. exact Ha.
    + rewrite E. done.
Qed.

(** ** One full turn *)

Lemma runFrames_autoRotating (fs : list (R * R)) : ∀ s,
  autoRotating s = true →
  autoRotating (runFrames orbit_update fs s) = true
  ∧ currentAngle (runFrames orbit_update fs s)
    = currentAngle s + rotationSpeed s * PI / 180 * (totalTime fs / 1000)
  ∧ rotationSpeed (runFrames orbit_update fs s) = rotationSpeed s
  ∧ radius (runFrames orbit_update fs s) = radius s
  ∧ height (runFrames orbit_update fs s) = height s
  ∧ target (runFrames orbit_update fs s) = target s
  ∧ (fs ≠ [] → position (camera (runFrames orbit_update fs s))
               = orbitPoint (runFrames orbit_update fs s)).
Proof.
  induction fs as [|[now dt] fs IH]; intros s Ha.
  - simpl. repeat split; try done. lra.
  - unfold runFrames in *. simpl.
    rewrite (update_autoRotating _ _ _ Ha).
    set (s1 := set_lastTime _ _).
    assert (Ha1 : autoRotating s1 = true) by exact Ha.
    destruct (IH s1 Ha1) as (Ha' & Hang & Hs & Hr & Hh & Ht & Hp).
    split; [done|]. split.
    { rewrite Hang. subst s1. simpl. lra. }
    split; [done|]. split; [done|]. split; [done|]. split; [done|].
    intros _. destruct fs as [|f fs]; [reflexivity|]. by apply Hp.
Qed.

Lemma orbitPoint_period s s' :
  target s' = target s → radius s' = radius s → height s' = height s →
  currentAngle s' = currentAngle s + 2 * PI →
  orbitPoint s' = orbitPoint s.
Proof.
  intros Ht Hr Hh Ha. unfold orbitPoint. rewrite Ht, Hr, Hh, Ha.
  rewrite cos_plus, sin_plus, cos_2PI, sin_2PI.
  apply Vector3_eq; simpl; lra.
Qed.

(** One full period.  From an auto-rotating state, over frames
    whose [deltaTime]s add up to one period (360 / rotationSpeed seconds),
    [update] advances [currentAngle] by exactly [2 * PI], leaves [radius]
    and [height] as they were, and ends with the camera at the point of the
    starting angle on the orbit circle; that is the starting camera
    position whenever the camera started on the orbit. *)
Theorem full_rotation_returns (fs : list (R * R)) s :
  autoRotating s = true → rotationSpeed s ≠ 0 →
  totalTime fs = rotationPeriod s →
  currentAngle (runFrames orbit_update fs s) = currentAngle s + 2 * PI
  ∧ radius (runFrames orbit_update fs s) = radius s
  ∧ height (runFrames orbit_update fs s) = height s
  ∧ position (camera (runFrames orbit_update fs s)) = orbitPoint s
  ∧ (position (camera s) = orbitPoint s →
       position (camera (runFrames orbit_update fs s)) = position (camera s)).
Proof.
  intros Ha Hspeed Htotal.
  destruct (runFrames_autoRotating fs s Ha) as (_ & Hang & _ & Hr & Hh & Ht & Hp).
  assert (Hangle : currentAngle (runFrames orbit_update fs s) = currentAngle s + 2 * PI).
  { rewrite Hang, Htotal. unfold rotationPeriod. field. exact Hspeed. }
  assert (Hpos : position (camera (runFrames orbit_update fs s)) = orbitPoint s).
  { rewrite Hp.
    - by apply orbitPoint_period.
    - intros ->. simpl in Htotal. unfold rotationPeriod in Htotal.
      assert (360 / rotationSpeed s ≠ 0).
      { unfold Rdiv. apply Rmult_integral_contrapositive_currified; [lra|].
        by apply Rinv_neq_0_compat. }
      lra. }
  split; [done|]. split; [done|]. split; [done|]. split; [done|].
  intros ->. exact Hpos.
Qed.

(** ** What no handler writes *)

Ltac split_handlers :=
  repeat match goal with
    | |- context [match interactionTimeout ?s with _ => _ end] =>
        destruct (interactionTimeout s)
    | |- context [match orbit_update ?o ?t ?c with _ => _ end] =>
        destruct (orbit_update o t c) as [[[? ?] ?] ?]
    | |- context [match list_find ?P ?l with _ => _ end] =>
        destruct (list_find P l) as [[? ?]|]
    | |- context [match timerCallback ?t with _ => _ end] =>
        destruct (timerCallback t)
    | |- context [match onComplete ?a with _ => _ end] =>
        destruct (onComplete a) as [[]|]
    | |- context [match frames ?s with _ => _ end] =>
        destruct (frames s)
    | |- context [if ?b then _ else _] => destruct b
    | |- context [match ?x with _ => _ end] => is_var x; destruct x
    end; simpl.

Lemma handle_stored (e : Event) s :
  stored (handle orbit_update e s) = stored s.
Proof.
  unfold stored.
  destruct e; simpl;
    unfold onMouseDown, onMouseMove, onMouseUp, onMouseLeave, onMouseUp,
      onUserInteractionStart, onUserInteractionEnd, onUserInteractionChange,
      toggleAutoRotation, resetCamera, animateToPosition, animationFrame,
      animate, runCompletion, Camera.update, controlsUpdate,
      onUserInteractionChange, fireTimer, runCallback, resumeAfterMouseUp,
      resumeAfterInteractionEnd, clearInteractionTimeout, setTimeout;
    simpl; split_handlers; reflexivity.
Qed.

Lemma run_stored (es : list Event) : ∀ s,
  stored (run orbit_update es s) = stored s.
Proof.
  induction es as [|e es IH]; intros s; [done|].
  unfold run in *. simpl. rewrite IH. apply handle_stored.
Qed.

(** ** Reset *)

Lemma lerpVectors_0 (a b : Vector3) : lerpVectors a b (easeOut 0) = a.
Proof. unfold easeOut. apply Vector3_eq; simpl; ring. Qed.

Lemma lerpVectors_1 (a b : Vector3) : lerpVectors a b (easeOut 1) = b.
Proof. unfold easeOut. apply Vector3_eq; simpl; ring. Qed.

(** The reset, frame by frame.  [resetCamera] starts the closure
    [animate] from the camera's
    position towards the stored initial position, and no event changes what
    is stored.  A run of the closure before 1000 ms have passed puts the
    camera at [lerpVectors start initial (1 - (1 - progress) ^ 3)] with
    [progress = elapsed / 1000], aimed at the target, and asks for another
    frame; the eased interpolation is the start at progress 0 and exactly
    the initial position at progress 1.  A run at 1000 ms or later puts the
    camera exactly at the initial position, sets [currentAngle], [radius]
    and [height] to the stored initial values, points the controls at the
    target, asks for no further frame, and ends in [controls.update()]. *)
Theorem reset_animation s (t0 : R) :
  let a := mkAnimation (position (camera s)) (initialPosition s) t0
             (Some ResetComplete) in
  (∀ now, resetCamera orbit_update t0 now s = animate orbit_update a now s)
  ∧ (∀ es, stored (run orbit_update es s) = stored s)
  ∧ lerpVectors (startPosition a) (targetPosition a) (easeOut 0) = position (camera s)
  ∧ lerpVectors (startPosition a) (targetPosition a) (easeOut 1) = initialPosition s
  ∧ (∀ now s1, now - t0 < 1000 →
       animate orbit_update a now s1
       = set_frames (frames s1 ++ [a])
           (set_camera
              (lookAt (target s1)
                 (set_position
                    (lerpVectors (position (camera s)) (initialPosition s)
                       (1 - (1 - (now - t0) / 1000) ^ 3))
                    (camera s1)))
              s1))
  ∧ (∀ now s1, 1000 <= now - t0 →
       ∃ s2, animate orbit_update a now s1 = controlsUpdate orbit_update s2
         ∧ position (camera s2) = initialPosition s
         ∧ faces (camera s2) (target s1)
         ∧ currentAngle s2 = initialAngle s1
         ∧ radius s2 = initialRadius s1
         ∧ height s2 = initialHeight s1
         ∧ controlsTarget (controls s2) = target s1
         ∧ frames s2 = frames s1).
Proof.
  intros a. split; [done|]. split; [intros es; apply run_stored|].
  split; [apply lerpVectors_0|]. split; [apply lerpVectors_1|]. split.
  - intros now s1 Hlt. unfold animate. simpl.
    assert (Hp : Rmin ((now - t0) / 1000) 1 = (now - t0) / 1000).
    { apply Rmin_left. lra. }
    rewrite Hp. destruct (Rlt_dec _ _) as [_|Hn]; [done|]. lra.
  - intros now s1 Hge. unfold animate. simpl.
    assert (Hp : Rmin ((now - t0) / 1000) 1 = 1).
    { apply Rmin_right. lra. }
    rewrite Hp. destruct (Rlt_dec 1 1) as [Hlt|_]; [lra|].
    eexists. split; [reflexivity|]. simpl.
    split; [apply lerpVectors_1|]. repeat split; done.
Qed.

(** ** Pause, release, resume *)

Lemma onMouseDown_pauses s :
  isAutoRotating s = true →
  isAutoRotating (onMouseDown 0 s) = false
  ∧ userInteracting (onMouseDown 0 s) = true
  ∧ isMouseDown (onMouseDown 0 s) = true
  ∧ wasAutoRotatingBeforeInteraction (onMouseDown 0 s) = true
  ∧ enabled (controls (onMouseDown 0 s)) = true
  ∧ interactionTimeout (onMouseDown 0 s) = None
  ∧ timers (onMouseDown 0 s)
    = match interactionTimeout s with
      | Some id => filter (λ t, timerId t ≠ id) (timers s)
      | None => timers s
      end.
Proof.
  intros Ha. unfold onMouseDown, clearInteractionTimeout.
  case_decide; [done|]. simpl. rewrite Ha.
  simpl. destruct (interactionTimeout s) eqn:E; simpl; rewrite ?E; repeat split; done.
Qed.

Lemma onMouseUp_arms s :
  userInteracting s = true → wasAutoRotatingBeforeInteraction s = true →
  interactionTimeout (onMouseUp 0 s) = Some (nextTimer s)
  ∧ timers (onMouseUp 0 s)
    = timers s ++ [mkTimer (nextTimer s) (resumeDelay s) ResumeAfterMouseUp]
  ∧ isMouseDown (onMouseUp 0 s) = false
  ∧ isAutoRotating (onMouseUp 0 s) = isAutoRotating s
  ∧ userInteracting (onMouseUp 0 s) = true.
Proof.
  intros Hu Hw. unfold onMouseUp. case_decide; [done|].
  simpl. rewrite Hu, Hw. simpl. repeat split; done.
Qed.

Lemma resumeAfterMouseUp_resyncs s :
  let dx := vx (position (camera s)) - vx (target s) in
  let dz := vz (position (camera s)) - vz (target s) in
  isAutoRotating (resumeAfterMouseUp s) = true
  ∧ userInteracting (resumeAfterMouseUp s) = false
  ∧ currentAngle (resumeAfterMouseUp s) = atan2 dz dx
  ∧ radius (resumeAfterMouseUp s) = sqrt (dx * dx + dz * dz)
  ∧ height (resumeAfterMouseUp s) = vy (position (camera s)).
Proof. repeat split; reflexivity. Qed.

Lemma clearTimeout_only (id : nat) (ts : list Timer) :
  (∀ t, t ∈ ts → timerId t = id) → filter (λ t, timerId t ≠ id) ts = [].
Proof.
  induction ts as [|t ts IH]; intros Hall; [done|].
  rewrite filter_cons. rewrite decide_False.
  - apply IH. intros u Hu. apply Hall. by right.
  - intros Hne. apply Hne. apply Hall. by left.
Qed.

(** With no timer pending beside the one in [interactionTimeout], a
    mouse-down during auto-rotation leaves none pending, the mouse-up arms
    exactly one with the resume delay, and that one resumes rotation. *)
Lemma pause_release_resume s :
  isAutoRotating s = true →
  (∀ t, t ∈ timers s → interactionTimeout s = Some (timerId t)) →
  let s1 := onMouseDown 0 s in
  let s2 := onMouseUp 0 s1 in
  let s3 := fireTimer (nextTimer s) s2 in
  timers s1 = []
  ∧ timers s2 = [mkTimer (nextTimer s) (resumeDelay s) ResumeAfterMouseUp]
  ∧ interactionTimeout s2 = Some (nextTimer s)
  ∧ s3 = resumeAfterMouseUp (set_timers [] s2).
Proof.
  intros Ha Hone s1 s2 s3.
  destruct (onMouseDown_pauses s Ha) as (A1 & A2 & A3 & A4 & A5 & A6 & A7).
  assert (Ht1 : timers s1 = []).
  { subst s1. rewrite A7. destruct (interactionTimeout s) as [id|] eqn:E.
    - apply clearTimeout_only. intros t Ht.
      specialize (Hone t Ht). congruence.
    - destruct (timers s) as [|t ts]; [done|].
      specialize (Hone t ltac:(left)). done. }
  destruct (onMouseUp_arms s1 A2 A4) as (B1 & B2 & _).
  assert (Hn : nextTimer s1 = nextTimer s).
  { unfold s1, onMouseDown, clearInteractionTimeout. case_decide; [done|].
    simpl. rewrite Ha. simpl. by destruct (interactionTimeout s). }
  assert (Hd : resumeDelay s1 = resumeDelay s).
  { unfold s1, onMouseDown, clearInteractionTimeout. case_decide; [done|].
    simpl. rewrite Ha. simpl. by destruct (interactionTimeout s). }
  fold s2 in B1, B2. rewrite Ht1, Hn, Hd in B2. rewrite Hn in B1. simpl in B2.
  split; [done|]. split; [done|]. split; [done|].
  unfold s3, fireTimer. rewrite B2. simpl.
  case_decide; [|done]. simpl.
  unfold clearTimeout. rewrite B2. rewrite filter_cons.
  rewrite decide_False by (intros Hne; by apply Hne). done.
Qed.

(** ** The manual toggle *)

Lemma toggleAutoRotation_spec s :
  isAutoRotating (toggleAutoRotation s) = negb (isAutoRotating s)
  ∧ userInteracting (toggleAutoRotation s) = false
  ∧ interactionTimeout (toggleAutoRotation s) = None
  ∧ wasAutoRotatingBeforeInteraction (toggleAutoRotation s) = negb (isAutoRotating s)
  ∧ timers (toggleAutoRotation s)
    = match interactionTimeout s with
      | Some id => filter (λ t, timerId t ≠ id) (timers s)
      | None => timers s
      end.
Proof.
  unfold toggleAutoRotation, clearInteractionTimeout.
  destruct (interactionTimeout s) eqn:E; simpl;
    destruct (isAutoRotating s) eqn:A; simpl; rewrite ?E, ?A; repeat split; done.
Qed.

(** Once auto-rotation is manually off with nothing pending, only the
    toggle button turns it back on. *)
Lemma manuallyOff_handle (e : Event) s :
  is_toggle e = false → manuallyOff s → manuallyOff (handle orbit_update e s).
Proof.
  intros He (Ha & Hu & Hw & Ht). unfold manuallyOff.
  destruct s; simpl in Ha, Hu, Hw, Ht; subst.
  destruct e; try done; simpl;
    unfold onMouseDown, onMouseMove, onMouseUp, onMouseLeave, onMouseUp,
      onUserInteractionStart, onUserInteractionEnd, onUserInteractionChange,
      resetCamera, animateToPosition, animationFrame,
      animate, runCompletion, Camera.update, autoRotating, controlsUpdate,
      onUserInteractionChange, fireTimer, clearInteractionTimeout, clearTimeout;
    simpl; split_handlers; try done.
Qed.

Lemma manuallyOff_run (es : list Event) : ∀ s,
  Forall (λ e, is_toggle e = false) es →
  manuallyOff s → manuallyOff (run orbit_update es s).
Proof.
  induction es as [|e es IH]; intros s Hall Hoff; [done|].
  apply Forall_cons in Hall as [He Hall]. unfold run in *. simpl.
  apply IH; [done|]. by apply manuallyOff_handle.
Qed.

(** ** The resync puts the orbit under the camera *)

Lemma polar_of_atan (x y : R) :
  0 < x →
  cos (atan (y / x)) * sqrt (x * x + y * y) = x
  ∧ sin (atan (y / x)) * sqrt (x * x + y * y) = y.
Proof.
  intros Hx. set (t := y / x).
  assert (Hpos : 0 < 1 + t²) by (unfold Rsqr; nra).
  assert (Hs : 0 < sqrt (1 + t²)) by by apply sqrt_lt_R0.
  assert (Hsq : sqrt (x * x + y * y) = x * sqrt (1 + t²)).
  { replace (x * x + y * y) with (x² * (1 + t²)).
    - rewrite sqrt_mult; [|apply Rle_0_sqr|lra]. rewrite sqrt_Rsqr by lra. reflexivity.
    - unfold t, Rsqr. field. lra. }
  rewrite cos_atan, sin_atan, Hsq. fold t. split.
  - field. lra.
  - transitivity (t * x); [field; lra|unfold t; field; lra].
Qed.

Lemma polar_of_atan2 (x y : R) :
  cos (atan2 y x) * sqrt (x * x + y * y) = x
  ∧ sin (atan2 y x) * sqrt (x * x + y * y) = y.
Proof.
  unfold atan2.
  destruct (Rlt_dec 0 x) as [Hx|Hx]; [by apply polar_of_atan|].
  destruct (Rlt_dec x 0) as [Hx'|Hx'].
  - destruct (polar_of_atan (- x) (- y) ltac:(lra)) as [Hc Hs].
    replace (- y / - x) with (y / x) in Hc, Hs by (field; lra).
    replace (- x * - x + - y * - y) with (x * x + y * y) in Hc, Hs by ring.
    destruct (Rle_dec 0 y).
    + rewrite cos_plus, sin_plus, cos_PI, sin_PI. split; lra.
    + rewrite cos_minus, sin_minus, cos_PI, sin_PI. split; lra.
  - assert (x = 0) as -> by lra.
    replace (0 * 0 + y * y) with (y²) by (unfold Rsqr; ring).
    destruct (Rlt_dec 0 y) as [Hy|Hy].
    + rewrite cos_PI2, sin_PI2, sqrt_Rsqr by lra. split; lra.
    + destruct (Rlt_dec y 0) as [Hy'|Hy'].
      * replace (- PI / 2) with (- (PI / 2)) by lra.
        rewrite cos_neg, sin_neg, cos_PI2, sin_PI2.
        rewrite (Rsqr_neg y), sqrt_Rsqr by lra. split; lra.
      * assert (y = 0) as -> by lra.
        rewrite Rsqr_0, sqrt_0. split; lra.
Qed.

(** After [updateCurrentAngle] the point of the orbit at [currentAngle] is
    where the camera stands, so the next auto-rotation frame continues from
    there. *)
Lemma updateCurrentAngle_on_orbit s :
  orbitPoint (updateCurrentAngle s) = position (camera s).
Proof.
  unfold orbitPoint, updateCurrentAngle. simpl.
  destruct (polar_of_atan2 (vx (position (camera s)) - vx (target s))
              (vz (position (camera s)) - vz (target s))) as [Hc Hs].
  apply Vector3_eq; simpl; lra.
Qed.

End WithOrbitControls.

(** ** Evaluation on the viewer's animator *)

Lemma viewerAnimator_autoRotating : autoRotating viewerAnimator = true.
Proof. reflexivity. Qed.

Lemma viewerAnimator_angle : currentAngle viewerAnimator = PI / 4.
Proof.
  simpl. unfold calculateInitialAngle, atan2. simpl.
  destruct (Rlt_dec 0 (5 - 0)) as [_|Hn]; [|lra].
  replace ((5 - 0) / (5 - 0)) with 1 by lra. apply atan_1.
Qed.

Lemma viewerAnimator_radius : radius viewerAnimator = sqrt 54.
Proof. simpl. unfold distanceTo. simpl. f_equal. lra. Qed.

(** On the animator the viewer constructs the camera starts at
    (5, 3, 5), off the orbit circle of radius [sqrt 54] that the constructor
    stores, so after one period in one frame it is not back where it
    started. *)
Lemma full_rotation_leaves_start_position :
  autoRotating viewerAnimator = true
  ∧ totalTime [(0, 12000)] = rotationPeriod viewerAnimator
  ∧ position (camera (runFrames stillOrbit [(0, 12000)] viewerAnimator))
    ≠ position (camera viewerAnimator).
Proof.
  split; [reflexivity|]. split.
  { unfold rotationPeriod. simpl. lra. }
  change (runFrames stillOrbit [(0, 12000)] viewerAnimator)
    with (update stillOrbit 0 12000 viewerAnimator).
  rewrite (update_autoRotating stillOrbit _ _ _ viewerAnimator_autoRotating).
  intros H. apply (f_equal vx) in H.
  change (vx (orbitPoint
                (set_currentAngle
                   (currentAngle viewerAnimator
                    + rotationSpeed viewerAnimator * PI / 180 * (12000 / 1000))
                   viewerAnimator)) = 5) in H.
  unfold orbitPoint in H.
  change (0 + cos (currentAngle viewerAnimator + 30 * PI / 180 * (12000 / 1000))
              * radius viewerAnimator = 5) in H.
  rewrite viewerAnimator_angle, viewerAnimator_radius in H.
  replace (PI / 4 + 30 * PI / 180 * (12000 / 1000)) with (PI / 4 + 2 * PI) in H by lra.
  rewrite cos_plus, cos_2PI, sin_2PI, cos_PI4 in H.
  assert (H2 : 0 < sqrt 2) by (apply sqrt_lt_R0; lra).
  assert (Hs2 : sqrt 2 * sqrt 2 = 2) by (apply sqrt_sqrt; lra).
  assert (Hs54 : sqrt 54 * sqrt 54 = 54) by (apply sqrt_sqrt; lra).
  assert (Hinv : 1 / sqrt 2 * sqrt 2 = 1) by (field; lra).
  assert (Hab : 1 / sqrt 2 * sqrt 54 = 5) by lra.
  assert (Heq : sqrt 54 = 5 * sqrt 2).
  { transitivity (1 / sqrt 2 * sqrt 54 * sqrt 2); [|by rewrite Hab].
    transitivity (1 / sqrt 2 * sqrt 2 * sqrt 54); [rewrite Hinv; lra|ring]. }
  rewrite Heq in Hs54. nra.
Qed.

Lemma full_rotation_returns_witness :
  currentAngle (runFrames stillOrbit [(0, 4000); (4000, 8000)] viewerAnimator)
  = currentAngle viewerAnimator + 2 * PI.
Proof.
  apply (full_rotation_returns stillOrbit [(0, 4000); (4000, 8000)] viewerAnimator).
  - reflexivity.
  - simpl. lra.
  - unfold rotationPeriod. simpl. lra.
Defined.

Lemma update_controls_and_orbit_witness :
  enabled (controls (update stillOrbit 0 16 viewerAnimator)) = false.
Proof.
  apply (update_controls_and_orbit stillOrbit 0 16 viewerAnimator).
Defined.

(** C2 on the code.  After two clicks and the toggle button, with frames
    of the render loop in between, the animator is auto-rotating with no
    timer in [interactionTimeout], while timers 1 and 2 are still pending.
    The next left mouse-down pauses rotation and marks the user as
    interacting, but cancels neither; when timer 1 comes due during the
    drag, auto-rotation is switched back on with the mouse still down. *)
Theorem stale_timer_survives_mouse_down :
  let s := run stillOrbit twoClicksThenToggle viewerAnimator in
  let s1 := handle stillOrbit (MouseDown 0) s in
  let s2 := handle stillOrbit (TimerFires 1) s1 in
  (autoRotating s = true ∧ interactionTimeout s = None ∧ pendingIds s = [1; 2]%nat)
  ∧ (isAutoRotating s1 = false ∧ userInteracting s1 = true
     ∧ interactionTimeout s1 = None ∧ pendingIds s1 = [1; 2]%nat)
  ∧ (isMouseDown s2 = true ∧ isAutoRotating s2 = true
     ∧ userInteracting s2 = false ∧ pendingIds s2 = [2]%nat).
Proof. repeat split; reflexivity. Qed.

(** C9 on the code.  After the same two clicks, a first press of the
    toggle button turns auto-rotation on and a second one turns it off,
    with [userInteracting] false and no timer in [interactionTimeout]; a
    further drag and release arms no timer.  Timers 1 and 2 are still
    pending all along, and when timer 1 comes due auto-rotation is on again
    although the toggle button was not pressed. *)
Theorem stale_timer_overrides_manual_off :
  let s := run stillOrbit (twoClicksThenToggle ++ [ToggleClick; Update 112 16])
             viewerAnimator in
  let s1 := run stillOrbit
              [ControlsStart; MouseDown 0; MouseMove; ControlsChange;
               ControlsEnd; MouseUp 0; Update 128 16] s in
  let s2 := handle stillOrbit (TimerFires 1) s1 in
  (isAutoRotating s = false ∧ userInteracting s = false
   ∧ interactionTimeout s = None ∧ pendingIds s = [1; 2]%nat)
  ∧ (isAutoRotating s1 = false ∧ pendingIds s1 = [1; 2]%nat)
  ∧ isAutoRotating s2 = true.
Proof. repeat split; reflexivity. Qed.


(** ** The resync in polar form *)

(** The range of [atan2], which has no -0 to tell from 0. *)
Lemma atan2_range (y x : R) : - PI < atan2 y x <= PI.
Proof.
  pose proof PI_RGT_0 as Hpi. unfold atan2.
  destruct (Rlt_dec 0 x) as [Hx|Hx].
  { pose proof (atan_bound (y / x)). lra. }
  destruct (Rlt_dec x 0) as [Hx'|Hx'].
  - pose proof (atan_bound (y / x)) as Hb.
    assert (Hinv : / x < 0) by (by apply Rinv_lt_0_compat).
    destruct (Rle_dec 0 y) as [Hy|Hy].
    + assert (Hq : y / x <= 0).
      { unfold Rdiv. nra. }
      assert (atan (y / x) <= 0).
      { destruct Hq as [Hq|Hq].
        - apply Rlt_le. rewrite <- atan_0. by apply atan_increasing.
        - rewrite Hq, atan_0. lra. }
      lra.
    + assert (Hq : 0 < y / x).
      { unfold Rdiv. nra. }
      assert (0 < atan (y / x)).
      { rewrite <- atan_0. by apply atan_increasing. }
      lra.
  - destruct (Rlt_dec 0 y); [lra|]. destruct (Rlt_dec y 0); lra.
Qed.

Section Resync.

Context {Orbit : Type}.
Variable orbit_update : Orbit → Vector3 → Camera → Orbit * Vector3 * Camera * bool.
Implicit Types s : Animator Orbit.

Lemma update_no_time (now : R) s :
  autoRotating s = true →
  position (camera (update orbit_update now 0 s)) = orbitPoint s.
Proof.
  intros Ha. rewrite (update_autoRotating orbit_update now 0 s Ha). simpl.
  unfold orbitPoint. simpl.
  replace (currentAngle s + rotationSpeed s * PI / 180 * (0 / 1000))
    with (currentAngle s) by lra.
  done.
Qed.

(** X8. Over the reals, [updateCurrentAngle] reads the camera's position
    in polar form about the vertical axis through the target: the radius is
    not negative, the angle lies in [-PI, PI] ([Math.atan2] gives -PI for a
    [dz] of -0 with [dx] negative, where [atan2] gives PI: the same point of
    the orbit), and the orbit point of the new angle, radius and height is
    where the camera stands, so that a frame of auto-rotation that follows
    with no time elapsed puts the camera where it was.  In double precision
    the recomputed point can differ from the camera's position in the last
    bit.  The camera itself and the mode flags are not touched. *)
Theorem resync_is_polar_form (now : R) s :
  let s' := updateCurrentAngle s in
  0 <= radius s'
  ∧ - PI <= currentAngle s' <= PI
  ∧ orbitPoint s' = position (camera s)
  ∧ camera s' = camera s
  ∧ autoRotating s' = autoRotating s
  ∧ (autoRotating s = true →
       position (camera (update orbit_update now 0 s')) = position (camera s)).
Proof.
  intros s'. split; [apply sqrt_pos|]. split.
  { pose proof (atan2_range (vz (position (camera s)) - vz (target s))
                  (vx (position (camera s)) - vx (target s))) as Hr.
    change (currentAngle s')
      with (atan2 (vz (position (camera s)) - vz (target s))
              (vx (position (camera s)) - vx (target s))).
    lra. }
  split; [apply updateCurrentAngle_on_orbit|]. split; [done|]. split; [done|].
  intros Ha. rewrite update_no_time by done.
  apply updateCurrentAngle_on_orbit.
Qed.

(** ** Frame-rate independence *)

Lemma totalTime_app (fs1 fs2 : list (R * R)) :
  totalTime (fs1 ++ fs2) = totalTime fs1 + totalTime fs2.
Proof.
  induction fs1 as [|f fs IH]; simpl; [lra|]. rewrite IH. lra.
Qed.

Lemma runFrames_snoc (fs : list (R * R)) (f : R * R) s :
  runFrames orbit_update (fs ++ [f]) s
  = update orbit_update f.1 f.2 (runFrames orbit_update fs s).
Proof. unfold runFrames. by rewrite foldl_app. Qed.

Lemma runFrames_camera (fs : list (R * R)) s :
  autoRotating s = true → fs ≠ [] →
  camera (runFrames orbit_update fs s)
  = let p := orbitPoint
               (set_currentAngle
                  (currentAngle s + rotationSpeed s * PI / 180 * (totalTime fs / 1000))
                  s) in
    mkCamera p (p, target s).
Proof.
  intros Ha Hne.
  destruct (exists_last Hne) as (fs' & f & ->).
  rewrite runFrames_snoc.
  destruct (runFrames_autoRotating orbit_update fs' s Ha)
    as (Ha' & Hang & Hsp & Hr & Hh & Ht & _).
  rewrite (update_autoRotating orbit_update _ _ _ Ha'). simpl.
  unfold orbitPoint. simpl. rewrite Hang, Hsp, Hr, Hh, Ht, totalTime_app.
  simpl.
  replace (currentAngle s + rotationSpeed s * PI / 180 * (totalTime fs' / 1000)
           + rotationSpeed s * PI / 180 * (f.2 / 1000))
    with (currentAngle s
          + rotationSpeed s * PI / 180 * ((totalTime fs' + (f.2 + 0)) / 1000))
    by lra.
  done.
Qed.

(** X9. Over the reals, auto-rotation is independent of the frame rate:
    two runs of [update] from the same auto-rotating state over frames that
    add up to the same time end with the same angle and the same camera
    (position and aim), whatever the number of frames and their lengths.  In
    double precision each frame's addition to [currentAngle] is rounded, so
    two such runs agree only up to that rounding. *)
Theorem rotation_is_frame_rate_independent (fs1 fs2 : list (R * R)) s :
  autoRotating s = true → fs1 ≠ [] → fs2 ≠ [] →
  totalTime fs1 = totalTime fs2 →
  currentAngle (runFrames orbit_update fs1 s)
  = currentAngle (runFrames orbit_update fs2 s)
  ∧ camera (runFrames orbit_update fs1 s) = camera (runFrames orbit_update fs2 s).
Proof.
  intros Ha H1 H2 Ht.
  destruct (runFrames_autoRotating orbit_update fs1 s Ha) as (_ & A1 & _).
  destruct (runFrames_autoRotating orbit_update fs2 s Ha) as (_ & A2 & _).
  rewrite A1, A2, !runFrames_camera, Ht by done. done.
Qed.

(** ** The manual pause *)

Lemma noStaleTimer_cleared s :
  noStaleTimer s →
  match interactionTimeout s with
  | Some id => filter (λ t, timerId t ≠ id) (timers s)
  | None => timers s
  end = [].
Proof.
  intros Hone. destruct (interactionTimeout s) as [id|] eqn:E.
  - apply clearTimeout_only. intros t Ht. specialize (Hone t Ht). congruence.
  - destruct (timers s) as [|t ts] eqn:Et; [done|].
    specialize (Hone t). rewrite Et in Hone. specialize (Hone ltac:(left)).
    congruence.
Qed.

(** X10. Paused by the toggle button with no stale timer pending,
    auto-rotation stays off until the button is clicked again: after any
    events other than a click on the toggle (presses, drags, releases,
    controls events, resets, frames, timer ids coming due) the flag is still
    off, no timer is pending, and every frame hands the camera to the orbit
    controls. *)
Theorem manual_pause_is_stable (es : list Event) (now deltaTime : R) s :
  isAutoRotating s = true → noStaleTimer s →
  Forall (λ e, is_toggle e = false) es →
  let s' := run orbit_update es (toggleAutoRotation s) in
  isAutoRotating s' = false
  ∧ userInteracting s' = false
  ∧ timers s' = []
  ∧ update orbit_update now deltaTime s'
    = controlsUpdate orbit_update (set_controls (set_enabled true (controls s')) s').
Proof.
  intros Ha Hone Hes s'.
  destruct (toggleAutoRotation_spec s) as (T1 & T2 & T3 & T4 & T5).
  assert (Hoff : manuallyOff (toggleAutoRotation s)).
  { unfold manuallyOff. rewrite T1, T2, T4, T5, Ha. repeat split; try done.
    by apply noStaleTimer_cleared. }
  destruct (manuallyOff_run orbit_update es _ Hes Hoff) as (A & B & _ & D).
  fold s' in A, B, D. split; [done|]. split; [done|]. split; [done|].
  apply update_not_autoRotating. unfold autoRotating. by rewrite A.
Qed.

(** ** A drag during auto-rotation *)





Lemma orbitPoint_ext s s' :
  target s = target s' → currentAngle s = currentAngle s' →
  radius s = radius s' → height s = height s' → orbitPoint s = orbitPoint s'.
Proof. intros H1 H2 H3 H4. unfold orbitPoint. by rewrite H1, H2, H3, H4. Qed.



(** ** Progress of the reset animation *)

Lemma easeOut_bounds (p : R) : 0 <= p <= 1 → 0 <= easeOut p <= 1.
Proof.
  intros Hp. unfold easeOut. simpl.
  assert (H1 : 0 <= 1 - p <= 1) by lra.
  assert (H2 : 0 <= (1 - p) * (1 - p) <= 1) by nra.
  assert (H3 : 0 <= (1 - p) * ((1 - p) * (1 - p)) <= 1) by nra.
  lra.
Qed.

Lemma easeOut_monotone (p q : R) : p <= q → q <= 1 → easeOut p <= easeOut q.
Proof.
  intros Hpq Hq. unfold easeOut. simpl.
  set (a := 1 - p). set (b := 1 - q).
  assert (Hab : 0 <= b <= a) by (unfold a, b; lra).
  assert (b * b <= a * a) by nra.
  assert (b * (b * b) <= a * (a * a)) by nra.
  lra.
Qed.

(** X12. While a reset animation started at [startTime] is under way,
    the frame at [now] puts the camera at the point of the segment from the
    start position to the target position with parameter
    [easedProgress startTime now], and aims it at the target.  For frames
    not before the start the parameter lies in [0, 1], never decreases from
    one frame to a later one, and is 1 from one second after the start
    on. *)
Theorem reset_moves_forward_along_segment (a : Animation) (now later : R) s :
  startTime a <= now → now <= later →
  (now - startTime a < 1000 →
     camera (animate orbit_update a now s)
     = lookAt (target s)
         (set_position
            (lerpVectors (startPosition a) (targetPosition a)
               (easedProgress (startTime a) now))
            (camera s)))
  ∧ 0 <= easedProgress (startTime a) now <= 1
  ∧ easedProgress (startTime a) now <= easedProgress (startTime a) later
  ∧ (1000 <= now - startTime a → easedProgress (startTime a) now = 1).
Proof.
  intros H0 Hl. unfold easedProgress.
  set (p := Rmin ((now - startTime a) / 1000) 1).
  set (q := Rmin ((later - startTime a) / 1000) 1).
  assert (Hp : 0 <= p <= 1).
  { unfold p. split; [apply Rmin_glb; lra|apply Rmin_r]. }
  assert (Hq : q <= 1) by apply Rmin_r.
  assert (Hpq : p <= q).
  { unfold p, q. apply Rle_min_compat_r. lra. }
  split.
  - intros Hlt. unfold animate. fold p.
    destruct (Rlt_dec p 1) as [Hp1|Hp1]; [done|].
    exfalso. apply Hp1. unfold p. rewrite Rmin_left; lra.
  - split; [by apply easeOut_bounds|]. split; [by apply easeOut_monotone|].
    intros Hge. replace p with 1.
    + unfold easeOut. simpl. lra.
    + unfold p. rewrite Rmin_right; lra.
Qed.

End Resync.

(** *** Interaction cycles on [viewerAnimator] *)

Lemma rotation_is_frame_rate_independent_witness :
  camera (runFrames stillOrbit [(0, 16); (16, 16)] viewerAnimator)
  = camera (runFrames stillOrbit [(0, 32)] viewerAnimator).
Proof.
  apply (rotation_is_frame_rate_independent stillOrbit
           [(0, 16); (16, 16)] [(0, 32)] viewerAnimator).
  - exact viewerAnimator_autoRotating.
  - done.
  - done.
  - simpl. lra.
Defined.

Lemma manual_pause_is_stable_witness :
  isAutoRotating
    (run stillOrbit [MouseDown 0; MouseUp 0; Update 16 16]
       (toggleAutoRotation viewerAnimator)) = false.
Proof.
  apply (manual_pause_is_stable stillOrbit
           [MouseDown 0; MouseUp 0; Update 16 16] 32 16 viewerAnimator).
  - reflexivity.
  - intros t Ht. by apply elem_of_nil in Ht.
  - repeat constructor.
Defined.


Lemma reset_moves_forward_along_segment_witness :
  0 <= easedProgress 0 500 <= 1
  ∧ easedProgress 0 500 <= easedProgress 0 800.
Proof.
  destruct (reset_moves_forward_along_segment stillOrbit
              (mkAnimation (mkVector3 0 3 7) (mkVector3 5 3 5) 0 None)
              500 800 viewerAnimator) as (_ & H1 & H2 & _).
  - simpl. lra.
  - lra.
  - split; [exact H1|exact H2].
Defined.

Section Frames.

Context {Orbit : Type}.
Variable orbit_update : Orbit → Vector3 → Camera → Orbit * Vector3 * Camera * bool.
Implicit Types s : Animator Orbit.

Lemma controlsUpdate_orbit_fields s :
  userInteracting s = false →
  let s' := controlsUpdate orbit_update s in
  currentAngle s' = currentAngle s
  ∧ radius s' = radius s
  ∧ height s' = height s
  ∧ target s' = target s
  ∧ rotationSpeed s' = rotationSpeed s
  ∧ lastTime s' = lastTime s
  ∧ timers s' = timers s
  ∧ frames s' = frames s.
Proof.
  intros Hu. destruct s. simpl in Hu. subst.
  unfold controlsUpdate, onUserInteractionChange. simpl.
  destruct (orbit_update _ _ _) as [[[o t] cam] changed]. simpl.
  by destruct changed.
Qed.

Lemma autoRotating_userInteracting s :
  autoRotating s = true → userInteracting s = false.
Proof.
  unfold autoRotating. destruct (userInteracting s); [|done].
  by rewrite andb_false_r.
Qed.

(** ** Speed, radius and height *)

(** X22. The setters take effect at the next frame of auto-rotation,
    and [rotationSpeed] is in degrees per second: after
    [setRotationSpeed(speed)], [setRadius(radius)] and [setHeight(height)],
    one [update(deltaTime)] advances the [angleDegrees] of [getState] by
    [speed * deltaTime / 1000] and puts the camera at the new angle on the
    circle of the new radius about the target's vertical axis, at the new
    height. *)
Theorem setters_take_effect_at_next_frame
    (speed radius height now deltaTime : R) s :
  autoRotating s = true →
  let s' := update orbit_update now deltaTime
              (setHeight height (setRadius radius (setRotationSpeed speed s))) in
  state_angleDegrees (getState s')
  = state_angleDegrees (getState s) + speed * (deltaTime / 1000)
  ∧ state_radius (getState s') = radius
  ∧ state_height (getState s') = height
  ∧ position (camera s')
    = mkVector3 (vx (target s) + cos (state_angle (getState s')) * radius)
        height
        (vz (target s) + sin (state_angle (getState s')) * radius).
Proof.
  intros Ha s'.
  assert (Ha' : autoRotating
                  (setHeight height (setRadius radius (setRotationSpeed speed s)))
                = true) by exact Ha.
  unfold s'. rewrite (update_autoRotating orbit_update now deltaTime _ Ha').
  unfold getState, orbitPoint. simpl.
  split; [|done].
  pose proof PI_RGT_0. field. lra.
Qed.

(** ** The toggle button *)

(** X23. A click on the toggle button never moves the camera, and the
    orbit it leaves passes through the camera: whichever way it toggles,
    [currentAngle], [radius] and [height] are re-read from the camera's
    position, [userInteracting] is cleared and the timer of
    [interactionTimeout] is cancelled.  The flag flips, the label says what
    the next click will do, and pausing enables the orbit controls. *)
Theorem toggle_keeps_camera_in_place s :
  let s' := toggleAutoRotation s in
  camera s' = camera s
  ∧ orbitPoint s' = position (camera s)
  ∧ isAutoRotating s' = negb (isAutoRotating s)
  ∧ toggleText s'
    = (if isAutoRotating s then ResumeRotation else PauseRotation)
  ∧ userInteracting s' = false
  ∧ interactionTimeout s' = None
  ∧ (isAutoRotating s = true →
       enabled (controls s') = true ∧ toggleUserInteracting s' = false).
Proof.
  intros s'.
  assert (Hfields : camera s' = camera s
            ∧ target s' = target (updateCurrentAngle s)
            ∧ currentAngle s' = currentAngle (updateCurrentAngle s)
            ∧ radius s' = radius (updateCurrentAngle s)
            ∧ height s' = height (updateCurrentAngle s)
            ∧ toggleText s'
              = (if isAutoRotating s then ResumeRotation else PauseRotation)
            ∧ (isAutoRotating s = true →
                 enabled (controls s') = true ∧ toggleUserInteracting s' = false)).
  { unfold s', toggleAutoRotation, clearInteractionTimeout, pauseAutoRotation,
      resumeAutoRotation.
    destruct s as [? ? ? auto ? ? ? ? ? ? [id|] ? ? ? ? ? ? ? ? ? ? ? ? ?];
      destruct auto; simpl; repeat split; first [reflexivity|discriminate]. }
  destruct Hfields as (A & B & C & D & E & F & G).
  destruct (toggleAutoRotation_spec s) as (T1 & T2 & T3 & _).
  split; [done|]. split.
  { rewrite <- (updateCurrentAngle_on_orbit s). by apply orbitPoint_ext. }
  repeat split; try done; by apply G.
Qed.

(** ** A reset that completes during auto-rotation *)

(** X24. When the reset animation completes while the animator is
    auto-rotating, the rotation restarts from the stored initial state: the
    completing frame takes the animation off the queue and leaves
    auto-rotation on, and the next [update] puts the camera on the orbit of
    [initialRadius] and [initialHeight], at [initialAngle] advanced by that
    frame's share of the rotation, aimed at the target. *)
Theorem reset_then_rotation_restarts_at_initial_angle
    (a : Animation) (rest : list Animation) (now now' deltaTime : R) s :
  autoRotating s = true → frames s = a :: rest →
  onComplete a = Some ResetComplete → 1000 <= now - startTime a →
  let s1 := animationFrame orbit_update now s in
  let s2 := update orbit_update now' deltaTime s1 in
  frames s1 = rest
  ∧ autoRotating s1 = true
  ∧ currentAngle s2
    = initialAngle s + rotationSpeed s * PI / 180 * (deltaTime / 1000)
  ∧ radius s2 = initialRadius s
  ∧ height s2 = initialHeight s
  ∧ position (camera s2) = orbitPoint s2
  ∧ faces (camera s2) (target s).
Proof.
  intros Ha Hf Hc Hnow s1 s2.
  pose proof (autoRotating_userInteracting s Ha) as Hu.
  set (s0 := set_controls (set_controlsTarget (target s) (controls s))
               (set_height (initialHeight s)
                  (set_radius (initialRadius s)
                     (set_currentAngle (initialAngle s)
                        (set_camera
                           (lookAt (target s)
                              (set_position
                                 (lerpVectors (startPosition a) (targetPosition a)
                                    (easeOut 1))
                                 (camera s)))
                           (set_frames rest s)))))).
  assert (H1 : s1 = controlsUpdate orbit_update s0).
  { unfold s1, animationFrame. rewrite Hf. unfold animate.
    rewrite Rmin_right by lra.
    destruct (Rlt_dec 1 1) as [Hlt|_]; [lra|].
    rewrite Hc. reflexivity. }
  assert (Hu0 : userInteracting s0 = false) by exact Hu.
  destruct (controlsUpdate_orbit_fields s0 Hu0)
    as (A & B & C & D & E & _ & _ & F).
  destruct (controlsUpdate_flags orbit_update s0) as (F1 & F2 & F3 & _).
  rewrite <- H1 in A, B, C, D, E, F, F1, F2, F3.
  assert (Ha1 : autoRotating s1 = true).
  { unfold autoRotating. rewrite F1, F2, F3. exact Ha. }
  split; [exact F|]. split; [exact Ha1|].
  unfold s2. rewrite (update_autoRotating orbit_update now' deltaTime s1 Ha1).
  cbn [currentAngle radius height camera position set_lastTime set_camera
       set_currentAngle set_controls].
  unfold orbitPoint.
  cbn [currentAngle radius height target set_lastTime set_camera
       set_currentAngle set_controls].
  rewrite A, B, C, D, E.
  repeat split; reflexivity.
Qed.

End Frames.

Lemma setters_take_effect_at_next_frame_witness :
  state_angleDegrees
    (getState
       (update stillOrbit 0 1000
          (setHeight 4 (setRadius 6 (setRotationSpeed 90 viewerAnimator)))))
  = state_angleDegrees (getState viewerAnimator) + 90 * (1000 / 1000).
Proof.
  apply (setters_take_effect_at_next_frame stillOrbit 90 6 4 0 1000 viewerAnimator).
  reflexivity.
Defined.

Lemma reset_then_rotation_restarts_at_initial_angle_witness :
  radius
    (update stillOrbit 1016 16
       (animationFrame stillOrbit 1000
          (set_frames
             [mkAnimation (mkVector3 1 2 3) (mkVector3 5 3 5) 0 (Some ResetComplete)]
             viewerAnimator)))
  = initialRadius viewerAnimator.
Proof.
  apply (reset_then_rotation_restarts_at_initial_angle stillOrbit
           (mkAnimation (mkVector3 1 2 3) (mkVector3 5 3 5) 0 (Some ResetComplete))
           [] 1000 1016 16
           (set_frames
              [mkAnimation (mkVector3 1 2 3) (mkVector3 5 3 5) 0 (Some ResetComplete)]
              viewerAnimator)).
  - reflexivity.
  - reflexivity.
  - reflexivity.
  - simpl. lra.
Defined.

(** ** The two readings of the radius *)

Lemma viewerAnimator_planar_radius :
  radius (updateCurrentAngle viewerAnimator) = sqrt 50.
Proof. simpl. f_equal. lra. Qed.

Lemma sqrt_50_54 : sqrt 50 ≠ sqrt 54.
Proof. intros H. apply sqrt_inj in H; lra. Qed.

(** C3 on the code.  The animator the viewer constructs is auto-rotating
    with the camera at (5, 3, 5) and the target at (0, 1, 0).
    [storeInitialState] stores as orbit radius the distance of the camera
    from the target in space, [sqrt 54], where [updateCurrentAngle] and
    [update] take the radius in the horizontal plane, [sqrt 50] for this
    camera.  So rotation moves the camera off the circle it stands on, and
    after any frames that add up to one period (12 s at 30 degrees per
    second) it is not back at its starting position.  From the same animator
    with the radius re-read by [updateCurrentAngle], every such run ends at
    the starting position. *)
Theorem constructor_radius_breaks_full_rotation :
  autoRotating viewerAnimator = true
  ∧ rotationPeriod viewerAnimator = 12000
  ∧ radius viewerAnimator = sqrt 54
  ∧ radius (updateCurrentAngle viewerAnimator) = sqrt 50
  ∧ (∀ fs, totalTime fs = rotationPeriod viewerAnimator →
       position (camera (runFrames stillOrbit fs viewerAnimator))
       ≠ position (camera viewerAnimator))
  ∧ (∀ fs, totalTime fs = rotationPeriod viewerAnimator →
       position (camera (runFrames stillOrbit fs (updateCurrentAngle viewerAnimator)))
       = position (camera viewerAnimator)).
Proof.
  assert (Hperiod : rotationPeriod viewerAnimator = 12000).
  { unfold rotationPeriod. simpl. lra. }
  assert (Hspeed : rotationSpeed viewerAnimator ≠ 0) by (simpl; lra).
  split; [reflexivity|]. split; [exact Hperiod|].
  split; [exact viewerAnimator_radius|].
  split; [exact viewerAnimator_planar_radius|]. split.
  - intros fs Hfs.
    destruct (full_rotation_returns stillOrbit fs viewerAnimator
                viewerAnimator_autoRotating Hspeed Hfs) as (_ & _ & _ & Hpos & _).
    destruct full_rotation_leaves_start_position as (_ & H12 & Hne).
    destruct (full_rotation_returns stillOrbit [(0, 12000)] viewerAnimator
                viewerAnimator_autoRotating Hspeed H12) as (_ & _ & _ & Hpos12 & _).
    rewrite Hpos. rewrite Hpos12 in Hne. exact Hne.
  - intros fs Hfs.
    destruct (full_rotation_returns stillOrbit fs (updateCurrentAngle viewerAnimator))
      as (_ & _ & _ & Hpos & _); [reflexivity|exact Hspeed|exact Hfs|].
    rewrite Hpos. apply updateCurrentAngle_on_orbit.
Qed.

(** ** Frames of the reset animation *)

Lemma animate_under_way {Orbit : Type}
    (orbit_update : Orbit → Vector3 → Camera → Orbit * Vector3 * Camera * bool)
    (a : Animation) (now : R) (s : Animator Orbit) :
  now - startTime a < 1000 →
  animate orbit_update a now s
  = set_frames (frames s ++ [a])
      (set_camera
         (lookAt (target s)
            (set_position
               (lerpVectors (startPosition a) (targetPosition a)
                  (easedProgress (startTime a) now))
               (camera s)))
         s).
Proof.
  intros Hlt. unfold animate, easedProgress.
  destruct (Rlt_dec _ _) as [_|Hn]; [done|].
  exfalso. apply Hn. rewrite Rmin_left; lra.
Qed.

Lemma animate_complete {Orbit : Type}
    (orbit_update : Orbit → Vector3 → Camera → Orbit * Vector3 * Camera * bool)
    (a : Animation) (now : R) (s : Animator Orbit) :
  1000 <= now - startTime a → onComplete a = Some ResetComplete →
  animate orbit_update a now s
  = runCompletion orbit_update ResetComplete
      (set_camera (lookAt (target s) (set_position (targetPosition a) (camera s))) s).
Proof.
  intros Hge Hc. unfold animate. rewrite Rmin_right by lra.
  destruct (Rlt_dec 1 1) as [Hlt|_]; [lra|].
  by rewrite Hc, lerpVectors_1.
Qed.

Lemma reset_half_way (s : Animator unit) :
  isAutoRotating s = false → frames s = [] →
  let a := mkAnimation (position (camera s)) (initialPosition s) 32
             (Some ResetComplete) in
  let s1 := run changingOrbit resetHalfWay s in
  position (camera s1)
  = lerpVectors (position (camera s)) (initialPosition s) (easedProgress 32 532)
  ∧ frames s1 = [a]
  ∧ userInteracting s1 = userInteracting s.
Proof.
  intros Ha Hf.
  destruct s as [cam ctl tg ? ? ? ? ? ? ui io ? ? ? ? ? ip ? ? ? ? ? ? fr].
  simpl in Ha, Hf. subst. intros a s1. unfold s1, resetHalfWay, run.
  cbn [foldl handle]. unfold resetCamera, animateToPosition.
  cbn [camera initialPosition]. fold a.
  rewrite (animate_under_way changingOrbit a 32) by (simpl; lra).
  unfold animationFrame. cbn [frames set_frames app].
  rewrite (animate_under_way changingOrbit a 532) by (simpl; lra).
  simpl. destruct ui; [destruct io|]; simpl; repeat split; reflexivity.
Qed.

Lemma reset_completes_heard (a : Animation) (now : R) (s1 : Animator unit) :
  frames s1 = [a] → onComplete a = Some ResetComplete →
  1000 <= now - startTime a → userInteracting s1 = true →
  let s2 := handle changingOrbit (ResetFrame now) s1 in
  let dx := vx (targetPosition a) - vx (target s1) in
  let dz := vz (targetPosition a) - vz (target s1) in
  position (camera s2) = targetPosition a
  ∧ faces (camera s2) (target s1)
  ∧ controlsTarget (controls s2) = target s1
  ∧ frames s2 = []
  ∧ currentAngle s2 = atan2 dz dx
  ∧ height s2 = vy (targetPosition a)
  ∧ radius s2 = sqrt (dx * dx + dz * dz)
  ∧ stored s2 = stored s1.
Proof.
  intros Hf Hc Hnow Hu.
  destruct s1 as [cam ctl tg ? ? ? ? ? ? ui io ? ? ? ? ? ip ? ? ? ? ? ? fr].
  simpl in Hf, Hu. subst. intros s2 dx dz. unfold s2, dx, dz.
  cbn [handle]. unfold animationFrame. cbn [frames].
  rewrite animate_complete by done.
  unfold faces. simpl. destruct io; simpl; repeat split; reflexivity.
Qed.

(** C8 on the code.  The viewer's animator, a drag that leaves the camera
    at (7, 4, 1), the release, and a click on the reset button within the
    resume delay; every [controls.update()] of this run follows a move of
    the camera and dispatches [change].  The animation runs from (7, 4, 1):
    half-way the camera is on the segment, and the frame one second after
    the click puts it exactly at the stored initial position (5, 3, 5), with
    the controls pointed at the target and no frame left.  The completion
    callback sets [currentAngle], [radius] and [height] to the stored
    values and calls [controls.update()]; the user still counts as
    interacting, so the [change] listener re-reads the three from the
    camera.  Angle and height come out as stored; the radius comes out as
    the distance in the horizontal plane, [sqrt 50], not the stored
    [initialRadius], which [storeInitialState] took in space for the same
    camera position, [sqrt 54]. *)
Theorem reset_after_release_ends_off_initial_radius :
  let s := run changingOrbit dragAndRelease viewerAnimator in
  let s1 := run changingOrbit resetHalfWay s in
  let s2 := handle changingOrbit (ResetFrame 1032) s1 in
  (position (camera s) = mkVector3 7 4 1 ∧ userInteracting s = true
   ∧ isMouseDown s = false ∧ pendingIds s = [1%nat])
  ∧ (position (camera s1)
     = lerpVectors (mkVector3 7 4 1) (mkVector3 5 3 5) (easedProgress 32 532)
     ∧ frames s1
       = [mkAnimation (mkVector3 7 4 1) (mkVector3 5 3 5) 32 (Some ResetComplete)]
     ∧ userInteracting s1 = true)
  ∧ (position (camera s2) = initialPosition viewerAnimator
     ∧ initialPosition viewerAnimator = mkVector3 5 3 5
     ∧ faces (camera s2) (target viewerAnimator)
     ∧ controlsTarget (controls s2) = target viewerAnimator
     ∧ frames s2 = []
     ∧ currentAngle s2 = initialAngle viewerAnimator
     ∧ height s2 = initialHeight viewerAnimator)
  ∧ initialRadius s2 = sqrt 54
  ∧ radius s2 = sqrt 50
  ∧ radius s2 ≠ initialRadius s2.
Proof.
  intros s s1 s2.
  assert (Hs : position (camera s) = mkVector3 7 4 1 ∧ userInteracting s = true
               ∧ isMouseDown s = false ∧ pendingIds s = [1%nat]
               ∧ isAutoRotating s = false ∧ frames s = []).
  { repeat split; reflexivity. }
  assert (Hst : stored s = stored viewerAnimator) by apply run_stored.
  assert (Hv : stored viewerAnimator
               = (mkVector3 5 3 5, initialAngle viewerAnimator,
                  initialRadius viewerAnimator, initialHeight viewerAnimator,
                  mkVector3 0 1 0, resumeDelay viewerAnimator)) by reflexivity.
  assert (Hh : initialHeight viewerAnimator = 3) by reflexivity.
  assert (Ha : initialAngle viewerAnimator = atan2 (5 - 0) (5 - 0)) by reflexivity.
  pose proof viewerAnimator_radius as Hr54.
  assert (Hir : initialRadius viewerAnimator = radius viewerAnimator) by reflexivity.
  clearbody s.
  destruct Hs as (Hp & Hu & Hm & Hids & Hauto & Hfr).
  rewrite Hv in Hst. unfold stored in Hst.
  injection Hst as Hip Hia Hirr Hih Htg _.
  destruct (reset_half_way s Hauto Hfr) as (P1 & F1 & U1).
  fold s1 in P1, F1, U1. rewrite Hp, Hip in P1, F1. rewrite Hu in U1.
  assert (Hst1 : stored s1 = stored s) by apply run_stored.
  clearbody s1.
  destruct (reset_completes_heard _ 1032 s1 F1 eq_refl ltac:(simpl; lra) U1)
    as (A & B & C & D & E & F & G & Hst2).
  fold s2 in A, B, C, D, E, F, G, Hst2.
  clearbody s2.
  unfold stored in Hst1, Hst2.
  injection Hst1 as _ _ Hir1 _ Htg1 _. injection Hst2 as _ _ Hir2 _ _ _.
  rewrite Htg1, Htg in B, C, E, G. cbn [targetPosition vx vy vz] in A, E, F, G.
  split; [done|]. split; [done|].
  assert (Hr : radius s2 = sqrt 50) by (rewrite G; f_equal; lra).
  assert (Hi2 : initialRadius s2 = sqrt 54).
  { rewrite Hir2, Hir1, Hirr. exact Hr54. }
  split.
  { split; [exact A|]. split; [reflexivity|]. split; [exact B|].
    split; [exact C|]. split; [exact D|]. split; [by rewrite E, Ha|].
    by rewrite F, Hh. }
  split; [exact Hi2|]. split; [exact Hr|].
  rewrite Hr, Hi2. exact sqrt_50_54.
Qed.
End CameraFacts.
(** * Facts about the builder *)

Module ProductFacts.
Import PrimFloat.
Import Product.

Set Warnings "-inexact-float".

Lemma construct_chair : construct [] = Some chair.
Proof. vm_compute. reflexivity. Qed.

(** ** The loop of [createBackrest] *)

(** X13. The loop [for (let i = -0.6; i <= 0.6; i += 0.4)] of
    [createBackrest] adds exactly three support bars, whatever was built
    before and however many rounds it is allowed beyond four: at
    x = -0.6, -0.19999999999999996 and 0.20000000000000007.  The fourth
    value of [i] is 0.6000000000000001 in double precision, which is above
    the bound 0.6, so no bar is made at x = 0.6. *)
Theorem backrest_has_three_support_bars (rounds : nat) (c : Creator) :
  let x1 := (-0.6)%float in
  let x2 := (-0.19999999999999996)%float in
  let x3 := (0.20000000000000007)%float in
  supportBars (4 + rounds) (-0.6)%float c
  = Some (set_productParts
            (productParts c
             ++ [supportBar x1 c; supportBar x2 c; supportBar x3 c]) c)
  ∧ (x1 + 0.4 = x2 ∧ x2 + 0.4 = x3
     ∧ x3 + 0.4 = 0.6000000000000001
     ∧ PrimFloat.leb (x3 + 0.4) 0.6 = false)%float.
Proof.
  split; [|repeat split; reflexivity].
  cbn -[PrimFloat.leb PrimFloat.add app]. 
  change ((-0.6) <=? 0.6)%float with true. cbv iota.
  change ((-0.6) + 0.4 <=? 0.6)%float with true. cbv iota.
  change ((-0.6) + 0.4 + 0.4 <=? 0.6)%float with true. cbv iota.
  change ((-0.6) + 0.4 + 0.4 + 0.4 <=? 0.6)%float with false. cbv iota.
  destruct c as [h ms ps y oy fl]. unfold push, supportBar, set_productParts. simpl.
  rewrite <- !app_assoc. reflexivity.
Qed.

(** ** The chair and the interaction manager *)

(** X14. [new ProductCreator(scene)] builds thirteen meshes, in this
    order: the seat on the cushion material, then the backrest, three
    support bars, four legs named Chair Leg 1 to 4, and the left and right
    armrests each followed by its support, all on the one wood material; the
    metal material is used by none.  Handed to [InteractionManager], they
    make its constructor succeed: it stores for each mesh a clone of its own,
    with the parameters of the mesh's material, at an address none of the
    meshes points to. *)
Theorem chair_is_built_and_accepted (hidden : bool) (text : string) :
  construct [] = Some chair
  ∧ name <$> getInteractiveParts chair
    = ["Chair Seat"; "Chair Backrest"; "Backrest Support"; "Backrest Support";
       "Backrest Support"; "Chair Leg 1"; "Chair Leg 2"; "Chair Leg 3";
       "Chair Leg 4"; "Left Armrest"; "Left Armrest Support"; "Right Armrest";
       "Right Armrest Support"]
  ∧ (∀ p, p ∈ getInteractiveParts chair →
       material p = materialOfType p ∧ material p ≠ metal (materials chair))
  ∧ Interaction.wf_scene (scene chair hidden text) = true
  ∧ ∃ s0, Interaction.start (scene chair hidden text) = Some s0
      ∧ Interaction.Reachable (scene chair hidden text) s0
      ∧ ∀ i p, getInteractiveParts chair !! i = Some p →
          ∃ r, Interaction.originalMaterials s0 !! i = Some r
            ∧ 3 ≤ r
            ∧ Interaction.heap s0 !! r = heap chair !! material p.
Proof.
  split; [exact construct_chair|]. split; [reflexivity|]. split.
  { intros p Hp. unfold getInteractiveParts, chair in Hp. simpl in Hp.
    repeat (apply elem_of_cons in Hp as [->|Hp]; [by vm_compute|]).
    by apply elem_of_nil in Hp. }
  assert (Hwf : Interaction.wf_scene (scene chair hidden text) = true)
    by reflexivity.
  split; [exact Hwf|].
  destruct (Interaction.start (scene chair hidden text)) as [s0|] eqn:Hs.
  2:{ vm_compute in Hs. discriminate Hs. }
  exists s0. split; [done|]. split.
  { split; [done|]. exists s0, []. by split. }
  destruct (InteractionFacts.start_spec _ _ Hwf Hs) as (_ & _ & _ & _ & Hst).
  intros i p Hi.
  destruct (Hst i (asMesh p)) as (r & Hr & Hrange & Hheap).
  { unfold scene. cbn [Interaction.sc_parts]. by rewrite list_lookup_fmap, Hi. }
  exists r. split; [done|]. split; [simpl in Hrange; lia|]. exact Hheap.
Qed.

(** ** Highlighting *)

Lemma Built_chair : Built chair.
Proof.
  split; [done|]. split; [done|]. split; [done|].
  intros i p0 p H0 H1. rewrite H0 in H1. injection H1 as <-.
  split; [by destruct p0|].
  apply list_elem_of_lookup_2 in H0. unfold chair in H0. simpl in H0.
  repeat (apply elem_of_cons in H0 as [->|H0]; [simpl; lia|]).
  by apply elem_of_nil in H0.
Qed.

Lemma highlightPart_on_spec (c : Creator) (part : nat) (p : Part) (m : Interaction.Material) :
  productParts c !! part = Some p → heap c !! material p = Some m →
  highlightPart part true c
  = Some (set_productParts
            (<[part := set_material (length (heap c)) p]> (productParts c))
            (set_heap
               (heap c ++ [Interaction.tint 0x444444 (Interaction.emissiveIntensity m) m])
               c)).
Proof.
  intros Hp Hm. unfold highlightPart, Interaction.clone. rewrite Hp. simpl.
  rewrite Hm. simpl. do 3 f_equal.
  replace (length (heap c)) with (length (heap c) + 0) at 1 by lia.
  by rewrite alter_app_r.
Qed.

Lemma highlightPart_off_spec (c : Creator) (part : nat) (p : Part) :
  productParts c !! part = Some p →
  highlightPart part false c
  = Some (set_productParts
            (<[part := set_material
                         (if decide (partType p = "seat")
                          then cushion (materials c) else wood (materials c)) p]>
               (productParts c)) c).
Proof. intros Hp. unfold highlightPart. by rewrite Hp. Qed.

Lemma chair_material_of_type (i : nat) (p0 : Part) :
  productParts chair !! i = Some p0 → material p0 = materialOfType p0.
Proof.
  intros H0. apply list_elem_of_lookup_2 in H0. unfold chair in H0. simpl in H0.
  repeat (apply elem_of_cons in H0 as [->|H0]; [by vm_compute|]).
  by apply elem_of_nil in H0.
Qed.

Lemma Built_lookup (c : Creator) (i : nat) (p0 : Part) :
  Built c → productParts chair !! i = Some p0 →
  ∃ p m, productParts c !! i = Some p ∧ set_material (material p0) p = p0
    ∧ heap c !! material p = Some m.
Proof.
  intros (Hh & Hm & Hl & Hp) H0.
  destruct (lookup_lt_is_Some_2 (productParts c) i) as [p Hi].
  { rewrite Hl. by eapply lookup_lt_Some. }
  destruct (Hp i p0 p H0 Hi) as [E Hlt].
  destruct (lookup_lt_is_Some_2 _ _ Hlt) as [m Hmm].
  by exists p, m.
Qed.

Lemma Built_set_part (c : Creator) (i r : nat) (p : Part) (h : list Interaction.Material) :
  Built c → productParts c !! i = Some p →
  heap c `prefix_of` h → r < length h →
  Built (set_productParts (<[i := set_material r p]> (productParts c)) (set_heap h c)).
Proof.
  intros (Hh & Hm & Hl & Hp) Hi Hpre Hr.
  split; [simpl; by etrans|]. split; [done|].
  split; [simpl; by rewrite length_insert|].
  intros j q0 q H0 H1. simpl in H1 |- *.
  destruct (decide (i = j)) as [->|Hne].
  - rewrite list_lookup_insert_eq in H1 by (by eapply lookup_lt_Some).
    injection H1 as <-. destruct (Hp j q0 p H0 Hi) as [E _].
    split; [|done]. rewrite <- E. by destruct p.
  - rewrite list_lookup_insert_ne in H1 by done.
    destruct (Hp j q0 q H0 H1) as [E Hlt]. split; [done|].
    apply prefix_length in Hpre. lia.
Qed.

Lemma call_Built (e : Call) (c c' : Creator) :
  Built c → call e c = Some c' → Built c'.
Proof.
  intros HB. destruct e as [part [|]|time|]; simpl.
  - intros H.
    destruct (productParts c !! part) as [p|] eqn:Hp.
    2:{ unfold highlightPart in H. by rewrite Hp in H. }
    destruct (heap c !! material p) as [m|] eqn:Hm.
    2:{ unfold highlightPart, Interaction.clone in H. rewrite Hp in H. simpl in H.
        by rewrite Hm in H. }
    rewrite (highlightPart_on_spec c part p m Hp Hm) in H. injection H as <-.
    apply Built_set_part; [done|done|by apply prefix_app_r|].
    rewrite length_app. simpl. lia.
  - intros H. unfold highlightPart in H.
    destruct (productParts c !! part) as [p|] eqn:Hp; simpl in H; [|done].
    injection H as <-.
    replace c with (set_heap (heap c) c) at 2 by (by destruct c).
    apply Built_set_part; [done|done|done|].
    destruct HB as (Hh & Hm & _). rewrite Hm.
    apply prefix_length in Hh. simpl in Hh. case_decide; simpl; lia.
  - intros [= <-]. unfold updateFloating. destruct (floating c); [|done].
    destruct HB as (? & ? & ? & ?). by split.
  - intros [= <-]. destruct HB as (? & ? & ? & ?). by split.
Qed.

Lemma calls_Built (es : list Call) : ∀ c c',
  Built c → calls es c = Some c' → Built c'.
Proof.
  induction es as [|e es IH]; intros c c' HB; simpl.
  - by intros [= <-].
  - destruct (call e c) as [c1|] eqn:He; simpl; [|done].
    apply IH. by eapply call_Built.
Qed.

(** X15. After any calls on the chair, [highlightPart(part, true)]
    followed by [highlightPart(part, false)] on one of its thirteen meshes
    succeeds and gives back the mesh exactly as it was built, pointing again
    at the shared material of its type: the first call points the mesh at a
    fresh clone of its current material with emissive 0x444444 and the
    clone's own intensity, the second picks cushion for the seat and wood
    for the rest.  The shared material still has the parameters it was
    created with, and the other meshes are as before the two calls. *)
Theorem highlight_then_reset_restores_built_mesh
    (es : list Call) (c : Creator) (part : nat) (p0 : Part) :
  calls es chair = Some c → productParts chair !! part = Some p0 →
  ∃ c1 c2 p m,
    productParts c !! part = Some p ∧ heap c !! material p = Some m
    ∧ highlightPart part true c = Some c1
    ∧ productParts c1 !! part = Some (set_material (length (heap c)) p)
    ∧ heap c1 !! length (heap c)
      = Some (Interaction.tint 0x444444 (Interaction.emissiveIntensity m) m)
    ∧ highlightPart part false c1 = Some c2
    ∧ productParts c2 !! part = Some p0
    ∧ heap c2 !! material p0 = heap chair !! material p0
    ∧ ∀ j, j ≠ part → productParts c2 !! j = productParts c !! j.
Proof.
  intros Hc H0.
  pose proof (calls_Built es chair c Built_chair Hc) as HB.
  destruct (Built_lookup c part p0 HB H0) as (p & m & Hp & E & Hm).
  pose proof (highlightPart_on_spec c part p m Hp Hm) as H1.
  set (c1 := set_productParts
               (<[part := set_material (length (heap c)) p]> (productParts c))
               (set_heap
                  (heap c ++ [Interaction.tint 0x444444 (Interaction.emissiveIntensity m) m])
                  c)) in H1.
  assert (Hp1 : productParts c1 !! part = Some (set_material (length (heap c)) p)).
  { simpl. apply list_lookup_insert_eq. by eapply lookup_lt_Some. }
  pose proof (highlightPart_off_spec c1 part _ Hp1) as H2.
  pose proof (call_Built (HighlightPart part true) c c1 HB H1) as HB1.
  destruct HB as (Hh & Hms & Hl & Hparts).
  assert (Ht : partType p = partType p0) by (rewrite <- E; by destruct p).
  assert (Hmat : (if decide (partType (set_material (length (heap c)) p) = "seat")
                  then cushion (materials c1) else wood (materials c1))
                 = material p0).
  { rewrite (chair_material_of_type part p0 H0). unfold materialOfType.
    simpl. rewrite Ht, Hms. done. }
  rewrite Hmat in H2.
  eexists c1, _, p, m.
  split; [done|]. split; [done|]. split; [done|]. split; [done|].
  split. { simpl. by rewrite lookup_app_r, Nat.sub_diag. }
  split; [exact H2|]. split.
  { simpl. rewrite list_lookup_insert_eq.
    - f_equal. rewrite <- E. by destruct p.
    - rewrite length_insert. by eapply lookup_lt_Some. }
  split.
  { unfold c1. cbn [heap set_productParts set_heap].
    destruct (lookup_lt_is_Some_2 (heap chair) (material p0)) as [m0 Hm0].
    { rewrite (chair_material_of_type part p0 H0). unfold materialOfType.
      destruct (decide (partType p0 = "seat")); vm_compute; lia. }
    rewrite Hm0. apply lookup_app_l_Some.
    by eapply prefix_lookup_Some. }
  intros j Hj. simpl. by rewrite !list_lookup_insert_ne.
Qed.

(** ** The floating animation *)

Lemma call_floating (e : Call) (c c' : Creator) :
  is_add e = false → call e c = Some c' →
  floating c' = floating c ∧ originalY c' = originalY c
  ∧ (floating c = false → groupY c' = groupY c)
  ∧ (∀ y0, floating c = true → originalY c = Some y0 →
       (y0 - 0.1 <= groupY c <= y0 + 0.1)%R →
       (y0 - 0.1 <= groupY c' <= y0 + 0.1)%R).
Proof.
  destruct e as [part highlight|time|]; [| |done]; intros _; simpl.
  - intros H. unfold highlightPart in H.
    destruct (productParts c !! part) as [p|]; simpl in H; [|done].
    destruct highlight.
    + destruct (Interaction.clone _ _) as [[h r]|]; simpl in H; [|done].
      by injection H as <-.
    + by injection H as <-.
  - intros [= <-]. unfold updateFloating.
    destruct (floating c) eqn:Ef; [|done]. simpl.
    split; [done|]. split; [done|]. split; [done|].
    intros y0 _ -> _. simpl.
    pose proof (SIN_bound (time * 0.001)) as [Hlo Hhi]. lra.
Qed.

(** X16. Once [addFloatingAnimation] has run, whatever is called next
    (frames of [updateFloating], [highlightPart]), the group stays within 0.1
    of the height it had at that call, and [updateFloating(time)] puts it at
    exactly that height plus [sin(time * 0.001) * 0.1]: the rest height is
    kept in [userData.originalY] and never written again, so the bobbing does
    not drift.  Before [addFloatingAnimation], [updateFloating] moves
    nothing. *)
Theorem floating_does_not_drift (es : list Call) (time : R) (c c' : Creator) :
  Forall (λ e, is_add e = false) es →
  calls es (addFloatingAnimation c) = Some c' →
  (groupY c - 0.1 <= groupY c' <= groupY c + 0.1)%R
  ∧ groupY (updateFloating time c') = (groupY c + sin (time * 0.001) * 0.1)%R
  ∧ (floating c = false → groupY (updateFloating time c) = groupY c).
Proof.
  intros Hes Hc.
  assert (Hgen : ∀ d, floating d = true → originalY d = Some (groupY c) →
            (groupY c - 0.1 <= groupY d <= groupY c + 0.1)%R →
            calls es d = Some c' →
            floating c' = true ∧ originalY c' = Some (groupY c)
            ∧ (groupY c - 0.1 <= groupY c' <= groupY c + 0.1)%R).
  { clear Hc. induction es as [|e es IH]; intros d Hf Ho Hy; simpl.
    - by intros [= <-].
    - apply Forall_cons in Hes as [He Hes].
      destruct (call e d) as [d1|] eqn:Hd; simpl; [|done].
      destruct (call_floating e d d1 He Hd) as (A & B & _ & D).
      apply (IH Hes); [congruence|congruence|by apply D]. }
  destruct (Hgen (addFloatingAnimation c)) as (Hf & Ho & Hy);
    [done|done|simpl; lra|done|].
  split; [done|]. split.
  - unfold updateFloating. rewrite Hf, Ho. done.
  - intros Hoff. unfold updateFloating. by rewrite Hoff.
Qed.

(** *** On the chair *)

Lemma highlight_then_reset_restores_built_mesh_witness :
  ∃ c1 c2, highlightPart 0 true chair = Some c1
    ∧ highlightPart 0 false c1 = Some c2
    ∧ productParts c2 !! 0 = productParts chair !! 0.
Proof.
  destruct (highlight_then_reset_restores_built_mesh [] chair 0 _ eq_refl eq_refl)
    as (c1 & c2 & p & m & _ & _ & H1 & _ & _ & H2 & Hp & _).
  exists c1, c2. split; [exact H1|]. split; [exact H2|exact Hp].
Defined.

Lemma floating_does_not_drift_witness :
  ∃ c', calls [UpdateFloating 500; HighlightPart 1 true; UpdateFloating 1000]
          (addFloatingAnimation chair) = Some c'
    ∧ (groupY chair - 0.1 <= groupY c' <= groupY chair + 0.1)%R.
Proof.
  eexists. split; [vm_compute; reflexivity|].
  apply (floating_does_not_drift
           [UpdateFloating 500; HighlightPart 1 true; UpdateFloating 1000] 0 chair).
  - repeat constructor.
  - vm_compute. reflexivity.
Defined.

End ProductFacts.
(** * Facts about the listeners *)

Module DomFacts.
Import Dom.

Lemma addEventListener_new (t : Target) (ty : string) (f : Fn) (p : Page) :
  (∀ l, l ∈ listeners p → callback l ≠ f) →
  addEventListener t ty f p
  = mkPage (listeners p ++ [mkListener t ty f]) (nextFunction p).
Proof.
  intros Hnew. unfold addEventListener. case_decide as Hin; [|done].
  by destruct (Hnew _ Hin).
Qed.

Lemma removeEventListener_absent (t : Target) (ty : string) (f : Fn) (p : Page) :
  (∀ l, l ∈ listeners p → callback l ≠ f) →
  removeEventListener t ty f p = p.
Proof.
  intros Hnew. unfold removeEventListener. destruct p as [ls n]. simpl in *.
  f_equal. induction ls as [|l ls IH]; [done|].
  rewrite filter_cons. rewrite decide_True.
  - f_equal. apply IH. intros l' Hl'. apply Hnew. by right.
  - intros ->. by apply (Hnew _ ltac:(left)).
Qed.

Lemma filter_absent (x : Listener) (ls : list Listener) :
  x ∉ ls → filter (λ l, l ≠ x) ls = ls.
Proof.
  induction ls as [|l ls IH]; [done|]. intros Hx.
  apply not_elem_of_cons in Hx as [Hne Hx].
  rewrite filter_cons, decide_True by done. by rewrite IH.
Qed.

Lemma filter_remove_one (x : Listener) (l1 l2 : list Listener) :
  x ∉ l1 → x ∉ l2 → filter (λ l, l ≠ x) (l1 ++ x :: l2) = l1 ++ l2.
Proof.
  intros H1 H2. rewrite filter_app, filter_cons.
  rewrite decide_False by (intros Hne; by apply Hne).
  by rewrite !filter_absent.
Qed.

Lemma arrowsOnly_not_elem (p : Page) (t : Target) (ty : string) (k : nat) (m : Method) :
  arrowsOnly p → mkListener t ty (Arrow (nextFunction p + k) m) ∉ listeners p.
Proof.
  intros Hp Hin. destruct (Hp _ Hin) as (id & calls & E & Hlt).
  simpl in E. injection E as <- _. lia.
Qed.

Lemma arrowsOnly_callback (p : Page) (l : Listener) (k : nat) (m : Method) :
  arrowsOnly p → l ∈ listeners p → callback l ≠ Arrow (nextFunction p + k) m.
Proof.
  intros Hp Hin E. destruct (Hp _ Hin) as (id & calls & E' & Hlt).
  rewrite E in E'. injection E' as <- _. lia.
Qed.

(** ** [InteractionManager] *)

Ltac add_next Hp :=
  match goal with
  | |- context [addEventListener ?t ?ty ?f (mkPage ?l ?n)] =>
      rewrite (addEventListener_new t ty f (mkPage l n));
      [cbn [listeners nextFunction]
      |let l' := fresh "l" in
       let Hl := fresh "Hl" in
       intros l' Hl; cbn [listeners] in Hl;
       repeat (apply elem_of_app in Hl as [Hl|Hl]);
       [let id := fresh "id" in
        let E := fresh "E" in
        let Hlt := fresh "Hlt" in
        destruct (Hp _ Hl) as (id & ? & E & Hlt); rewrite E;
        cbn [nextFunction] in Hlt; intros [=]; lia
       |repeat (apply elem_of_cons in Hl as [->|Hl]; [simpl; intros [=]; lia|]);
        by apply elem_of_nil in Hl ..]]
  end.

Lemma interaction_setup_listeners (p : Page) :
  arrowsOnly p →
  InteractionListeners.setupEventListeners p
  = mkPage (listeners p ++ InteractionListeners.added (nextFunction p))
      (nextFunction p + 4).
Proof.
  intros Hp. unfold InteractionListeners.setupEventListeners, arrow.
  destruct p as [ls n]. cbn [listeners nextFunction] in *.
  do 4 add_next Hp.
  rewrite <- !app_assoc. cbn [app]. unfold InteractionListeners.added.
  repeat f_equal; lia.
Qed.

Lemma arrowsOnly_app (ls news : list Listener) (n n' : nat) :
  arrowsOnly (mkPage ls n) → n ≤ n' →
  (∀ l, l ∈ news → ∃ id calls, callback l = Arrow id calls ∧ id < n') →
  arrowsOnly (mkPage (ls ++ news) n').
Proof.
  intros Hp Hle Hnew l Hl. cbn [listeners nextFunction] in *.
  apply elem_of_app in Hl as [Hl|Hl].
  - destruct (Hp _ Hl) as (id & calls & E & Hlt). exists id, calls.
    split; [done|]. simpl in Hlt. lia.
  - by apply Hnew.
Qed.

Lemma interaction_setup_arrowsOnly (p : Page) :
  arrowsOnly p → arrowsOnly (InteractionListeners.setupEventListeners p).
Proof.
  intros Hp. rewrite interaction_setup_listeners by done.
  destruct p as [ls n]. apply (arrowsOnly_app ls _ n); [done|simpl; lia|].
  intros l Hl. unfold InteractionListeners.added in Hl. cbn [nextFunction] in *.
  repeat (apply elem_of_cons in Hl as [->|Hl];
          [eexists _, _; split; [reflexivity|lia]|]).
  by apply elem_of_nil in Hl.
Qed.

Lemma interaction_destroy_arrowsOnly (p : Page) :
  arrowsOnly p → InteractionListeners.destroy p = p.
Proof.
  intros Hp. unfold InteractionListeners.destroy.
  assert (Hno : ∀ m l, l ∈ listeners p → callback l ≠ Prototype m).
  { intros m l Hl E. destruct (Hp _ Hl) as (id & calls & E' & _). congruence. }
  cbv zeta.
  rewrite (removeEventListener_absent Canvas "mousemove" _ p) by apply Hno.
  rewrite (removeEventListener_absent Canvas "click" _ p) by apply Hno.
  rewrite (removeEventListener_absent Canvas "mouseleave" _ p) by apply Hno.
  by rewrite (removeEventListener_absent CloseInfoButton "click" _ p) by apply Hno.
Qed.

(** X17. [InteractionManager.destroy] removes no listener.  On a page
    that holds only arrow-function listeners, [setupEventListeners] adds
    four more (mousemove, click and mouseleave on the canvas, click on the
    close button), each a new arrow function; [destroy] calls
    [removeEventListener] with the methods themselves, which were never
    registered, so the page after [destroy] is the page before it and a
    click on the canvas is still dispatched to the arrow function that calls
    [onMouseClick]. *)
Theorem interaction_destroy_removes_no_listener (p : Page) :
  arrowsOnly p →
  let p' := InteractionListeners.setupEventListeners p in
  listeners p' = listeners p ++ InteractionListeners.added (nextFunction p)
  ∧ InteractionListeners.destroy p' = p'
  ∧ dispatch Canvas "click" (InteractionListeners.destroy p')
    = dispatch Canvas "click" p
      ++ [Arrow (nextFunction p + 1) InteractionOnMouseClick].
Proof.
  intros Hp p'.
  assert (Hl : listeners p'
               = listeners p ++ InteractionListeners.added (nextFunction p)).
  { unfold p'. by rewrite interaction_setup_listeners. }
  assert (Hd : InteractionListeners.destroy p' = p').
  { apply interaction_destroy_arrowsOnly. by apply interaction_setup_arrowsOnly. }
  split; [done|]. split; [done|].
  rewrite Hd. unfold dispatch. rewrite Hl, filter_app, fmap_app. f_equal.
Qed.

(** ** [CameraAnimator] *)

Lemma camera_setup_listeners (p : Page) :
  arrowsOnly p →
  CameraListeners.setup p
  = (let n := nextFunction p in
     CameraListeners.mkBound
       (Arrow n CameraToggleAutoRotation) (Arrow (n + 1) CameraResetCamera)
       (Arrow (n + 2) CameraOnUserInteractionStart)
       (Arrow (n + 3) CameraOnUserInteractionEnd)
       (Arrow (n + 4) CameraOnUserInteractionChange)
       (Arrow (n + 5) CameraOnMouseDown) (Arrow (n + 6) CameraOnMouseMove)
       (Arrow (n + 7) CameraOnMouseUp) (Arrow (n + 8) CameraOnMouseLeave),
     mkPage (listeners p ++ CameraListeners.added (nextFunction p))
       (nextFunction p + 9)).
Proof.
  intros Hp.
  unfold CameraListeners.setup, CameraListeners.setupEventListeners,
    CameraListeners.setupControlsListeners, CameraListeners.setupMouseListeners,
    arrow.
  destruct p as [ls n]. cbn [listeners nextFunction] in *.
  do 9 add_next Hp.
  rewrite <- !app_assoc. cbn [app]. unfold CameraListeners.added.
  repeat f_equal; lia.
Qed.

Ltac remove_first Hnot :=
  match goal with
  | |- context [removeEventListener ?t ?ty ?f (mkPage (?l1 ++ ?x :: ?l2) ?n)] =>
      change (removeEventListener t ty f (mkPage (l1 ++ x :: l2) n))
        with (mkPage (filter (λ l, l ≠ x) (l1 ++ x :: l2)) n);
      rewrite (filter_remove_one x l1 l2);
      [|apply Hnot; lia
       |let H := fresh in
        intros H;
        repeat (apply elem_of_cons in H as [H|H]; [by inversion H|]);
        by apply elem_of_nil in H]
  end.

Lemma camera_destroy_listeners {Orbit : Type} (s : Camera.Animator Orbit) (p : Page) :
  arrowsOnly p →
  (CameraListeners.destroy (CameraListeners.setup p).1 s (CameraListeners.setup p).2).2
  = mkPage (listeners p) (nextFunction p + 9).
Proof.
  intros Hp. rewrite camera_setup_listeners by done.
  cbn [fst snd]. unfold CameraListeners.destroy. cbn [snd].
  cbn [CameraListeners.boundToggleRotation CameraListeners.boundResetCamera
       CameraListeners.boundInteractionStart CameraListeners.boundInteractionEnd
       CameraListeners.boundInteractionChange CameraListeners.boundMouseDown
       CameraListeners.boundMouseMove CameraListeners.boundMouseUp
       CameraListeners.boundMouseLeave].
  unfold CameraListeners.added.
  destruct p as [ls n]. cbn [listeners nextFunction] in *.
  assert (Hnot : ∀ t ty id m, n ≤ id → mkListener t ty (Arrow id m) ∉ ls).
  { intros t ty id m Hle Hin. destruct (Hp _ Hin) as (id' & calls & E & Hlt).
    simpl in E, Hlt. injection E as <- _. lia. }
  do 9 remove_first Hnot.
  by rewrite app_nil_r.
Qed.

(** X18. [CameraAnimator.destroy] removes exactly the nine listeners
    that the constructor added.  On a page that holds only arrow-function
    listeners the three setup methods add nine new arrow functions (click on
    the two buttons, start, end and change on the controls, mousedown,
    mousemove, mouseup and mouseleave on the canvas) and keep them in the
    [bound...] fields; [destroy] removes them by these fields and leaves the
    listeners the page had before.  Of the animator it cancels the one timer
    that [interactionTimeout] names, and no other. *)
Theorem camera_destroy_removes_its_listeners {Orbit : Type}
    (s : Camera.Animator Orbit) (p : Page) :
  arrowsOnly p →
  let b := (CameraListeners.setup p).1 in
  let p1 := (CameraListeners.setup p).2 in
  let s' := (CameraListeners.destroy b s p1).1 in
  let p2 := (CameraListeners.destroy b s p1).2 in
  listeners p1 = listeners p ++ CameraListeners.added (nextFunction p)
  ∧ listeners p2 = listeners p
  ∧ Camera.timers s'
    = match Camera.interactionTimeout s with
      | Some id => filter (λ t, Camera.timerId t ≠ id) (Camera.timers s)
      | None => Camera.timers s
      end
  ∧ Camera.set_timers (Camera.timers s) s' = s.
Proof.
  intros Hp b p1 s' p2.
  split. { unfold p1. by rewrite camera_setup_listeners. }
  split. { unfold p2, p1, b. by rewrite camera_destroy_listeners. }
  unfold s', CameraListeners.destroy. cbn [fst].
  destruct (Camera.interactionTimeout s); by destruct s.
Qed.

(** *** On the empty page *)

Lemma interaction_destroy_removes_no_listener_witness :
  InteractionListeners.destroy
    (InteractionListeners.setupEventListeners (mkPage [] 0))
  = InteractionListeners.setupEventListeners (mkPage [] 0).
Proof.
  apply (interaction_destroy_removes_no_listener (mkPage [] 0)).
  intros l Hl. by apply elem_of_nil in Hl.
Defined.

Lemma camera_destroy_removes_its_listeners_witness :
  listeners
    (CameraListeners.destroy (CameraListeners.setup (mkPage [] 0)).1
       Camera.viewerAnimator (CameraListeners.setup (mkPage [] 0)).2).2
  = [].
Proof.
  destruct (camera_destroy_removes_its_listeners Camera.viewerAnimator
              (mkPage [] 0)) as (_ & H & _).
  - intros l Hl. by apply elem_of_nil in Hl.
  - exact H.
Defined.

End DomFacts.
(** * Facts about the application *)

Module AppFacts.
Import App.

Local Open Scope R_scope.

Section WithOrbitControls.

Context {Orbit : Type}.
Variable orbit_update :
  Orbit → Vector3 → Camera.Camera → Orbit * Vector3 * Camera.Camera * bool.
Implicit Types a : App Orbit.

(** ** One loop *)

Lemma update_loop (r : Reading) a :
  animationId (update orbit_update r a) = animationId a
  ∧ isRunning (update orbit_update r a) = isRunning a
  ∧ requested (update orbit_update r a) = requested a
  ∧ nextRequest (update orbit_update r a) = nextRequest a
  ∧ page (update orbit_update r a) = page a
  ∧ bound (update orbit_update r a) = bound a.
Proof. done. Qed.

Lemma animate_running (r : Reading) a :
  isRunning a = true →
  animate orbit_update r a
  = update orbit_update r
      (mkApp (cameraAnimator a) (productCreator a) (interactionManager a)
         (bound a) (page a) (Some (nextRequest a)) true
         (requested a ++ [nextRequest a]) (S (nextRequest a))).
Proof. intros Hr. unfold animate. rewrite Hr. simpl. by rewrite Hr. Qed.

Lemma filter_ne_singleton (id : nat) : filter (λ i, i ≠ id) [id] = [].
Proof. rewrite filter_cons, decide_False by (intros H; by apply H). done. Qed.

Lemma start_oneLoop (r : Reading) a :
  oneLoop a → oneLoop (start orbit_update r a).
Proof.
  intros Hone. pose proof Hone as (Hq & Hrun & Hpos & Hlt). unfold start.
  destruct (isRunning a) eqn:Er; [exact Hone|].
  rewrite animate_running by done.
  assert (Hnone : animationId a = None).
  { destruct (animationId a); [|done]. destruct Hrun as [_ H].
    by specialize (H ltac:(eauto)). }
  rewrite Hnone in Hq.
  split; [|split; [|split]]; simpl.
  - by rewrite Hq.
  - split; eauto.
  - lia.
  - rewrite Hq. intros id Hid. apply list_elem_of_singleton in Hid as ->. lia.
Qed.

Lemma stop_oneLoop a : oneLoop a → oneLoop (stop a).
Proof.
  intros Hone. pose proof Hone as (Hq & Hrun & Hpos & Hlt). unfold stop.
  destruct (isRunning a) eqn:Er; [|exact Hone]. simpl.
  destruct (animationId a) as [id|] eqn:Ei.
  - case_decide as Hz.
    { subst id. destruct (Hlt 0%nat); [rewrite Hq; by left|lia]. }
    split; [|split; [|split]]; simpl.
    + rewrite Hq. apply filter_ne_singleton.
    + split; [done|]. by intros [? ?].
    + done.
    + rewrite Hq, filter_ne_singleton. intros i Hi. by apply elem_of_nil in Hi.
  - destruct Hrun as [H _]. by destruct (H eq_refl).
Qed.

Lemma frame_oneLoop (id : nat) (r : Reading) a :
  oneLoop a → oneLoop (frame orbit_update id r a).
Proof.
  intros Hone. pose proof Hone as (Hq & Hrun & Hpos & Hlt).
  unfold frame. case_decide as Hin; [|exact Hone].
  destruct (animationId a) as [id'|] eqn:Ei.
  2:{ rewrite Hq in Hin. by apply elem_of_nil in Hin. }
  rewrite Hq in Hin. apply list_elem_of_singleton in Hin as ->.
  assert (Er : isRunning a = true) by (apply Hrun; eauto).
  rewrite animate_running by done. simpl.
  rewrite Hq, filter_ne_singleton.
  split; [|split; [|split]]; simpl.
  - done.
  - split; eauto.
  - lia.
  - intros i Hi. apply list_elem_of_singleton in Hi as ->. lia.
Qed.

Lemma destroy_loop a :
  animationId (destroy a) = animationId (stop a)
  ∧ isRunning (destroy a) = isRunning (stop a)
  ∧ requested (destroy a) = requested (stop a)
  ∧ nextRequest (destroy a) = nextRequest (stop a).
Proof. unfold destroy, CameraListeners.destroy. simpl. done. Qed.

Lemma destroy_oneLoop a : oneLoop a → oneLoop (destroy a).
Proof.
  intros H. apply stop_oneLoop in H. unfold oneLoop in *.
  destruct (destroy_loop a) as (-> & -> & -> & ->). done.
Qed.

Lemma handle_oneLoop (e : Event) a :
  oneLoop a → oneLoop (handle orbit_update e a).
Proof.
  destruct e; simpl;
    [apply start_oneLoop|apply stop_oneLoop|apply frame_oneLoop|apply destroy_oneLoop].
Qed.

Lemma run_oneLoop (es : list Event) : ∀ a,
  oneLoop a → oneLoop (run orbit_update es a).
Proof.
  induction es as [|e es IH]; intros a H; [done|]. unfold run in *. simpl.
  apply IH. by apply handle_oneLoop.
Qed.

(** X19. There is never more than one animation loop.  From a state
    with no frame requested and the loop not running, after any calls of
    [start], [stop] and [destroy] and any requested frames coming due:
    while [isRunning] exactly one frame is requested and [animationId] is
    its id; otherwise none is requested and [animationId] is cleared, so
    that no update runs any more; and a second [start] changes nothing. *)
Theorem one_animation_loop (es : list Event) a :
  oneLoop a →
  let a' := run orbit_update es a in
  (if isRunning a'
   then ∃ id, requested a' = [id] ∧ animationId a' = Some id
   else requested a' = [] ∧ animationId a' = None)
  ∧ (isRunning a' = false →
       ∀ id r, handle orbit_update (FrameDue id r) a' = a')
  ∧ (∀ r1 r2, start orbit_update r2 (start orbit_update r1 a')
              = start orbit_update r1 a').
Proof.
  intros H a'. pose proof (run_oneLoop es a H) as (Hq & Hrun & Hpos & Hlt).
  fold a' in Hq, Hrun, Hpos, Hlt.
  assert (Hcase : if isRunning a'
                  then ∃ id, requested a' = [id] ∧ animationId a' = Some id
                  else requested a' = [] ∧ animationId a' = None).
  { destruct (isRunning a') eqn:Er.
    - destruct Hrun as [Hr _]. destruct (Hr eq_refl) as [id Hid].
      exists id. by rewrite Hq, Hid.
    - destruct (animationId a') as [id|] eqn:Ei; [|done].
      destruct Hrun as [_ Hr]. by specialize (Hr ltac:(eauto)). }
  split; [done|]. split.
  - intros Er id r. rewrite Er in Hcase. destruct Hcase as [Hnone _].
    simpl. unfold frame. rewrite Hnone. case_decide as Hin; [|done].
    by apply elem_of_nil in Hin.
  - intros r1 r2. unfold start at 1.
    assert (Hr1 : isRunning (start orbit_update r1 a') = true).
    { unfold start. destruct (isRunning a') eqn:Er; [done|].
      by rewrite animate_running. }
    by rewrite Hr1.
Qed.

(** ** One frame *)

Lemma controlsUpdate_keeps (heard : bool) (s : Camera.Animator Orbit) :
  let s' := controlsUpdate orbit_update heard s in
  Camera.autoRotating s' = Camera.autoRotating s
  ∧ (Camera.userInteracting s = false →
       Camera.currentAngle s' = Camera.currentAngle s
       ∧ Camera.radius s' = Camera.radius s
       ∧ Camera.height s' = Camera.height s
       ∧ Camera.target s' = Camera.target s
       ∧ Camera.rotationSpeed s' = Camera.rotationSpeed s).
Proof.
  destruct heard; cbn [controlsUpdate].
  - destruct (CameraFacts.controlsUpdate_flags orbit_update s)
      as (F1 & F2 & F3 & _ & _).
    split.
    + unfold Camera.autoRotating. by rewrite F1, F2, F3.
    + intros Hu.
      destruct (CameraFacts.controlsUpdate_orbit_fields orbit_update s Hu)
        as (A & B & C & D & E & _).
      done.
  - unfold controlsUpdateUnheard.
    destruct (orbit_update _ _ _) as [[[o t] cam] changed]. done.
Qed.

(** X20. One frame of the application during auto-rotation: the
    [controls.update()] of the scene manager, which runs first, leaves no
    trace in what is rendered.  The animator advances the angle by
    [rotationSpeed] degrees per second of [deltaTime] and puts the camera on
    the orbit point of the new angle, aimed at the target, exactly as
    [CameraAnimator.update] alone would; the controls end disabled; the
    product floats by the elapsed time and the pulses advance by the delta.
    When auto-rotation is off, the frame runs [controls.update()] twice,
    the second time with the controls enabled. *)
Theorem frame_in_auto_rotation_ignores_controls (r : Reading) a :
  let s := cameraAnimator a in
  let a' := update orbit_update r a in
  let s' := cameraAnimator a' in
  (Camera.autoRotating s = true →
     Camera.camera s'
     = Camera.camera (Camera.update orbit_update (now r) (deltaTime r) s)
     ∧ Camera.currentAngle s'
       = Camera.currentAngle s
         + Camera.rotationSpeed s * PI / 180 * (deltaTime r / 1000)
     ∧ Camera.position (Camera.camera s') = Camera.orbitPoint s'
     ∧ Camera.faces (Camera.camera s') (Camera.target s)
     ∧ Camera.enabled (Camera.controls s') = false
     ∧ Camera.autoRotating s' = true)
  ∧ (Camera.autoRotating s = false →
       let s1 := controlsUpdate orbit_update (changeHeard a) s in
       s' = controlsUpdate orbit_update (changeHeard a)
              (Camera.set_controls
                 (Camera.set_enabled true (Camera.controls s1)) s1))
  ∧ productCreator a' = Product.updateFloating (elapsedTime r) (productCreator a)
  ∧ interactionManager a'
    = Interaction.updatePulseAnimations (deltaTime r) (interactionManager a).
Proof.
  intros s a' s'.
  destruct (controlsUpdate_keeps (changeHeard a) s) as [Hauto Hfields].
  split; [|split; [|done]].
  - intros Ha.
    assert (Hu : Camera.userInteracting s = false).
    { unfold Camera.autoRotating in Ha.
      destruct (Camera.userInteracting s); [|done].
      by rewrite andb_false_r in Ha. }
    destruct (Hfields Hu) as (A & B & C & D & E).
    assert (Ha1 : Camera.autoRotating
                    (controlsUpdate orbit_update (changeHeard a) s) = true)
      by congruence.
    unfold s', a', update. cbn [cameraAnimator set_modules]. fold s.
    unfold animatorUpdate. rewrite Ha1, orb_true_r.
    rewrite (CameraFacts.update_autoRotating orbit_update _ _ _ Ha1).
    rewrite (CameraFacts.update_autoRotating orbit_update _ _ _ Ha).
    cbn [Camera.camera Camera.set_lastTime Camera.set_camera Camera.currentAngle
         Camera.set_currentAngle Camera.set_controls Camera.controls
         Camera.position Camera.enabled Camera.set_enabled].
    unfold Camera.orbitPoint.
    cbn [Camera.currentAngle Camera.set_currentAngle Camera.radius Camera.height
         Camera.target Camera.set_lastTime Camera.set_camera Camera.set_controls].
    rewrite A, B, C, D, E.
    split; [done|]. split; [done|]. split; [done|]. split; [done|].
    split; [done|].
    unfold Camera.autoRotating in *.
    cbn [Camera.isAutoRotating Camera.userInteracting Camera.isMouseDown
         Camera.set_lastTime Camera.set_camera Camera.set_currentAngle
         Camera.set_controls].
    exact Ha1.
  - intros Ha s1. unfold s', a', update. cbn [cameraAnimator set_modules].
    fold s. fold s1. unfold animatorUpdate.
    assert (Ha1 : Camera.autoRotating s1 = false) by (unfold s1; congruence).
    rewrite Ha1, orb_false_r. destruct (changeHeard a); cbn [controlsUpdate].
    + by apply CameraFacts.update_not_autoRotating.
    + reflexivity.
Qed.

(** ** [destroy] *)

Lemma camera_setup_arrowsOnly (p : Dom.Page) :
  Dom.arrowsOnly p → Dom.arrowsOnly (CameraListeners.setup p).2.
Proof.
  intros Hp. rewrite DomFacts.camera_setup_listeners by done. cbn [snd].
  destruct p as [ls n]. apply (DomFacts.arrowsOnly_app ls _ n); [done|simpl; lia|].
  intros l Hl. unfold CameraListeners.added in Hl. cbn [Dom.nextFunction] in *.
  repeat (apply elem_of_cons in Hl as [->|Hl];
          [eexists _, _; split; [reflexivity|lia]|]).
  by apply elem_of_nil in Hl.
Qed.

Lemma handle_page (e : Event) a :
  e ≠ Destroy →
  page (handle orbit_update e a) = page a
  ∧ bound (handle orbit_update e a) = bound a.
Proof.
  intros He. destruct e as [r| |id r|]; [| | |done]; simpl.
  - unfold start, animate. destruct (isRunning a); simpl; done.
  - unfold stop. destruct (isRunning a); simpl; [|done].
    destruct (animationId a); [|done]. by case_decide.
  - unfold frame, animate. case_decide; [|done]. simpl.
    by destruct (isRunning a).
Qed.

Lemma run_page (es : list Event) : ∀ a,
  Forall (λ e, e ≠ Destroy) es →
  page (run orbit_update es a) = page a
  ∧ bound (run orbit_update es a) = bound a.
Proof.
  induction es as [|e es IH]; intros a Hes; [done|].
  apply Forall_cons in Hes as [He Hes]. unfold run in *. simpl.
  destruct (handle_page e a He) as [<- <-]. by apply IH.
Qed.

Lemma initializeModules_spec (o : Orbit) (hidden : bool) (text : string)
    (p : Dom.Page) a :
  initializeModules orbit_update o hidden text p = Some a →
  bound a
  = (CameraListeners.setup (InteractionListeners.setupEventListeners p)).1
  ∧ page a
    = (CameraListeners.setup (InteractionListeners.setupEventListeners p)).2
  ∧ animationId a = None ∧ isRunning a = false ∧ requested a = []
  ∧ nextRequest a = 1%nat
  ∧ ∃ creator,
      Product.construct [] = Some creator
      ∧ productCreator a = Product.addFloatingAnimation creator
      ∧ Interaction.start (Product.scene creator hidden text)
        = Some (interactionManager a).
Proof.
  unfold initializeModules.
  destruct (sceneManager orbit_update o) as [camera controls].
  destruct (Product.construct []) as [creator|] eqn:Hc;
    cbn [mbind option_bind]; [|done].
  destruct (Interaction.start _) as [manager|] eqn:Hm;
    cbn [mbind option_bind]; [|done].
  destruct (CameraListeners.setup _) as [b p2].
  intros [= <-].
  cbn [fst snd bound page animationId isRunning requested nextRequest].
  repeat split; try done. by exists creator.
Qed.

Lemma changeHeard_after_setup (p1 : Dom.Page) (b : CameraListeners.Bound)
    (p2 : Dom.Page) :
  Dom.arrowsOnly p1 → CameraListeners.setup p1 = (b, p2) →
  CameraListeners.boundInteractionChange b
  ∈ Dom.dispatch Dom.OrbitControls "change" p2.
Proof.
  intros Hp1 Hs. rewrite DomFacts.camera_setup_listeners in Hs by done.
  injection Hs as <- <-. cbn [CameraListeners.boundInteractionChange].
  unfold Dom.dispatch. cbn [Dom.listeners].
  rewrite filter_app, fmap_app. apply elem_of_app. right.
  apply list_elem_of_fmap.
  exists (Dom.mkListener Dom.OrbitControls "change"
            (Dom.Arrow (Dom.nextFunction p1 + 4) Dom.CameraOnUserInteractionChange)).
  split; [done|]. apply list_elem_of_filter. split; [done|].
  unfold CameraListeners.added. do 4 right. left.
Qed.

Lemma changeHeard_after_destroy (p : Dom.Page) (k : nat) (m : Dom.Method) :
  Dom.arrowsOnly p → 4 ≤ k →
  Dom.Arrow (Dom.nextFunction p + k) m
  ∉ Dom.callback
      <$> (Dom.listeners p ++ InteractionListeners.added (Dom.nextFunction p)).
Proof.
  intros Hp Hk Hin. apply list_elem_of_fmap in Hin as (l & Hcb & Hl).
  apply elem_of_app in Hl as [Hl|Hl].
  - by apply (DomFacts.arrowsOnly_callback p l k m Hp Hl).
  - unfold InteractionListeners.added in Hl.
    repeat (apply elem_of_cons in Hl as [->|Hl];
            [simpl in Hcb; injection Hcb as Hid _; lia|]).
    by apply elem_of_nil in Hl.
Qed.

(** X21. [App.destroy] after [init] and any starts, stops and frames:
    the loop is stopped with no frame requested, so no update runs any more;
    the nine listeners of the camera animator are gone, among them the one
    that heard the controls' [change] until then; the four listeners of the
    interaction manager are still registered, after the listeners the page
    had before. *)
Theorem destroy_stops_loop_and_keeps_interaction_listeners
    (o : Orbit) (hidden : bool) (text : string) (p : Dom.Page) (r : Reading)
    (es : list Event) a :
  Dom.arrowsOnly p → Forall (λ e, e ≠ Destroy) es →
  init orbit_update o hidden text p r = Some a →
  let a' := destroy (run orbit_update es a) in
  isRunning a' = false ∧ requested a' = [] ∧ animationId a' = None
  ∧ (∀ id r', frame orbit_update id r' a' = a')
  ∧ Dom.listeners (page a')
    = Dom.listeners p ++ InteractionListeners.added (Dom.nextFunction p)
  ∧ changeHeard (run orbit_update es a) = true
  ∧ changeHeard a' = false.
Proof.
  intros Hp Hes Hinit a'.
  unfold init in Hinit.
  destruct (initializeModules orbit_update o hidden text p) as [a0|] eqn:H0;
    cbn [mbind option_bind] in Hinit; [|done].
  injection Hinit as <-.
  destruct (initializeModules_spec o hidden text p a0 H0)
    as (Hb0 & Hp0 & Hi0 & Hr0 & Hq0 & Hn0 & _).
  pose proof (DomFacts.interaction_setup_arrowsOnly p Hp) as Hp1.
  pose proof (DomFacts.interaction_setup_listeners p Hp) as Hl1.
  set (p1 := InteractionListeners.setupEventListeners p) in *.
  pose proof (camera_setup_arrowsOnly p1 Hp1) as Hp2.
  assert (H1 : oneLoop a0).
  { unfold oneLoop. rewrite Hq0, Hi0, Hr0, Hn0.
    split; [done|]. split; [|split; [lia|by intros ? Hx; apply elem_of_nil in Hx]].
    split; [done|]. by intros [? ?]. }
  pose proof (start_oneLoop r a0 H1) as H2.
  pose proof (run_oneLoop es _ H2) as H3.
  pose proof (destroy_oneLoop _ H3) as (Hq & Hrun & _ & Hlt).
  fold a' in Hq, Hrun, Hlt.
  destruct (run_page es (start orbit_update r a0) Hes) as [Hpg Hbd].
  destruct (handle_page (Start r) a0 ltac:(done)) as [Hpg0 Hbd0].
  cbn [handle] in Hpg0, Hbd0. rewrite Hpg0, Hp0 in Hpg. rewrite Hbd0, Hb0 in Hbd.
  set (a1 := run orbit_update es (start orbit_update r a0)) in *.
  assert (Hstop : isRunning (stop a1) = false
                  ∧ page (stop a1) = page a1 ∧ bound (stop a1) = bound a1
                  ∧ cameraAnimator (stop a1) = cameraAnimator a1).
  { unfold stop. destruct (isRunning a1) eqn:Er; simpl; [|done].
    destruct (animationId a1) as [id1|] eqn:Ei1; [|done].
    case_decide as Hz; [|done]. subst id1.
    destruct H3 as (Hq3 & _ & _ & Hlt3). fold a1 in Hq3, Hlt3.
    destruct (Hlt3 0%nat); [rewrite Hq3, Ei1; by left|lia]. }
  destruct Hstop as (Hs1 & Hs2 & Hs3 & Hs4).
  assert (Hrun' : isRunning a' = false).
  { unfold a'. by destruct (destroy_loop a1) as (_ & -> & _). }
  assert (Hid : animationId a' = None).
  { destruct (animationId a') as [id|] eqn:Ei; [|done].
    destruct Hrun as [_ H]. specialize (H ltac:(eauto)). congruence. }
  rewrite Hid in Hq.
  assert (Hpage : Dom.listeners (page a')
                  = Dom.listeners p
                    ++ InteractionListeners.added (Dom.nextFunction p)).
  { unfold a', destroy. rewrite Hs2, Hs3, Hs4, Hpg, Hbd.
    rewrite (DomFacts.interaction_destroy_arrowsOnly _ Hp2).
    pose proof (DomFacts.camera_destroy_listeners (cameraAnimator a1) p1 Hp1) as Hcd.
    destruct (CameraListeners.destroy _ (cameraAnimator a1) _) as [s3 p3].
    cbn [snd] in Hcd. subst p3. cbn [page Dom.listeners]. subst p1.
    by rewrite Hl1. }
  assert (Hbound : bound a' = (CameraListeners.setup p1).1).
  { unfold a', destroy.
    destruct (CameraListeners.destroy _ _ _) as [s3 p3].
    cbn [bound]. by rewrite Hs3. }
  split; [done|]. split; [done|]. split; [done|]. split.
  { intros id r'. unfold frame. rewrite Hq. case_decide as Hin; [|done].
    by apply elem_of_nil in Hin. }
  split; [exact Hpage|]. split.
  - unfold changeHeard. rewrite Hpg, Hbd. apply bool_decide_eq_true.
    apply (changeHeard_after_setup p1); [done|]. by destruct (CameraListeners.setup p1).
  - unfold changeHeard. apply bool_decide_eq_false.
    unfold Dom.dispatch. intros Hin.
    apply list_elem_of_fmap in Hin as (l & Hcb & Hl).
    apply list_elem_of_filter in Hl as [_ Hl].
    rewrite Hpage in Hl. rewrite Hbound in Hcb.
    rewrite DomFacts.camera_setup_listeners in Hcb by done.
    cbn [fst CameraListeners.boundInteractionChange] in Hcb.
    subst p1. rewrite Hl1 in Hcb. cbn [Dom.nextFunction] in Hcb.
    apply (changeHeard_after_destroy p (4 + 4) Dom.CameraOnUserInteractionChange Hp);
      [lia|].
    apply list_elem_of_fmap. exists l. split; [|done].
    rewrite <- Hcb. f_equal. lia.
Qed.

End WithOrbitControls.

(** *** On the viewer *)

Lemma one_animation_loop_witness :
  ∃ a, initializeModules Camera.stillOrbit tt true EmptyString (Dom.mkPage [] 0)
       = Some a
    ∧ start Camera.stillOrbit (mkReading 16 16 16)
        (start Camera.stillOrbit (mkReading 0 0 0)
           (run Camera.stillOrbit [Stop; FrameDue 1 (mkReading 8 8 8)] a))
      = start Camera.stillOrbit (mkReading 0 0 0)
          (run Camera.stillOrbit [Stop; FrameDue 1 (mkReading 8 8 8)] a).
Proof.
  destruct (initializeModules Camera.stillOrbit tt true EmptyString
              (Dom.mkPage [] 0)) as [a|] eqn:E.
  2:{ vm_compute in E. discriminate E. }
  exists a. split; [reflexivity|].
  destruct (initializeModules_spec _ _ _ _ _ _ E)
    as (_ & _ & Hi & Hr & Hq & Hn & _).
  apply (one_animation_loop Camera.stillOrbit
           [Stop; FrameDue 1 (mkReading 8 8 8)] a).
  unfold oneLoop. rewrite Hq, Hi, Hr, Hn.
  split; [reflexivity|].
  split; [|split; [lia|by intros ? Hx; apply elem_of_nil in Hx]].
  split; [discriminate|]. by intros [? ?].
Defined.

Lemma destroy_stops_loop_and_keeps_interaction_listeners_witness :
  ∃ a, init Camera.stillOrbit tt true EmptyString (Dom.mkPage [] 0)
         (mkReading 0 0 0) = Some a
    ∧ Dom.listeners
        (page (destroy (run Camera.stillOrbit
                          [FrameDue 1 (mkReading 16 16 16); Stop] a)))
      = InteractionListeners.added 0.
Proof.
  destruct (init Camera.stillOrbit tt true EmptyString (Dom.mkPage [] 0)
              (mkReading 0 0 0)) as [a|] eqn:E.
  - exists a. split; [reflexivity|].
    apply (destroy_stops_loop_and_keeps_interaction_listeners Camera.stillOrbit
             tt true EmptyString (Dom.mkPage [] 0) (mkReading 0 0 0)
             [FrameDue 1 (mkReading 16 16 16); Stop] a).
    + intros l Hl. by apply elem_of_nil in Hl.
    + repeat constructor; discriminate.
    + exact E.
  - vm_compute in E. discriminate E.
Defined.

End AppFacts.
